(** * The provisioning pipeline of the Specify CLI

    A shallow embedding of [src/specify_cli/__init__.py]: source resolution
    (release asset selection and local template discovery), payload
    flattening, the merge engine, the per-agent loop of [init], the legacy
    relocator and the permission normalizer; then what surrounds them: the
    GitHub credentials, the values of [--ai], the step tracker, the
    interactive choice and the order of the slash commands.

    Part I holds the definitions, module by module, each one next to the
    Python function it renders.  Part II holds the facts proved about them. *)

From Stdlib Require Import ZArith Lia Bool Ascii.
From stdpp Require Import base list strings sorting gmap.

Local Open Scope Z_scope.

(* ===================================================================== *)
(** * Part I: definitions                                                 *)
(* ===================================================================== *)

(** ** Python string primitives *)

Module Str.

(** [pat in s] *)
Fixpoint contains (pat s : string) : bool :=
  String.prefix pat s ||
  match s with
  | EmptyString => false
  | String _ s' => contains pat s'
  end.

(** [s.startswith(pre)] *)
Definition startswith (s pre : string) : bool := String.prefix pre s.

(** [s.endswith(suf)] *)
Definition endswith (s suf : string) : bool :=
  (String.length suf <=? String.length s)%nat &&
  String.eqb
    (String.substring (String.length s - String.length suf)
                      (String.length suf) s)
    suf.

(** [sep.join(items)] *)
Fixpoint join (sep : string) (items : list string) : string :=
  match items with
  | [] => ""
  | [x] => x
  | x :: rest => x +:+ sep +:+ join sep rest
  end.

(** [sorted(names)] on strings: insertion into an ascending list, by code
    point ([String.leb]). *)
Fixpoint insert_sorted (x : string) (l : list string) : list string :=
  match l with
  | [] => [x]
  | y :: l' => if String.leb x y then x :: l else y :: insert_sorted x l'
  end.

Definition sorted (l : list string) : list string :=
  foldr insert_sorted [] l.

(** [s.split("/")] *)
Fixpoint split_slash (s : string) : list string :=
  match s with
  | EmptyString => [""]
  | String c s' =>
      if Ascii.eqb c "/"%char then "" :: split_slash s'
      else match split_slash s' with
           | [] => [String c ""]
           | x :: xs => String c x :: xs
           end
  end.

Fixpoint leading_slashes (s : string) : nat :=
  match s with
  | String c s' => if Ascii.eqb c "/"%char then S (leading_slashes s') else 0
  | EmptyString => 0
  end.

(** [Path(s).parts] on a POSIX system: the root, if any (two leading
    slashes are kept as they are, any other number collapses to one), then
    the components, without the empty ones and the single dots. *)
Definition path_parts (s : string) : list string :=
  let root :=
    match leading_slashes s with
    | 0%nat => []
    | 2%nat => ["//"]
    | _ => ["/"]
    end in
  root ++
  List.filter (fun c => negb (String.eqb c "" || String.eqb c "."))
              (split_slash s).

End Str.

(** ** The file tree

    A directory is the list of its entries in listing order (the order
    [iterdir] yields them); a regular file carries its permission bits and
    its bytes.  Symbolic links are not part of the tree: where the code asks
    [is_symlink] the answer is an oracle on paths. *)

Module FS.

#[warnings="-register-all"]
Inductive node :=
| File (perm : Z) (data : string)
| Dir (entries : list (string * node)).

Definition dirents := list (string * node).
Definition path := list string.

(** Directory entries by name.  [dir_get] reads the first binding,
    [dir_put] replaces it or appends a new one at the end of the listing,
    [dir_del] drops every binding of the name. *)
Fixpoint dir_get (k : string) (es : dirents) : option node :=
  match es with
  | [] => None
  | (k', v) :: es' => if String.eqb k k' then Some v else dir_get k es'
  end.

Fixpoint dir_put (k : string) (v : node) (es : dirents) : dirents :=
  match es with
  | [] => [(k, v)]
  | (k', v') :: es' =>
      if String.eqb k k' then (k, v) :: es' else (k', v') :: dir_put k v es'
  end.

Fixpoint dir_del (k : string) (es : dirents) : dirents :=
  match es with
  | [] => []
  | (k', v') :: es' =>
      if String.eqb k k' then dir_del k es' else (k', v') :: dir_del k es'
  end.

Definition names (es : dirents) : list string := map fst es.

(** The node a path leads to, from the directory [n]. *)
Fixpoint find (p : path) (n : node) : option node :=
  match p with
  | [] => Some n
  | k :: p' =>
      match n with
      | Dir es =>
          match dir_get k es with
          | Some c => find p' c
          | None => None
          end
      | File _ _ => None
      end
  end.

(** [Path.exists()], [Path.is_dir()], [Path.is_file()] *)
Definition exists_ (p : path) (fs : node) : bool :=
  match find p fs with Some _ => true | None => false end.

Definition is_dir (p : path) (fs : node) : bool :=
  match find p fs with Some (Dir _) => true | _ => false end.

Definition is_file (p : path) (fs : node) : bool :=
  match find p fs with Some (File _ _) => true | _ => false end.

(** [list(p.iterdir())]: the names in [p], read once; [None] when [p] is
    not a directory (the call raises). *)
Definition iterdir (p : path) (fs : node) : option (list string) :=
  match find p fs with
  | Some (Dir es) => Some (names es)
  | _ => None
  end.

(** Change what sits at [p], when everything above [p] is a directory;
    [f] receives the present node, if any, and answers the new one. *)
Fixpoint update (p : path) (f : option node -> option node) (n : node)
  : node :=
  match p, n with
  | [], _ => n
  | [k], Dir es =>
      match f (dir_get k es) with
      | Some v => Dir (dir_put k v es)
      | None => Dir (dir_del k es)
      end
  | k :: p', Dir es =>
      match dir_get k es with
      | Some c => Dir (dir_put k (update p' f c) es)
      | None => n
      end
  | _ :: _, File _ _ => n
  end.

Definition place (p : path) (v : node) (fs : node) : node :=
  update p (fun _ => Some v) fs.

Definition unlink (p : path) (fs : node) : node :=
  update p (fun _ => None) fs.

(** [Path(p).parent] *)
Definition parent (p : path) : path := removelast p.

(** [q] is [p] or lies below it. *)
Fixpoint is_prefix (p q : path) : bool :=
  match p, q with
  | [], _ => true
  | a :: p', b :: q' => String.eqb a b && is_prefix p' q'
  | _ :: _, [] => false
  end.

(** The two paths part ways at some name: neither lies below the other. *)
Fixpoint diverge (p q : path) : Prop :=
  match p, q with
  | a :: p', b :: q' => a ≠ b ∨ diverge p' q'
  | _, _ => False
  end.

(** [os.makedirs(p, exist_ok=True)]: creates the missing directories along
    [p]; [None] when a file is in the way. *)
Fixpoint makedirs (p : path) (n : node) : option node :=
  match p with
  | [] => match n with Dir _ => Some n | File _ _ => None end
  | k :: p' =>
      match n with
      | Dir es =>
          match makedirs p' (default (Dir []) (dir_get k es)) with
          | Some c => Some (Dir (dir_put k c es))
          | None => None
          end
      | File _ _ => None
      end
  end.

End FS.

(** ** Source resolver *)

Module Resolver.
Import FS.

(** One entry of [release_data["assets"]]. *)
Record asset := {
  asset_name : string;
  browser_download_url : string;
  asset_size : Z;
}.

(** What [download_template_from_github] reports before [typer.Exit(1)]
    when no asset fits: the expected pattern and the panel text. *)
Record asset_not_found := {
  expected_pattern : string;
  asset_names : list string;
  panel : string;
}.

(** [f"spec-kit-template-{ai_assistant}-{script_type}"] *)
Definition asset_pattern (ai_assistant script_type : string) : string :=
  "spec-kit-template-" +:+ ai_assistant +:+ "-" +:+ script_type.

(** [pattern in asset["name"] and asset["name"].endswith(".zip")] *)
Definition asset_matches (pattern : string) (a : asset) : bool :=
  Str.contains pattern (asset_name a) && Str.endswith (asset_name a) ".zip".

(** ["\n".join(asset_names) or "(no assets)"] *)
Definition assets_panel (names : list string) : string :=
  let text := Str.join (String (ascii_of_nat 10) "") names in
  if String.eqb text "" then "(no assets)" else text.

(** Lines 574-587 of [download_template_from_github]. *)
Definition select_asset (ai_assistant script_type : string)
    (assets : list asset) : asset_not_found + asset :=
  let pattern := asset_pattern ai_assistant script_type in
  let matching_assets := List.filter (asset_matches pattern) assets in
  match matching_assets with
  | a :: _ => inr a
  | [] =>
      let names := map asset_name assets in
      inl {| expected_pattern := pattern;
             asset_names := names;
             panel := assets_panel names |}
  end.

(** The glob patterns [find_agent_template_variant] builds: a literal
    name, or [pre*suf] with a single star.  The agent and script keys are
    validated against [AI_CHOICES] and [SCRIPT_TYPE_CHOICES] before they
    get here, so they bring no wildcard of their own. *)
Inductive glob_pattern :=
| Literal (name : string)
| Star (pre suf : string).

Definition glob_match (pat : glob_pattern) (name : string) : bool :=
  match pat with
  | Literal n => String.eqb name n
  | Star pre suf =>
      Str.startswith name pre && Str.endswith name suf &&
      (String.length pre + String.length suf <=? String.length name)%nat
  end.

(** [base_dir.glob(pattern)]: the children of [base_dir] the pattern
    accepts. *)
Definition glob (pat : glob_pattern) (base_dir : dirents) : list string :=
  List.filter (glob_match pat) (names base_dir).

Definition dir_patterns (agent script_type : string) : list glob_pattern :=
  [ Literal ("sdd-" +:+ agent +:+ "-package-" +:+ script_type);
    Star ("sdd-" +:+ agent +:+ "-package-" +:+ script_type +:+ "-") "" ].

Definition zip_patterns (agent script_type : string) : list glob_pattern :=
  [ Literal ("spec-kit-template-" +:+ agent +:+ "-" +:+ script_type +:+ ".zip");
    Star ("spec-kit-template-" +:+ agent +:+ "-" +:+ script_type +:+ "-") ".zip" ].

Definition child_is_dir (base_dir : dirents) (name : string) : bool :=
  match dir_get name base_dir with Some (Dir _) => true | _ => false end.

Definition child_is_file (base_dir : dirents) (name : string) : bool :=
  match dir_get name base_dir with Some (File _ _) => true | _ => false end.

(** [for candidate in reversed(sorted(base_dir.glob(pattern))):
       if test(candidate): return candidate] *)
Definition last_candidate (test : string -> bool) (pat : glob_pattern)
    (base_dir : dirents) : option string :=
  List.find test (rev (Str.sorted (glob pat base_dir))).

(** The [for pattern in patterns] loop around it: the first pattern that
    yields a candidate decides. *)
Fixpoint first_pattern (test : string -> bool) (pats : list glob_pattern)
    (base_dir : dirents) : option string :=
  match pats with
  | [] => None
  | pat :: pats' =>
      match last_candidate test pat base_dir with
      | Some c => Some c
      | None => first_pattern test pats' base_dir
      end
  end.

(** [find_agent_template_variant(base_dir, agent, script_type)]; the
    answer is the name of the child of [base_dir] it returns. *)
Definition find_agent_template_variant (base_dir : dirents)
    (agent script_type : string) : option string :=
  match first_pattern (child_is_dir base_dir)
          (dir_patterns agent script_type) base_dir with
  | Some c => Some c
  | None =>
      first_pattern (child_is_file base_dir)
        (zip_patterns agent script_type) base_dir
  end.

(** An asset fits when its name has the pattern inside and [.zip] at the
    end, both read off the name as a string. *)
Definition fits (pattern : string) (a : asset) : Prop :=
  (∃ pre post, asset_name a = pre +:+ pattern +:+ post) ∧
  (∃ pre, asset_name a = pre +:+ ".zip").

End Resolver.

(** ** Archive extractor and merge engine: [download_and_extract_template] *)

Module Extractor.
Import FS.

(** Lines 680-689: the top-level filter as a set of first path parts;
    an empty sequence, or one of empty names only, is no filter. *)
Definition add_filter_value (acc : gset string) (value : string)
  : gset string :=
  if String.eqb value "" then acc
  else match Str.path_parts value with
       | part :: _ => {[ part ]} ∪ acc
       | [] => {[ value ]} ∪ acc
       end.

Definition normalize_filter (top_level_filter : option (list string))
  : option (gset string) :=
  match top_level_filter with
  | None | Some [] => None
  | Some values =>
      let filtered_top_level := foldl add_filter_value ∅ values in
      if decide (filtered_top_level = ∅) then None
      else Some filtered_top_level
  end.

(** Lines 839-842: the flatten rule on the listing of the extracted (or
    local) directory; the second component is [flatten_applied]. *)
Definition flatten (extracted_items : dirents) : dirents * bool :=
  match extracted_items with
  | [(_, Dir inner)] => (inner, true)
  | _ => (extracted_items, false)
  end.

Definition put_opt (name : string) (v : option node) (es : dirents)
  : dirents :=
  match v with
  | Some n => dir_put name n es
  | None => es
  end.

(** [shutil.copy2(src, dst)] for a source file called [name]: onto a
    directory it writes [dst/name]; otherwise it creates or overwrites
    [dst].  The answer is what sits at [dst] afterwards and whether the
    call raised. *)
Definition copy2 (name : string) (src : node) (dst : option node)
  : option node * bool :=
  match dst with
  | Some (Dir ds) =>
      match dir_get name ds with
      | Some (Dir _) => (dst, true)
      | _ => (Some (Dir (dir_put name src ds)), false)
      end
  | _ => (Some src, false)
  end.

(** The entry loop of [shutil.copytree]: an error on one entry is
    recorded and the loop goes on. *)
Definition copy_entries (rec : node -> option node -> option node * bool)
  : dirents -> dirents -> bool -> dirents * bool :=
  fix loop (ses acc : dirents) (errors : bool) {struct ses} :=
    match ses with
    | [] => (acc, errors)
    | (name, child) :: rest =>
        let '(c', e) :=
          match child with
          | Dir _ => rec child (dir_get name acc)
          | File _ _ => copy2 name child (dir_get name acc)
          end in
        loop rest (put_opt name c' acc) (errors || e)
    end.

(** [shutil.copytree(src, dst, dirs_exist_ok=...)] *)
Fixpoint copytree (dirs_exist_ok : bool) (src : node) (dst : option node)
    {struct src} : option node * bool :=
  match src with
  | File _ _ => (dst, true)
  | Dir ses =>
      let start :=
        match dst with
        | None => Some []
        | Some (Dir des) => if dirs_exist_ok then Some des else None
        | Some (File _ _) => None
        end in
      match start with
      | None => (dst, true)
      | Some des =>
          let '(es, e) := copy_entries (copytree dirs_exist_ok) ses des false in
          (Some (Dir es), e)
      end
  end.

(** The [for child in src.iterdir()] loop of [_copytree_preserve]; the
    first exception ends it. *)
Definition preserve_entries (rec : node -> option node -> option node * bool)
  : dirents -> dirents -> dirents * bool :=
  fix loop (ses acc : dirents) {struct ses} :=
    match ses with
    | [] => (acc, false)
    | (name, child) :: rest =>
        match child with
        | Dir _ =>
            let '(c', e) := rec child (dir_get name acc) in
            if e then (put_opt name c' acc, true)
            else loop rest (put_opt name c' acc)
        | File _ _ =>
            match dir_get name acc with
            | Some _ => loop rest acc
            | None => loop rest (dir_put name child acc)
            end
        end
    end.

(** [_copytree_preserve(src, dest)], lines 772-786. *)
Fixpoint copytree_preserve (src : node) (dst : option node) {struct src}
  : option node * bool :=
  match dst with
  | None => copytree false src None
  | Some (File _ _) => (dst, true)
  | Some (Dir des) =>
      match src with
      | File _ _ => (dst, true)
      | Dir ses =>
          let '(es, e) := preserve_entries copytree_preserve ses des in
          (Some (Dir es), e)
      end
  end.

Section Merge.
(** [filtered_top_level], [preserve_existing_specs] and the outcome of
    [dest_path == item.resolve()] for the payload entry of a name (true
    when the payload root is the project directory itself). *)
Variable filtered_top_level : option (gset string).
Variable preserve_existing_specs : bool.
Variable same_location : string -> bool.

Definition filtered_out (name : string) : bool :=
  match filtered_top_level with
  | Some allowed => bool_decide (name ∉ allowed)
  | None => false
  end.

(** One turn of the loop of [_merge_into_project], lines 791-810: the
    project entries afterwards and whether the turn raised. *)
Definition merge_item (name : string) (item : node) (project : dirents)
  : dirents * bool :=
  if filtered_out name then (project, false)
  else if same_location name then (project, false)
  else
    let dest := dir_get name project in
    if preserve_existing_specs && String.eqb name ".specs" && bool_decide (is_Some dest)
    then
      let '(d, e) := copytree_preserve item dest in
      (put_opt name d project, e)
    else
      match item with
      | Dir _ =>
          let '(d, e) := copytree true item dest in
          (put_opt name d project, e)
      | File _ _ =>
          let '(d, e) := copy2 name item dest in
          (put_opt name d project, e)
      end.

(** [_merge_into_project(payload_root)], lines 788-810. *)
Fixpoint merge_into_project (payload_root : dirents) (project : dirents)
  : dirents * bool :=
  match payload_root with
  | [] => (project, false)
  | (name, item) :: rest =>
      let '(project', e) := merge_item name item project in
      if e then (project', true) else merge_into_project rest project'
  end.
End Merge.

(** [download_and_extract_template], lines 812-869.

    [project] is what sits at [project_path]: nothing, or a directory with
    its entries ([init] refuses a project path that exists unless it is
    the current directory, so a regular file is never there).
    [extracted] is the listing of the local template directory or of the
    temporary directory after [extractall]; [None] when reading or
    unpacking the archive raised.  The answer is the project afterwards
    and whether the function left through [raise typer.Exit(1)]. *)
Definition download_and_extract_template
    (project : option dirents) (is_current_dir : bool)
    (extracted : option dirents) (same_location : string -> bool)
    (top_level_filter : option (list string))
    (preserve_existing_specs : bool) : option dirents * bool :=
  let filtered_top_level := normalize_filter top_level_filter in
  let created :=
    if is_current_dir then project else Some (default [] project) in
  let '(after, raised) :=
    match extracted with
    | None => (created, true)
    | Some extracted_items =>
        let '(payload_root, _) := flatten extracted_items in
        let '(es, e) :=
          merge_into_project filtered_top_level preserve_existing_specs
            same_location payload_root (default [] created) in
        (Some es, e)
    end in
  if raised then
    (if negb is_current_dir && bool_decide (is_Some after) then None else after,
     true)
  else (after, false).

(** [after] extends [before]: every file of [before] is in [after] at the
    same path with the same mode and bytes, and every directory of
    [before] is still a directory. *)
Definition extends (before after : option node) : Prop :=
  ∀ p : path,
    match before ≫= find p with
    | Some (File perm data) => after ≫= find p = Some (File perm data)
    | Some (Dir _) => ∃ es, after ≫= find p = Some (Dir es)
    | None => True
    end.

End Extractor.

(** ** The agent loop of [init] *)

Module Init.
Import FS Extractor.

Definition AGENT_DIRECTORY_MAP : list (string * string) :=
  [ ("claude", ".claude/"); ("gemini", ".gemini/"); ("cursor", ".cursor/");
    ("qwen", ".qwen/"); ("opencode", ".opencode/"); ("codex", ".codex/");
    ("windsurf", ".windsurf/"); ("kilocode", ".kilocode/");
    ("auggie", ".augment/"); ("copilot", ".github/"); ("roo", ".roo/") ].

(** [{key: Path(path).parts[0] for key, path in AGENT_DIRECTORY_MAP.items()}] *)
Definition AGENT_ROOT_NAMES : list (string * string) :=
  map (fun '(key, dir) => (key, default "" (head (Str.path_parts dir))))
      AGENT_DIRECTORY_MAP.

(** [AGENT_ROOT_NAMES.get(ai_key)] *)
Fixpoint agent_root_of (table : list (string * string)) (ai_key : string)
  : option string :=
  match table with
  | [] => None
  | (key, root) :: table' =>
      if String.eqb ai_key key then Some root else agent_root_of table' ai_key
  end.

(** Python truthiness of [agent_root]. *)
Definition truthy (agent_root : option string) : bool :=
  match agent_root with
  | Some root => negb (String.eqb root "")
  | None => false
  end.

Definition specs_exists (project : option dirents) : bool :=
  match project with
  | Some es => bool_decide (is_Some (dir_get ".specs" es))
  | None => false
  end.

(** What one turn of the loop hands to [download_and_extract_template],
    with the running flag [existing_specs_present] as the turn found it. *)
Record call := {
  call_idx : nat;
  call_agent : string;
  call_flag : bool;
  call_top_level : option (list string);
  call_preserve : bool;
}.

(** Lines 1320-1329. *)
Definition plan_call (idx : nat) (ai_key : string)
    (existing_specs_present : bool) : call :=
  let agent_root := agent_root_of AGENT_ROOT_NAMES ai_key in
  let top_level :=
    if (1 <? idx)%nat && truthy agent_root
    then Some [default "" agent_root] else None in
  let preserve_specs :=
    if (idx =? 1)%nat && existing_specs_present then true
    else if (1 <? idx)%nat && negb (truthy agent_root) then true
    else false in
  {| call_idx := idx; call_agent := ai_key;
     call_flag := existing_specs_present;
     call_top_level := top_level; call_preserve := preserve_specs |}.

Section Loop.
(** Per agent: what extraction yields, and the self-copy test. *)
Variable here : bool.
Variable extracted_for : string -> option dirents.
Variable same_location_for : string -> string -> bool.

(** The [for idx, ai_key in enumerate(selected_ais, start=1)] loop,
    lines 1319-1351, from turn [idx] on.  The answer: the calls made,
    the project afterwards, and whether a call raised. *)
Fixpoint agent_loop (idx : nat) (selected_ais : list string)
    (existing_specs_present : bool) (project : option dirents)
  : list call * option dirents * bool :=
  match selected_ais with
  | [] => ([], project, false)
  | ai_key :: rest =>
      let c := plan_call idx ai_key existing_specs_present in
      let '(project', raised) :=
        download_and_extract_template project here
          (extracted_for ai_key) (same_location_for ai_key)
          (call_top_level c) (call_preserve c) in
      if raised then ([c], project', true)
      else
        let flag' := existing_specs_present || specs_exists project' in
        let '(calls, final, r) := agent_loop (S idx) rest flag' project' in
        (c :: calls, final, r)
  end.

(** Lines 1316-1351: the flag starts as [(project_path / ".specs").exists()]. *)
Definition run_agents (selected_ais : list string)
    (project : option dirents) : list call * option dirents * bool :=
  agent_loop 1 selected_ais (specs_exists project) project.
End Loop.

End Init.

(** ** Project layout: the helpers imported from [.paths] *)

Module Paths.
Import FS.

(** Modelled from the spec: [get_specs_root] of the module [paths], which
    is not part of the sources at hand; the specs root is the directory
    [.specs] of the project (the name [_merge_into_project] and [init]
    use for it). *)
Definition get_specs_root : path := [".specs"].

(** Modelled from the spec: [get_specify_root] of the module [paths]; the
    canonical configuration root is [.specs/.specify], as the docstring of
    [relocate_non_agent_directories] names it. *)
Definition get_specify_root : path := get_specs_root ++ [".specify"].

(** Modelled from the spec: [specify_scripts_dir] of the module [paths];
    the docstring of [ensure_executable_scripts] names
    [.specs/.specify/scripts]. *)
Definition specify_scripts_dir : path := get_specify_root ++ ["scripts"].

End Paths.

(** ** Legacy relocator: [relocate_non_agent_directories] *)

Module Relocator.
Import FS Paths.

(** [shutil.move(src, dst)]; [None] when it raises, and then nothing has
    changed.  Onto a directory the source goes inside it.  [os.rename]
    does the work when the parent of the destination is a directory;
    otherwise a directory is copied with [copytree], which creates the
    missing parents, and a file is lost to [FileNotFoundError]. *)
Definition shutil_move (src dst : path) (fs : node) : option node :=
  match find src fs with
  | None => None
  | Some n =>
      let real_dst :=
        if is_dir dst fs then dst ++ [default "" (last src)] else dst in
      if is_dir dst fs && exists_ real_dst fs then None
      else if is_prefix src real_dst then None
      else
        match n, find real_dst fs with
        | Dir _, Some (File _ _) => None
        | _, _ =>
            if is_dir (parent real_dst) fs
            then Some (place real_dst n (unlink src fs))
            else
              match n with
              | Dir _ =>
                  match makedirs (parent real_dst) fs with
                  | Some fs' => Some (place real_dst n (unlink src fs'))
                  | None => None
                  end
              | File _ _ => None
              end
        end
  end.

(** [p.rmdir()]: only an empty directory goes. *)
Definition rmdir (p : path) (fs : node) : option node :=
  match find p fs with
  | Some (Dir []) => Some (unlink p fs)
  | _ => None
  end.

(** The tree, the counter of the phase at hand ([migrated], [moved] or
    [nested_moved]), and the moves [shutil.move] has carried out. *)
Record state := {
  fs : node;
  counter : nat;
  performed : list (path * path);
}.

Inductive outcome :=
| Ok (s : state)
| Raise (s : state).

Definition with_fs (s : state) (fs' : node) : state :=
  {| fs := fs'; counter := counter s; performed := performed s |}.

Definition bump (s : state) : state :=
  {| fs := fs s; counter := S (counter s); performed := performed s |}.

Definition move (src dst : path) (s : state) : outcome :=
  match shutil_move src dst (fs s) with
  | Some fs' =>
      Ok {| fs := fs'; counter := counter s;
            performed := performed s ++ [(src, dst)] |}
  | None => Raise s
  end.

Definition bind (r : outcome) (k : state -> outcome) : outcome :=
  match r with
  | Ok s => k s
  | Raise s => Raise s
  end.

(** [try: ... except Exception: continue] *)
Definition swallow (r : outcome) : outcome :=
  match r with
  | Ok s => Ok s
  | Raise s => Ok s
  end.

(** A [for] loop over names read beforehand. *)
Fixpoint for_each (body : string -> state -> outcome) (items : list string)
    (s : state) : outcome :=
  match items with
  | [] => Ok s
  | item :: rest => bind (body item s) (for_each body rest)
  end.

Definition legacy_root : path := [".specify"].

(** Lines 949-953 and 994-998: move a child unless its target exists. *)
Definition move_child (from dest : path) (child : string) (s : state)
  : outcome :=
  let target := dest ++ [child] in
  if exists_ target (fs s) then Ok s
  else move (from ++ [child]) target s.

(** Lines 944-958. *)
Definition migrate_item (item : string) (s : state) : outcome :=
  let source := legacy_root ++ [item] in
  let dest := get_specify_root ++ [item] in
  if exists_ dest (fs s) then
    if is_dir source (fs s) then
      match makedirs dest (fs s) with
      | None => Raise s
      | Some fs' =>
          match iterdir source fs' with
          | None => Raise (with_fs s fs')
          | Some children =>
              bind (for_each (move_child source dest) children (with_fs s fs'))
                   (fun s' => Ok (bump s'))
          end
      end
    else Ok s
  else bind (move source dest s) (fun s' => Ok (bump s')).

(** Lines 941-962. *)
Definition migrate_legacy (s : state) : outcome :=
  if is_dir legacy_root (fs s) then
    match iterdir legacy_root (fs s) with
    | None => Raise s
    | Some items =>
        bind (for_each migrate_item items s)
             (fun s' => Ok (with_fs s' (default (fs s') (rmdir legacy_root (fs s')))))
    end
  else Ok s.

Definition non_agent_dirs : list string :=
  ["plan"; "spec"; "notes"; "scratch"; "memory"; "docs"; "logs"; "specs"].

(** Lines 976-984. *)
Definition move_top_level (name : string) (s : state) : outcome :=
  let source := [name] in
  if negb (exists_ source (fs s)) then Ok s
  else
    let destination := get_specify_root ++ [name] in
    if exists_ destination (fs s) then Ok s
    else bind (move source destination s) (fun s' => Ok (bump s')).

(** Lines 988-1006. *)
Definition consolidate_item (item : string) (s : state) : outcome :=
  if String.eqb item ".specify" then Ok s
  else
    let source := get_specs_root ++ [item] in
    let dest := get_specify_root ++ [item] in
    swallow
      (if exists_ dest (fs s) then
         if is_dir source (fs s) && is_dir dest (fs s) then
           match iterdir source (fs s) with
           | None => Raise s
           | Some children =>
               bind (for_each (move_child source dest) children s)
                    (fun s' =>
                       match rmdir source (fs s') with
                       | Some fs' => Ok (with_fs s' fs')
                       | None => Raise s'
                       end)
           end
         else Ok s
       else bind (move source dest s) (fun s' => Ok (bump s'))).

(** Lines 986-1006. *)
Definition consolidate_nested (s : state) : outcome :=
  match iterdir get_specs_root (fs s) with
  | None => Raise s
  | Some items => for_each consolidate_item items s
  end.

(** What a run leaves: the tree, the three counters the tracker reports,
    the moves carried out in each phase, and whether the run raised. *)
Record report := {
  tree : node;
  migrated : nat;
  moved : nat;
  nested_moved : nat;
  legacy_moves : list (path * path);
  top_level_moves : list (path * path);
  nested_moves : list (path * path);
  raised : bool;
}.

Definition fresh (t : node) : state :=
  {| fs := t; counter := 0; performed := [] |}.

(** [relocate_non_agent_directories(project_path)], the three phases in
    order; an exception of the first or the second ends the run. *)
Definition relocate_non_agent_directories (project : node) : report :=
  match migrate_legacy (fresh project) with
  | Raise s1 =>
      {| tree := fs s1; migrated := counter s1; moved := 0; nested_moved := 0;
         legacy_moves := performed s1; top_level_moves := [];
         nested_moves := []; raised := true |}
  | Ok s1 =>
      match for_each move_top_level non_agent_dirs (fresh (fs s1)) with
      | Raise s2 =>
          {| tree := fs s2; migrated := counter s1; moved := counter s2;
             nested_moved := 0;
             legacy_moves := performed s1; top_level_moves := performed s2;
             nested_moves := []; raised := true |}
      | Ok s2 =>
          let r3 := consolidate_nested (fresh (fs s2)) in
          let s3 := match r3 with Ok s | Raise s => s end in
          {| tree := fs s3; migrated := counter s1; moved := counter s2;
             nested_moved := counter s3;
             legacy_moves := performed s1; top_level_moves := performed s2;
             nested_moves := performed s3;
             raised := match r3 with Ok _ => false | Raise _ => true end |}
      end
  end.

(** *** What a run leaves behind: predicates on trees *)

(** The state an outcome carries. *)
Definition state_of (r : outcome) : state :=
  match r with
  | Ok s | Raise s => s
  end.

(** No path under the canonical root lies at or below [q]. *)
Definition outside (q : path) : Prop :=
  ∀ p, is_prefix get_specify_root p = true → is_prefix q p = false.

(** From [t] to [t']: what exists under the canonical root stays, with its
    kind; outside of it nothing appears. *)
Record grows (t t' : node) : Prop := {
  grows_in_exists : ∀ p, is_prefix get_specify_root p = true →
                         exists_ p t = true → exists_ p t' = true;
  grows_in_kind : ∀ p, is_prefix get_specify_root p = true →
                       exists_ p t = true → is_dir p t' = is_dir p t;
  grows_out_exists : ∀ p, is_prefix get_specify_root p = false →
                          exists_ p t' = true → exists_ p t = true;
  grows_out_dir : ∀ p, is_prefix get_specify_root p = false →
                       is_dir p t' = true → is_dir p t = true;
}.

(** An item of the legacy root is settled when its namesake exists under
    the canonical root and, if the item is a directory, so does the
    namesake of each of its children. *)
Definition legacy_settled (i : string) (t : node) : Prop :=
  exists_ (legacy_root ++ [i]) t = true →
  exists_ (get_specify_root ++ [i]) t = true
  ∧ (is_dir (legacy_root ++ [i]) t = true →
     ∀ c, exists_ ((legacy_root ++ [i]) ++ [c]) t = true →
          exists_ ((get_specify_root ++ [i]) ++ [c]) t = true).

(** A legacy top-level name is settled when it is gone or has its
    namesake under the canonical root. *)
Definition top_settled (name : string) (t : node) : Prop :=
  exists_ [name] t = true → exists_ (get_specify_root ++ [name]) t = true.

(** An item under the specs root is settled when it has its namesake
    under the canonical root and, if both are directories, so has each of
    its children. *)
Definition nested_settled (i : string) (t : node) : Prop :=
  i ≠ ".specify" →
  exists_ (get_specs_root ++ [i]) t = true →
  exists_ (get_specify_root ++ [i]) t = true
  ∧ (is_dir (get_specs_root ++ [i]) t = true →
     is_dir (get_specify_root ++ [i]) t = true →
     ∀ c, exists_ ((get_specs_root ++ [i]) ++ [c]) t = true →
          exists_ ((get_specify_root ++ [i]) ++ [c]) t = true).

(** Nothing is left to move. *)
Record settled (t : node) : Prop := {
  settled_legacy : ∀ i, legacy_settled i t;
  settled_top : ∀ name, name ∈ non_agent_dirs → top_settled name t;
  settled_nested : ∀ i, nested_settled i t;
}.

(** The listing of the legacy root during the first phase: the names read
    at the start, without those that have gone; and what has gone has its
    namesake under the canonical root. *)
Definition kept (keep : string → bool) (items0 : list string) (t : node) : Prop :=
  iterdir legacy_root t = Some (List.filter keep items0)
  ∧ ∀ x, x ∈ items0 → keep x = false →
         exists_ (get_specify_root ++ [x]) t = true.

(** *** The run that comes late to the canonical root

    [shutil.move] creates the missing parents of its target for a
    directory only.  A run that finds no canonical root can so swallow, in
    its third phase, the failed move of a regular file and create the root
    afterwards, with the move of a directory. *)

(** The tree the third phase starts from, when the first two phases
    return. *)
Definition third_phase_start (project : node) : option node :=
  match migrate_legacy (fresh project) with
  | Ok s1 =>
      match for_each move_top_level non_agent_dirs (fresh (fs s1)) with
      | Ok s2 => Some (fs s2)
      | Raise _ => None
      end
  | Raise _ => None
  end.

(** The listing of the specs root starts with a regular file and has a
    directory further on. *)
Definition file_leads (t : node) : bool :=
  match iterdir get_specs_root t with
  | Some (first :: rest) =>
      is_file (get_specs_root ++ [first]) t
      && existsb (fun item => is_dir (get_specs_root ++ [item]) t) rest
  | _ => false
  end.

(** The third phase starts without a canonical root, on a listing whose
    first item is a regular file and that has a directory further on. *)
Definition root_comes_late (project : node) : bool :=
  match third_phase_start project with
  | Some t => negb (exists_ get_specify_root t) && file_leads t
  | None => false
  end.

End Relocator.

(** ** Permission normalizer: [ensure_executable_scripts] *)

Module Perm.
Import FS Paths.

(** Mode bits, written in octal in the source. *)
Definition S_IFREG : Z := 32768.   (* 0o100000 *)
Definition o111 : Z := 73.
Definition o400 : Z := 256.
Definition o100 : Z := 64.
Definition o040 : Z := 32.
Definition o010 : Z := 8.
Definition o004 : Z := 4.
Definition o001 : Z := 1.
Definition o7777 : Z := 4095.

(** [st.st_mode] of a regular file. *)
Definition st_mode (perm : Z) : Z := Z.lor S_IFREG perm.

Definition truthy (z : Z) : bool := negb (z =? 0).

(** Lines 912-917. *)
Definition derive_mode (mode : Z) : Z :=
  let new_mode := mode in
  let new_mode := if truthy (Z.land mode o400) then Z.lor new_mode o100 else new_mode in
  let new_mode := if truthy (Z.land mode o040) then Z.lor new_mode o010 else new_mode in
  let new_mode := if truthy (Z.land mode o004) then Z.lor new_mode o001 else new_mode in
  if negb (truthy (Z.land new_mode o100)) then Z.lor new_mode o100 else new_mode.

(** [os.chmod(p, mode)]: the permission bits of the file at [p]. *)
Definition chmod (p : path) (mode : Z) (t : node) : node :=
  update p (fun o =>
              match o with
              | Some (File _ data) => Some (File (Z.land mode o7777) data)
              | _ => o
              end) t.

(** [root.rglob(pattern)]: the paths below [root], at any depth, whose
    last name the pattern accepts. *)
Fixpoint rglob (accepts : string -> bool) (root : node) : list path :=
  match root with
  | File _ _ => []
  | Dir es =>
      (fix walk (es : dirents) : list path :=
         match es with
         | [] => []
         | (name, child) :: rest =>
             (if accepts name then [[name]] else []) ++
             map (cons name) (rglob accepts child) ++
             walk rest
         end) es
  end.

(** [fnmatch(name, "*.sh")] *)
Definition is_sh (name : string) : bool := Str.endswith name ".sh".

Record state := {
  fs : node;
  updated : nat;
  failures : list path;
}.

Section Normalizer.
(** [os.name != "nt"], and what the tree does not tell: which paths are
    symbolic links, which files [open] can read, and where [os.chmod]
    raises. *)
Variable posix : bool.
Variable is_symlink : path -> bool.
Variable can_open : path -> bool.
Variable chmod_raises : path -> bool.

(** The body of the loop, lines 900-921, for the script at [script]. *)
Definition normalize_script (script : path) (s : state) : state :=
  if is_symlink script then s
  else
    match find script (fs s) with
    | Some (File perm data) =>
        if negb (can_open script) then s
        else if negb (String.eqb (String.substring 0 2 data) "#!") then s
        else
          let mode := st_mode perm in
          if truthy (Z.land mode o111) then s
          else
            let new_mode := derive_mode mode in
            if chmod_raises script
            then {| fs := fs s; updated := updated s;
                    failures := failures s ++ [script] |}
            else {| fs := chmod script new_mode (fs s);
                    updated := S (updated s);
                    failures := failures s |}
    | _ => s
    end.

(** [ensure_executable_scripts(project_path)], lines 890-921. *)
Definition ensure_executable_scripts (project : node) : state :=
  let start := {| fs := project; updated := 0; failures := [] |} in
  if negb posix then start
  else
    match find specify_scripts_dir project with
    | Some (Dir es) =>
        foldl (fun s script => normalize_script script s) start
              (map (app specify_scripts_dir) (rglob is_sh (Dir es)))
    | _ => start
    end.
End Normalizer.

End Perm.

(** ** Python text primitives

    Beyond names and patterns the code cleans up text typed by the user.
    For these functions a string stands for a Python [str] whose code
    points are below 256, one [ascii] each. *)

Module Text.

(** [c.isspace()]; a [str] pattern accepts the same characters for [\s]. *)
Definition isspace (c : ascii) : bool :=
  let n := nat_of_ascii c in
  ((9 <=? n) && (n <=? 13) || (28 <=? n) && (n <=? 32)
   || (n =? 133) || (n =? 160))%nat.

Fixpoint lstrip_by (drop : ascii -> bool) (s : string) : string :=
  match s with
  | String c s' => if drop c then lstrip_by drop s' else s
  | EmptyString => EmptyString
  end.

Fixpoint rstrip_by (drop : ascii -> bool) (s : string) : string :=
  match s with
  | String c s' =>
      match rstrip_by drop s' with
      | EmptyString => if drop c then EmptyString else String c EmptyString
      | r => String c r
      end
  | EmptyString => EmptyString
  end.

Definition strip_by (drop : ascii -> bool) (s : string) : string :=
  lstrip_by drop (rstrip_by drop s).

(** [s.strip()] *)
Definition strip (s : string) : string := strip_by isspace s.

(** [c in chars] *)
Fixpoint char_in (c : ascii) (chars : string) : bool :=
  match chars with
  | String d chars' => Ascii.eqb c d || char_in c chars'
  | EmptyString => false
  end.

(** [s.strip(chars)] *)
Definition strip_chars (chars s : string) : string :=
  strip_by (fun c => char_in c chars) s.

(** [c.lower()]: the capital letters of ASCII and of Latin-1. *)
Definition lower_char (c : ascii) : ascii :=
  let n := nat_of_ascii c in
  if ((65 <=? n) && (n <=? 90) || (192 <=? n) && (n <=? 214)
      || (216 <=? n) && (n <=? 222))%nat
  then ascii_of_nat (n + 32) else c.

(** [s.lower()] *)
Fixpoint lower (s : string) : string :=
  match s with
  | String c s' => String (lower_char c) (lower s')
  | EmptyString => EmptyString
  end.

(** [s[:-1]] and [s[1:-1]] *)
Fixpoint drop_last (s : string) : string :=
  match s with
  | String c EmptyString => EmptyString
  | String c s' => String c (drop_last s')
  | EmptyString => EmptyString
  end.

Definition slice_1_m1 (s : string) : string :=
  match s with
  | String _ s' => drop_last s'
  | EmptyString => EmptyString
  end.

(** [re.split(class+, s)] for a character class: the pieces between the
    maximal runs of separators, the empty ones at either end included.
    [in_run] tells that the character before was a separator. *)
Fixpoint split_runs (sep : ascii -> bool) (in_run : bool) (s : string)
  : list string :=
  match s with
  | EmptyString => [EmptyString]
  | String c s' =>
      if sep c then
        if in_run then split_runs sep true s'
        else EmptyString :: split_runs sep true s'
      else
        match split_runs sep false s' with
        | x :: xs => String c x :: xs
        | [] => [String c EmptyString]
        end
  end.

(** [s.split(sep, 1)] for a separator of one character. *)
Fixpoint split_once (sep : ascii) (s : string) : list string :=
  match s with
  | EmptyString => [EmptyString]
  | String c s' =>
      if Ascii.eqb c sep then [EmptyString; s']
      else
        match split_once sep s' with
        | x :: xs => String c x :: xs
        | [] => [String c EmptyString]
        end
  end.

(** The first and the last character, and a test on every character. *)
Definition head_char (s : string) : option ascii :=
  match s with
  | String c _ => Some c
  | EmptyString => None
  end.

Fixpoint last_char (s : string) : option ascii :=
  match s with
  | String c EmptyString => Some c
  | String _ s' => last_char s'
  | EmptyString => None
  end.

Fixpoint all_chars (p : ascii -> bool) (s : string) : bool :=
  match s with
  | String c s' => p c && all_chars p s'
  | EmptyString => true
  end.

(** Python truthiness of an optional [str]. *)
Definition truthy (v : option string) : bool :=
  match v with
  | Some s => negb (String.eqb s "")
  | None => false
  end.

(** [a or b] *)
Definition or_ (a b : option string) : option string :=
  if truthy a then a else b.

End Text.

(** ** GitHub credentials: [_github_token], [_github_auth_headers] *)

Module Auth.
Import Text.

Section Env.
(** [os.getenv] *)
Variable getenv : string -> option string.

(** Lines 58-60. *)
Definition _github_token (cli_token : option string) : option string :=
  let chosen :=
    or_ (or_ (or_ cli_token (getenv "GH_TOKEN")) (getenv "GITHUB_TOKEN"))
        (Some "") in
  or_ (Some (strip (default "" chosen))) None.

(** Lines 62-65; the dict as the list of its items. *)
Definition _github_auth_headers (cli_token : option string)
  : list (string * string) :=
  let token := _github_token cli_token in
  if truthy token then [("Authorization", "Bearer " +:+ default "" token)]
  else [].
End Env.

End Auth.

(** ** Command line values: the [--ai] option, labels, the template repo *)

Module Cli.
Import Text.

(** Insertion order of the dict. *)
Definition AI_CHOICES : list (string * string) :=
  [ ("copilot", "GitHub Copilot"); ("claude", "Claude Code");
    ("gemini", "Gemini CLI"); ("cursor", "Cursor"); ("qwen", "Qwen Code");
    ("opencode", "opencode"); ("codex", "Codex CLI");
    ("windsurf", "Windsurf"); ("kilocode", "Kilo Code");
    ("auggie", "Auggie CLI"); ("roo", "Roo Code") ].

(** [list(d.keys())] and [x in l] *)
Definition keys (d : list (string * string)) : list string := map fst d.

Definition member (x : string) (l : list string) : bool :=
  existsb (String.eqb x) l.

(** The class [[\s,]] of the pattern in [_tokenize_ai_value]. *)
Definition is_separator (c : ascii) : bool :=
  isspace c || Ascii.eqb c ","%char.

(** The characters of the argument of the second [strip]: the two square
    brackets and the two quotes. *)
Definition wrappers : string :=
  String "["%char
    (String "]"%char
       (String (ascii_of_nat 34)
          (String "'"%char (String (ascii_of_nat 34) EmptyString)))).

(** [_tokenize_ai_value(raw)], lines 315-325. *)
Definition _tokenize_ai_value (raw : option string) : list string :=
  match raw with
  | None => []
  | Some raw =>
      let token := strip raw in
      if String.eqb token "" then []
      else
        let token :=
          if Str.startswith token "[" && Str.endswith token "]"
          then slice_1_m1 token else token in
        let parts :=
          map (fun segment => strip_chars wrappers (strip segment))
              (List.filter (fun segment => negb (String.eqb (strip segment) ""))
                           (split_runs is_separator false token)) in
        map lower (List.filter (fun part => negb (String.eqb part "")) parts)
  end.

(** What a token looks like: not empty, free of separators, no bracket or
    quote at either end, in lower case. *)
Definition clean (t : string) : Prop :=
  t ≠ ""
  ∧ all_chars (fun c => negb (is_separator c)) t = true
  ∧ (∀ c, head_char t = Some c → char_in c wrappers = false)
  ∧ (∀ c, last_char t = Some c → char_in c wrappers = false)
  ∧ lower t = t.

(** The tokens of a sequence of values, in order. *)
Definition tokens_of (raws : list string) : list string :=
  concat (map (fun raw => _tokenize_ai_value (Some raw)) raws).

(** One turn of the inner loop of [parse_ai_option_values]: the list
    [ordered] and the set [seen]. *)
Definition note_token (acc : list string * gset string) (token : string)
  : list string * gset string :=
  let '(ordered, seen) := acc in
  if bool_decide (token ∉ seen) then (ordered ++ [token], {[ token ]} ∪ seen)
  else acc.

(** [parse_ai_option_values(raw_values)], lines 328-339. *)
Definition parse_ai_option_values (raw_values : option (list string))
  : list string :=
  match raw_values with
  | None | Some [] => []
  | Some raws =>
      (foldl (fun acc raw => foldl note_token acc (_tokenize_ai_value (Some raw)))
             ([], ∅) raws).1
  end.

(** [human_join(items)], lines 342-349. *)
Definition human_join (items : list string) : string :=
  let filtered := List.filter (fun item => negb (String.eqb item "")) items in
  match filtered with
  | [] => ""
  | [x] => x
  | _ => Str.join ", " (removelast filtered) +:+ ", and " +:+ List.last filtered ""
  end.

(** Lines 1171-1179 of [init]: every key is checked against [AI_CHOICES]
    and kept once; [None] stands for [typer.Exit(1)]. *)
Fixpoint check_ais (selected_ais normalized_ais : list string)
  : option (list string) :=
  match selected_ais with
  | [] => Some normalized_ais
  | ai_key :: rest =>
      if negb (member ai_key (keys AI_CHOICES)) then None
      else if negb (member ai_key normalized_ais)
           then check_ais rest (normalized_ais ++ [ai_key])
           else check_ais rest normalized_ais
  end.

(** Line 1181: [selected_ais = normalized_ais or ["copilot"]]. *)
Definition normalize_ais (selected_ais : list string) : option (list string) :=
  match check_ais selected_ais [] with
  | Some [] => Some ["copilot"]
  | r => r
  end.

(** Lines 1255-1260 of [init]: the template repository, from the option,
    the environment variable or the default; [None] stands for
    [typer.Exit(1)]. *)
Definition split_repo (template_repo env_template_repo : option string)
  : option (string * string) :=
  let repo_spec :=
    default "" (or_ (or_ template_repo env_template_repo)
                    (Some "Jrakru/spec-kit")) in
  match split_once "/"%char repo_spec with
  | [repo_owner; repo_name] => Some (repo_owner, repo_name)
  | _ => None
  end.

End Cli.

(** ** Progress steps: [StepTracker] *)

Module Tracker.

(** One dict of [self.steps]. *)
Record step := {
  key : string;
  label : string;
  status : string;
  detail : string;
}.

(** The tracker: whether a refresh callback is attached, and how many
    times it has been called. *)
Record StepTracker := {
  title : string;
  steps : list step;
  _refresh_cb : bool;
  refreshes : nat;
}.

(** [StepTracker(title)] *)
Definition __init__ (title : string) : StepTracker :=
  {| title := title; steps := []; _refresh_cb := false; refreshes := 0 |}.

Definition attach_refresh (t : StepTracker) : StepTracker :=
  {| title := title t; steps := steps t; _refresh_cb := true;
     refreshes := refreshes t |}.

(** Lines 159-164: an exception of the callback is swallowed. *)
Definition _maybe_refresh (t : StepTracker) : StepTracker :=
  if _refresh_cb t
  then {| title := title t; steps := steps t; _refresh_cb := true;
          refreshes := S (refreshes t) |}
  else t.

Definition with_steps (t : StepTracker) (steps' : list step) : StepTracker :=
  {| title := title t; steps := steps'; _refresh_cb := _refresh_cb t;
     refreshes := refreshes t |}.

(** Lines 130-133. *)
Definition add (k l : string) (t : StepTracker) : StepTracker :=
  if existsb (String.eqb k) (map key (steps t)) then t
  else
    _maybe_refresh
      (with_steps t
         (steps t ++ [{| key := k; label := l; status := "pending"; detail := "" |}])).

(** The [for s in self.steps] loop of [_update]: the first step of the
    key gets the status, and the detail unless it is empty; [None] when no
    step has the key. *)
Fixpoint update_first (k st d : string) (l : list step) : option (list step) :=
  match l with
  | [] => None
  | s :: rest =>
      if String.eqb (key s) k
      then Some ({| key := key s; label := label s; status := st;
                    detail := if String.eqb d "" then detail s else d |} :: rest)
      else
        match update_first k st d rest with
        | Some rest' => Some (s :: rest')
        | None => None
        end
  end.

(** Lines 147-157. *)
Definition _update (k st d : string) (t : StepTracker) : StepTracker :=
  match update_first k st d (steps t) with
  | Some steps' => _maybe_refresh (with_steps t steps')
  | None =>
      _maybe_refresh
        (with_steps t
           (steps t ++ [{| key := k; label := k; status := st; detail := d |}]))
  end.

Definition start (k d : string) : StepTracker -> StepTracker := _update k "running" d.
Definition complete (k d : string) : StepTracker -> StepTracker := _update k "done" d.
Definition error (k d : string) : StepTracker -> StepTracker := _update k "error" d.
Definition skip (k d : string) : StepTracker -> StepTracker := _update k "skipped" d.

(** The calls a client can make. *)
Inductive call :=
| Attach
| Add (k l : string)
| Start (k d : string)
| Complete (k d : string)
| Error (k d : string)
| Skip (k d : string).

Definition perform (c : call) (t : StepTracker) : StepTracker :=
  match c with
  | Attach => attach_refresh t
  | Add k l => add k l t
  | Start k d => start k d t
  | Complete k d => complete k d t
  | Error k d => error k d t
  | Skip k d => skip k d t
  end.

Definition run (calls : list call) (t : StepTracker) : StepTracker :=
  foldl (fun t c => perform c t) t calls.

(** The step of a key, as a reader of [self.steps] finds it. *)
Definition step_of (k : string) (t : StepTracker) : option step :=
  List.find (fun s => String.eqb (key s) k) (steps t).

End Tracker.

(** ** Interactive choice: [get_key], [select_with_arrows] *)

Module Selector.
Import Text Cli.

Inductive pressed :=
| Key (k : string)
| KeyboardInterrupt.

(** How a selection ends: with a key, through [typer.Exit], with an
    exception nothing catches ([ZeroDivisionError], [IndexError]), or
    waiting for a key press that has not come. *)
Inductive result (A : Type) :=
| Selected (a : A)
| Exit (code : Z)
| Uncaught
| Waiting.
Arguments Selected {A} a.
Arguments Exit {A} code.
Arguments Uncaught {A}.
Arguments Waiting {A}.

(** [l[i]], with Python's negative indices. *)
Definition item (l : list string) (i : Z) : option string :=
  let n := Z.of_nat (length l) in
  if (0 <=? i) && (i <? n) then l !! Z.to_nat i
  else if (- n <=? i) && (i <? 0) then l !! Z.to_nat (n + i)
  else None.

(** [l.index(x)] for an [x] in [l]. *)
Fixpoint index (x : string) (l : list string) : Z :=
  match l with
  | [] => 0
  | y :: l' => if String.eqb x y then 0 else 1 + index x l'
  end.

Section Keys.
(** The constants of [readchar.key]. *)
Variables UP DOWN ENTER ESC CTRL_C : string.

(** [get_key()] for the key press [readchar.readkey()] returns. *)
Definition get_key (raw : string) : pressed :=
  if String.eqb raw UP then Key "up"
  else if String.eqb raw DOWN then Key "down"
  else if String.eqb raw ENTER then Key "enter"
  else if String.eqb raw ESC then Key "escape"
  else if String.eqb raw CTRL_C then KeyboardInterrupt
  else Key raw.

(** [run_selection_loop()], lines 281-303, on the key presses to come;
    the answer carries the key presses left over. *)
Fixpoint run_selection_loop (option_keys : list string) (selected_index : Z)
    (presses : list string) : result string * list string :=
  match presses with
  | [] => (Waiting, [])
  | raw :: rest =>
      match get_key raw with
      | KeyboardInterrupt => (Exit 1, rest)
      | Key k =>
          let n := Z.of_nat (length option_keys) in
          if String.eqb k "up" then
            if n =? 0 then (Uncaught, rest)
            else run_selection_loop option_keys ((selected_index - 1) mod n) rest
          else if String.eqb k "down" then
            if n =? 0 then (Uncaught, rest)
            else run_selection_loop option_keys ((selected_index + 1) mod n) rest
          else if String.eqb k "enter" then
            match item option_keys selected_index with
            | Some selected_key => (Selected selected_key, rest)
            | None => (Uncaught, rest)
            end
          else if String.eqb k "escape" then (Exit 1, rest)
          else run_selection_loop option_keys selected_index rest
      end
  end.

(** [select_with_arrows(options, prompt_text, default_key)], lines
    237-311. *)
Definition select_with_arrows (options : list (string * string))
    (default_key : option string) (presses : list string)
  : result string * list string :=
  let option_keys := keys options in
  let selected_index :=
    if truthy default_key && member (default "" default_key) option_keys
    then index (default "" default_key) option_keys
    else 0 in
  run_selection_loop option_keys selected_index presses.

(** [[key for key in AI_CHOICES if key not in selected_ais]] *)
Definition remaining_of (selected_ais : list string) : list string :=
  List.filter (fun key => negb (member key selected_ais)) (keys AI_CHOICES).

(** [{key: AI_CHOICES[key] for key in remaining}] *)
Definition choices_of (remaining : list string) : list (string * string) :=
  List.filter (fun '(key, _) => member key remaining) AI_CHOICES.

(** The [while remaining and typer.confirm(...)] loop of [init], lines
    1159-1167, on the answers to come. *)
Fixpoint add_more (selected_ais : list string) (answers : list bool)
    (presses : list string) : result (list string) :=
  let remaining := remaining_of selected_ais in
  match remaining with
  | [] => Selected selected_ais
  | first :: _ =>
      match answers with
      | [] => Waiting
      | false :: _ => Selected selected_ais
      | true :: answers' =>
          match select_with_arrows (choices_of remaining) (Some first) presses with
          | (Selected next_choice, presses') =>
              add_more (selected_ais ++ [next_choice]) answers' presses'
          | (Exit code, _) => Exit code
          | (Uncaught, _) => Uncaught
          | (Waiting, _) => Waiting
          end
      end
  end.

(** Lines 1149-1169 of [init]: the agents named by [--ai], or chosen at
    the terminal, or the default. *)
Definition choose_ais (ai_assistants : option (list string)) (isatty : bool)
    (answers : list bool) (presses : list string) : result (list string) :=
  let selected_ais := parse_ai_option_values ai_assistants in
  match selected_ais with
  | [] =>
      if isatty then
        match select_with_arrows AI_CHOICES (Some "copilot") presses with
        | (Selected selected_primary, presses') =>
            add_more [selected_primary] answers presses'
        | (Exit code, _) => Exit code
        | (Uncaught, _) => Uncaught
        | (Waiting, _) => Waiting
        end
      else Selected ["copilot"]
  | _ => Selected selected_ais
  end.
End Keys.

End Selector.

(** ** The order of the slash commands in the closing panel of [init] *)

Module Commands.
Import Cli.

Definition core_order : list string :=
  ["constitution"; "specify"; "clarify"; "plan"; "tasks"; "analyze"; "implement"].

(** [core_order.index(name)] for a name of the list. *)
Fixpoint index (x : string) (l : list string) : nat :=
  match l with
  | [] => 0
  | y :: l' => if String.eqb x y then 0 else S (index x l')
  end.

(** [l.sort(key=...)]: a stable sort, here by insertion from the right
    end; [le] compares two keys. *)
Section Sort.
Context {A K : Type}.
Variable sort_key : A -> K.
Variable le : K -> K -> bool.

Fixpoint insert_by (x : A) (l : list A) : list A :=
  match l with
  | [] => [x]
  | y :: l' =>
      if le (sort_key x) (sort_key y) then x :: l else y :: insert_by x l'
  end.

Definition sort_by (l : list A) : list A := foldr insert_by [] l.
End Sort.

(** A discovered command: its name and its description, if any. *)
Definition command : Type := string * option string.

(** Lines 1553-1557. *)
Definition order_commands (commands : list command) : list command :=
  let core := List.filter (fun c => member c.1 core_order) commands in
  let extra := List.filter (fun c => negb (member c.1 core_order)) commands in
  let core := sort_by (fun c => index c.1 core_order) Nat.leb core in
  let extra := sort_by (fun c : command => c.1) String.leb extra in
  core ++ extra.

(** Where a command stands: a core command by its place in [core_order],
    any other one after them all. *)
Definition rank (c : command) : nat :=
  if member c.1 core_order then index c.1 core_order else length core_order.

Definition before (a b : command) : Prop :=
  (rank a < rank b)%nat
  ∨ (rank a = rank b ∧ (member a.1 core_order = true ∨ String.le a.1 b.1)).

End Commands.

(** ** Shapes of trees, to state what an operation leaves alone *)

Module Shape.
Import FS.

(** Every directory lists a name once, as a directory on disk does. *)
Fixpoint distinct (n : node) : bool :=
  match n with
  | File _ _ => true
  | Dir es =>
      bool_decide (NoDup (names es))
      && (fix each (es : dirents) : bool :=
            match es with
            | [] => true
            | (_, c) :: rest => distinct c && each rest
            end) es
  end.

(** No file of [src] meets a directory of [dst] at the same path. *)
Fixpoint fits_over (src : node) (dst : option node) : bool :=
  match src with
  | File _ _ => match dst with Some (Dir _) => false | _ => true end
  | Dir ses =>
      (fix each (ses : dirents) : bool :=
         match ses with
         | [] => true
         | (name, c) :: rest =>
             fits_over c (match dst with
                          | Some (Dir des) => dir_get name des
                          | _ => None
                          end)
             && each rest
         end) ses
  end.

(** The tree without its permission bits. *)
Fixpoint content (n : node) : node :=
  match n with
  | File _ data => File 0 data
  | Dir es =>
      Dir ((fix each (es : dirents) : dirents :=
              match es with
              | [] => []
              | (name, c) :: rest => (name, content c) :: each rest
              end) es)
  end.

(** A source tree lands: wherever [copytree] copies it without an error,
    over a destination none of its files clashes with, what it leaves
    extends the source. *)
Definition lands (src : node) : Prop :=
  ∀ dst d, distinct src = true → fits_over src dst = true →
           Extractor.copytree true src dst = (d, false) →
           Extractor.extends (Some src) d.

Definition content_entries (es : dirents) : dirents :=
  map (fun e => (e.1, content e.2)) es.

(** A script the loop of [ensure_executable_scripts] has nothing to do
    for: a symbolic link, no regular file, one that cannot be read, has no
    shebang or has an execute bit already, or one [os.chmod] refuses. *)
Definition settled_script (is_symlink can_open chmod_raises : path -> bool)
    (script : path) (t : node) : Prop :=
  is_symlink script = true
  ∨ chmod_raises script = true
  ∨ match find script t with
    | Some (File perm data) =>
        can_open script = false
        ∨ String.substring 0 2 data ≠ "#!"
        ∨ Z.land perm Perm.o111 ≠ 0
    | _ => True
    end.

End Shape.

(* ===================================================================== *)
(** * Part II: facts                                                      *)
(* ===================================================================== *)

(** ** Strings: what the Python primitives decide *)

Section StrFacts.
Import Str.
#[local] Arguments String.append : simpl nomatch.

Lemma app_empty_r (s : string) : s +:+ "" = s.
Proof. induction s as [|c s IH]; simpl; [done | by rewrite IH]. Qed.

Lemma app_assoc' (a b c : string) : (a +:+ b) +:+ c = a +:+ b +:+ c.
Proof. induction a as [|x a IH]; simpl; [done | by rewrite IH]. Qed.

Lemma app_length (a b : string) :
  String.length (a +:+ b) = (String.length a + String.length b)%nat.
Proof. induction a as [|x a IH]; simpl; [done | by rewrite IH]. Qed.

Lemma prefix_spec (p s : string) :
  String.prefix p s = true ↔ ∃ post, s = p +:+ post.
Proof.
  revert s. induction p as [|c p IH]; intros s.
  - destruct s; simpl; split; eauto.
  - destruct s as [|d s]; simpl.
    + split; [done | intros [post H]; discriminate].
    + destruct (ascii_dec c d) as [->|Hne].
      * rewrite IH. split; intros [post H]; exists post; congruence.
      * split; [done | intros [post H]; congruence].
Qed.

Lemma contains_nil (pat : string) :
  contains pat "" = String.prefix pat "".
Proof. simpl. apply orb_false_r. Qed.

Lemma contains_cons (pat : string) (c : ascii) (s : string) :
  contains pat (String c s) = String.prefix pat (String c s) || contains pat s.
Proof. reflexivity. Qed.

Lemma contains_spec (pat s : string) :
  contains pat s = true ↔ ∃ pre post, s = pre +:+ pat +:+ post.
Proof.
  induction s as [|c s IH].
  - rewrite contains_nil, prefix_spec. split.
    + intros [post H]. by exists "", post.
    + intros (pre & post & H). destruct pre; [by exists post | discriminate].
  - rewrite contains_cons, orb_true_iff, IH, prefix_spec. split.
    + intros [[post H] | (pre & post & H)].
      * by exists "", post.
      * exists (String c pre), post. simpl. by rewrite H.
    + intros (pre & post & H). destruct pre as [|d pre]; simpl in H.
      * left. by exists post.
      * right. exists pre, post. congruence.
Qed.

Lemma substring_all (s : string) : String.substring 0 (String.length s) s = s.
Proof. induction s as [|c s IH]; simpl; [done | by rewrite IH]. Qed.

Lemma substring_skip (pre s : string) (m : nat) :
  String.substring (String.length pre) m (pre +:+ s) = String.substring 0 m s.
Proof. induction pre as [|c pre IH]; simpl; [done | apply IH]. Qed.

Lemma substring_split (s : string) (n : nat) :
  (n ≤ String.length s)%nat →
  s = String.substring 0 n s +:+ String.substring n (String.length s - n) s.
Proof.
  revert n. induction s as [|c s IH]; intros n Hn; simpl in *.
  - destruct n; [done | lia].
  - destruct n as [|n]; simpl.
    + by rewrite substring_all.
    + f_equal. apply IH. lia.
Qed.

Lemma endswith_spec (s suf : string) :
  endswith s suf = true ↔ ∃ pre, s = pre +:+ suf.
Proof.
  unfold endswith. rewrite andb_true_iff, Nat.leb_le, String.eqb_eq. split.
  - intros [Hle Heq].
    exists (String.substring 0 (String.length s - String.length suf) s).
    pose proof (substring_split s (String.length s - String.length suf)
                  ltac:(lia)) as Hs.
    replace (String.length s - (String.length s - String.length suf))%nat
      with (String.length suf) in Hs by lia.
    by rewrite Heq in Hs.
  - intros [pre ->]. rewrite app_length. split; [lia |].
    replace (String.length pre + String.length suf - String.length suf)%nat
      with (String.length pre) by lia.
    by rewrite substring_skip, substring_all.
Qed.

Lemma contains_app_l (pat a b : string) :
  contains pat a = true → contains pat (a +:+ b) = true.
Proof.
  rewrite !contains_spec. intros (pre & post & ->).
  exists pre, (post +:+ b). by rewrite !app_assoc'.
Qed.

Lemma contains_app_r (pat a b : string) :
  contains pat b = true → contains pat (a +:+ b) = true.
Proof.
  rewrite !contains_spec. intros (pre & post & ->).
  exists (a +:+ pre), post. by rewrite !app_assoc'.
Qed.

Lemma contains_refl (s : string) : contains s s = true.
Proof. apply contains_spec. exists "", "". simpl. by rewrite app_empty_r. Qed.

Lemma contains_join (sep : string) (items : list string) (x : string) :
  In x items → contains x (join sep items) = true.
Proof.
  induction items as [|y items IH]; [done |].
  intros [-> | Hin].
  - destruct items; simpl; [apply contains_refl |].
    apply contains_app_l, contains_refl.
  - destruct items as [|z items]; [done |].
    change (join sep (y :: z :: items)) with (y +:+ sep +:+ join sep (z :: items)).
    by apply contains_app_r, contains_app_r, IH.
Qed.

End StrFacts.

(** ** Directory entries *)

Section DirFacts.
Import FS.

Lemma dir_get_put_eq (k : string) (v : node) (es : dirents) :
  dir_get k (dir_put k v es) = Some v.
Proof.
  induction es as [|[k' v'] es IH]; simpl.
  - by rewrite String.eqb_refl.
  - destruct (String.eqb_spec k k'); simpl.
    + by rewrite String.eqb_refl.
    + by destruct (String.eqb_spec k k').
Qed.

Lemma dir_get_put_ne (k k' : string) (v : node) (es : dirents) :
  k ≠ k' → dir_get k' (dir_put k v es) = dir_get k' es.
Proof.
  intros Hne. induction es as [|[k0 v0] es IH]; simpl.
  - by destruct (String.eqb_spec k' k).
  - destruct (String.eqb_spec k k0) as [<- | Hk]; simpl.
    + by destruct (String.eqb_spec k' k).
    + by rewrite IH.
Qed.

Lemma dir_get_del_eq (k : string) (es : dirents) :
  dir_get k (dir_del k es) = None.
Proof.
  induction es as [|[k' v'] es IH]; simpl; [done |].
  destruct (String.eqb_spec k k') as [<- | Hk]; simpl; [done |].
  by destruct (String.eqb_spec k k').
Qed.

Lemma dir_get_del_ne (k k' : string) (es : dirents) :
  k ≠ k' → dir_get k' (dir_del k es) = dir_get k' es.
Proof.
  intros Hne. induction es as [|[k0 v0] es IH]; simpl; [done |].
  destruct (String.eqb_spec k k0) as [<- | Hk]; simpl.
  - by destruct (String.eqb_spec k' k).
  - by rewrite IH.
Qed.

Lemma dir_put_same (k : string) (v : node) (es : dirents) :
  dir_get k es = Some v → dir_put k v es = es.
Proof.
  induction es as [|[k' v'] es IH]; simpl; [done |].
  destruct (String.eqb_spec k k') as [<- | Hk].
  - by intros [= ->].
  - intros H. by rewrite IH.
Qed.

Lemma dir_get_put (k k' : string) (v : node) (es : dirents) :
  dir_get k' (dir_put k v es) = if String.eqb k' k then Some v else dir_get k' es.
Proof.
  destruct (String.eqb_spec k' k) as [-> | Hne].
  - apply dir_get_put_eq.
  - by apply dir_get_put_ne.
Qed.


Lemma dir_get_names (k : string) (es : dirents) :
  is_Some (dir_get k es) ↔ In k (names es).
Proof.
  induction es as [|[k' v'] es IH]; simpl.
  - split; [by intros [? ?] | done].
  - destruct (String.eqb_spec k k') as [-> | Hne].
    + split; eauto.
    + rewrite IH. split; [auto | intros [? | ?]; congruence].
Qed.

End DirFacts.

(** ** Source resolver: the release asset *)

Section AssetFacts.
Import Resolver.

Lemma filter_nil_Forall {A} (f : A → bool) (l : list A) :
  List.filter f l = [] → Forall (λ x, f x = false) l.
Proof.
  induction l as [|x l IH]; simpl; [constructor |].
  destruct (f x) eqn:Hx; [done |]. intros H. constructor; auto.
Qed.

Lemma filter_cons_split {A} (f : A → bool) (l : list A) (a : A) (r : list A) :
  List.filter f l = a :: r →
  ∃ before after,
    l = before ++ a :: after ∧ f a = true ∧ Forall (λ x, f x = false) before.
Proof.
  induction l as [|x l IH]; simpl; [done |].
  destruct (f x) eqn:Hx.
  - intros [= -> <-]. by exists [], l.
  - intros H. destruct (IH H) as (before & after & -> & Ha & Hb).
    exists (x :: before), after. repeat split; auto.
Qed.

Lemma asset_matches_fits (pattern : string) (a : asset) :
  asset_matches pattern a = true ↔ fits pattern a.
Proof.
  unfold asset_matches, fits.
  by rewrite andb_true_iff, contains_spec, endswith_spec.
Qed.

Lemma asset_misses_fits (pattern : string) (a : asset) :
  asset_matches pattern a = false → ¬ fits pattern a.
Proof. intros H Hf. apply asset_matches_fits in Hf. congruence. Qed.

Lemma panel_mentions (names : list string) (x : string) :
  In x names → Str.contains x (assets_panel names) = true.
Proof.
  intros Hin. unfold assets_panel.
  pose proof (contains_join (String (ascii_of_nat 10) "") names x Hin) as Hc.
  destruct (String.eqb_spec (Str.join (String (ascii_of_nat 10) "") names) "")
    as [Hempty | _]; [| done].
  rewrite Hempty, contains_nil in Hc.
  destruct x; [done | discriminate].
Qed.

(** The claim of C7 read to the letter asks for the substring
    [template-<agent>-<script>]; an asset that has it, and ends in [.zip],
    is turned down when the [spec-kit-] in front is missing. *)
Lemma select_asset_needs_spec_kit_prefix :
  Str.contains "template-claude-sh" "my-template-claude-sh.zip" = true
  ∧ Str.endswith "my-template-claude-sh.zip" ".zip" = true
  ∧ select_asset "claude" "sh"
      [ {| asset_name := "my-template-claude-sh.zip";
           browser_download_url := "https://example.org/a.zip";
           asset_size := 10 |} ]
    = inl {| expected_pattern := "spec-kit-template-claude-sh";
             asset_names := ["my-template-claude-sh.zip"];
             panel := "my-template-claude-sh.zip" |}.
Proof. by vm_compute. Qed.

(** C7 (as amended): the selected asset is the first one, in listing
    order, whose name contains [spec-kit-template-<agent>-<script>] and
    ends with [.zip]; when none fits, the resolver fails with the names of
    all assets, each of them readable in the panel it prints. *)
Theorem select_asset_first_fit (ai_assistant script_type : string)
    (assets : list asset) :
  let pattern := "spec-kit-template-" +:+ ai_assistant +:+ "-" +:+ script_type in
  match select_asset ai_assistant script_type assets with
  | inr a =>
      ∃ before after,
        assets = before ++ a :: after ∧ fits pattern a
        ∧ Forall (λ b, ¬ fits pattern b) before
  | inl e =>
      Forall (λ b, ¬ fits pattern b) assets
      ∧ asset_names e = map asset_name assets
      ∧ Forall (λ b, Str.contains (asset_name b) (panel e) = true) assets
  end.
Proof.
  intros pattern. unfold select_asset. fold (asset_pattern ai_assistant script_type).
  change (asset_pattern ai_assistant script_type) with pattern.
  destruct (List.filter (asset_matches pattern) assets) as [|a r] eqn:Hf.
  - simpl. split_and!; [| done |].
    + eapply Forall_impl; [by apply filter_nil_Forall |].
      intros b Hb. by apply asset_misses_fits.
    + apply Forall_forall. intros b Hb. apply panel_mentions.
      apply in_map_iff. exists b. split; [done |]. by apply list_elem_of_In.
  - destruct (filter_cons_split _ _ _ _ Hf) as (before & after & -> & Ha & Hb).
    exists before, after. split_and!; [done | by apply asset_matches_fits |].
    eapply Forall_impl; [exact Hb |]. intros b. apply asset_misses_fits.
Qed.

End AssetFacts.

(** ** Source resolver: discovery in a local template directory *)

Section VariantFacts.
Import FS Resolver.
#[local] Arguments String.append : simpl nomatch.

Lemma insert_sorted_elem (x y : string) (l : list string) :
  y ∈ Str.insert_sorted x l ↔ y = x ∨ y ∈ l.
Proof.
  induction l as [|z l IH]; simpl.
  - by rewrite list_elem_of_singleton, elem_of_nil; tauto.
  - destruct (String.leb x z).
    + by rewrite elem_of_cons.
    + rewrite !elem_of_cons, IH. tauto.
Qed.

Lemma sorted_elem (y : string) (l : list string) : y ∈ Str.sorted l ↔ y ∈ l.
Proof.
  induction l as [|x l IH]; simpl; [done |].
  by rewrite insert_sorted_elem, elem_of_cons, IH.
Qed.

Lemma insert_sorted_ascending (x : string) (l : list string) :
  StronglySorted String.le l → StronglySorted String.le (Str.insert_sorted x l).
Proof.
  induction 1 as [|z l Hl IH Hz]; simpl; [by repeat constructor |].
  destruct (String.leb x z) eqn:Hxz.
  - constructor; [by constructor |].
    apply Is_true_true in Hxz. constructor; [done |].
    eapply Forall_impl; [exact Hz |]. intros w Hw.
    by transitivity z.
  - constructor; [done |]. apply Forall_forall. intros w Hw.
    apply insert_sorted_elem in Hw as [-> | Hw].
    + destruct (total String.le x z) as [Hle | Hle]; [| done].
      apply Is_true_true in Hle. unfold String.le in *. congruence.
    + rewrite Forall_forall in Hz. by apply Hz.
Qed.

Lemma sorted_ascending (l : list string) : StronglySorted String.le (Str.sorted l).
Proof.
  induction l as [|x l IH]; simpl; [constructor | by apply insert_sorted_ascending].
Qed.

(** [find] on a reversed list answers the last element that passes. *)
Lemma find_rev_last {A} (test : A → bool) (l : list A) (c : A) :
  List.find test (rev l) = Some c →
  ∃ l1 l2, l = l1 ++ c :: l2 ∧ test c = true ∧ Forall (λ x, test x = false) l2.
Proof.
  induction l as [|x l IH] using rev_ind; [done |].
  rewrite rev_unit. simpl. destruct (test x) eqn:Hx.
  - intros [= <-]. exists l, []. by rewrite Hx.
  - intros H. destruct (IH H) as (l1 & l2 & -> & Hc & Hl2).
    exists l1, (l2 ++ [x]). split_and!; [by rewrite <- app_assoc | done |].
    apply Forall_app. split; [done | by constructor].
Qed.

Lemma find_rev_none {A} (test : A → bool) (l : list A) (x : A) :
  List.find test (rev l) = None → x ∈ l → test x = false.
Proof.
  intros Hnone Hx. eapply find_none; [exact Hnone |].
  apply in_rev. rewrite rev_involutive. by apply list_elem_of_In.
Qed.

Lemma glob_elem (pat : glob_pattern) (base_dir : dirents) (x : string) :
  x ∈ glob pat base_dir ↔ x ∈ names base_dir ∧ glob_match pat x = true.
Proof. unfold glob. rewrite !list_elem_of_In. apply filter_In. Qed.

(** The candidate a pattern yields is the greatest name, in the order
    of [sorted], among the children the pattern accepts and that pass the
    test. *)
Lemma last_candidate_spec (test : string → bool) (pat : glob_pattern)
    (base_dir : dirents) :
  match last_candidate test pat base_dir with
  | Some c =>
      c ∈ glob pat base_dir ∧ test c = true
      ∧ ∀ x, x ∈ glob pat base_dir → test x = true → String.le x c
  | None => ∀ x, x ∈ glob pat base_dir → test x = false
  end.
Proof.
  unfold last_candidate.
  destruct (List.find test (rev (Str.sorted (glob pat base_dir)))) as [c |] eqn:Hf.
  - apply find_rev_last in Hf as (l1 & l2 & Hl & Hc & Hl2).
    pose proof (sorted_ascending (glob pat base_dir)) as Hsorted.
    rewrite Hl in Hsorted. split_and!.
    + apply sorted_elem. rewrite Hl. set_solver.
    + done.
    + intros x Hx Htest. apply sorted_elem in Hx. rewrite Hl in Hx.
      apply elem_of_app in Hx as [Hx | Hx].
      * eapply StronglySorted_app_1_elem_of; [exact Hsorted | done | by left].
      * apply elem_of_cons in Hx as [-> | Hx]; [done |].
        rewrite Forall_forall in Hl2. rewrite Hl2 in Htest; done.
  - intros x Hx. eapply find_rev_none; [exact Hf |]. by apply sorted_elem.
Qed.

Lemma child_is_dir_elem (base_dir : dirents) (x : string) :
  child_is_dir base_dir x = true → x ∈ names base_dir.
Proof.
  unfold child_is_dir. intros H. apply list_elem_of_In, dir_get_names.
  destruct (dir_get x base_dir); [eauto | done].
Qed.

Lemma child_is_file_elem (base_dir : dirents) (x : string) :
  child_is_file base_dir x = true → x ∈ names base_dir.
Proof.
  unfold child_is_file. intros H. apply list_elem_of_In, dir_get_names.
  destruct (dir_get x base_dir); [eauto | done].
Qed.

Lemma substring_skip_more (pre s : string) (n m : nat) :
  String.substring (String.length pre + n) m (pre +:+ s) = String.substring n m s.
Proof. induction pre as [|c pre IH]; simpl; [done | apply IH]. Qed.

(** [pre*suf] accepts the names [pre ++ mid ++ suf]. *)
Lemma star_spec (pre suf x : string) :
  glob_match (Star pre suf) x = true ↔ ∃ mid, x = pre +:+ mid +:+ suf.
Proof.
  unfold glob_match, Str.startswith.
  rewrite !andb_true_iff, prefix_spec, Nat.leb_le. split.
  - intros [[[rest ->] Hend] Hlen]. rewrite app_length in Hlen.
    assert (Str.endswith rest suf = true) as Hrest.
    { unfold Str.endswith in *. rewrite app_length in Hend.
      apply andb_true_iff in Hend as [_ Hend].
      apply andb_true_iff. split; [apply Nat.leb_le; lia |].
      rewrite <- Hend. f_equal. symmetry.
      replace (String.length pre + String.length rest - String.length suf)%nat
        with (String.length pre + (String.length rest - String.length suf))%nat
        by lia.
      apply substring_skip_more. }
    apply endswith_spec in Hrest as [mid ->]. by exists mid.
  - intros [mid ->]. split_and!.
    + by exists (mid +:+ suf).
    + apply endswith_spec. exists (pre +:+ mid). by rewrite app_assoc'.
    + rewrite !app_length. lia.
Qed.

Lemma literal_spec (n x : string) : glob_match (Literal n) x = true ↔ x = n.
Proof. apply String.eqb_eq. Qed.

Section Kind.
(** One kind of candidate: directories or archives. *)
Variable base_dir : dirents.
Variable test : string → bool.
Hypothesis test_elem : ∀ x, test x = true → x ∈ names base_dir.

Lemma exact_candidate (n : string) :
  last_candidate test (Literal n) base_dir
  = if test n then Some n else None.
Proof.
  pose proof (last_candidate_spec test (Literal n) base_dir) as H.
  destruct (last_candidate test (Literal n) base_dir) as [c |].
  - destruct H as (Hc & Ht & _). apply glob_elem in Hc as [_ Hc].
    apply literal_spec in Hc as ->. by rewrite Ht.
  - destruct (test n) eqn:Ht; [| done].
    rewrite H in Ht; [done |]. apply glob_elem. split; [by apply test_elem |].
    by apply literal_spec.
Qed.

Lemma starred_candidate (pre suf : string) :
  let fitting x := test x = true ∧ ∃ mid, x = pre +:+ mid +:+ suf in
  match last_candidate test (Star pre suf) base_dir with
  | Some c => fitting c ∧ ∀ x, fitting x → String.le x c
  | None => ∀ x, ¬ fitting x
  end.
Proof.
  intros fitting.
  pose proof (last_candidate_spec test (Star pre suf) base_dir) as H.
  destruct (last_candidate test (Star pre suf) base_dir) as [c |].
  - destruct H as (Hc & Ht & Hmax). apply glob_elem in Hc as [_ Hc].
    apply star_spec in Hc. split; [done |].
    intros x [Hx Hmid]. apply Hmax; [| done].
    apply glob_elem. split; [by apply test_elem | by apply star_spec].
  - intros x [Hx Hmid]. rewrite H in Hx; [done |].
    apply glob_elem. split; [by apply test_elem | by apply star_spec].
Qed.
End Kind.

Lemma versioned_dir_shape (agent script_type x : string) :
  (∃ mid, x = ("sdd-" +:+ agent +:+ "-package-" +:+ script_type +:+ "-") +:+ mid +:+ "")
  ↔ ∃ v, x = ("sdd-" +:+ agent +:+ "-package-" +:+ script_type) +:+ "-" +:+ v.
Proof.
  split; intros [v ->]; exists v; rewrite ?app_assoc', ?app_empty_r; done.
Qed.

Lemma versioned_zip_shape (agent script_type x : string) :
  (∃ mid, x = ("spec-kit-template-" +:+ agent +:+ "-" +:+ script_type +:+ "-")
              +:+ mid +:+ ".zip")
  ↔ ∃ v, x = ("spec-kit-template-" +:+ agent +:+ "-" +:+ script_type)
             +:+ "-" +:+ v +:+ ".zip".
Proof.
  split; intros [v ->]; exists v; rewrite ?app_assoc'; done.
Qed.

(** The claim of C8 read to the letter fails twice.  Of two directories
    that fit, the one without a version suffix is returned although the
    other is the later one in lexicographic order; and a directory whose
    name ends in [-<agent>-package-<script>] is not found when the name
    does not start with [sdd]. *)
Lemma exact_name_beats_later_version :
  find_agent_template_variant
    [("sdd-claude-package-sh", Dir []); ("sdd-claude-package-sh-v2", Dir [])]
    "claude" "sh"
  = Some "sdd-claude-package-sh"
  ∧ String.ltb "sdd-claude-package-sh" "sdd-claude-package-sh-v2" = true
  ∧ Str.endswith "my-claude-package-sh" "-claude-package-sh" = true
  ∧ find_agent_template_variant
      [("my-claude-package-sh", Dir [])] "claude" "sh" = None.
Proof. by vm_compute. Qed.

(** C8 (as amended): discovery looks for a directory named
    [sdd-<agent>-package-<script>], then for directories named
    [sdd-<agent>-package-<script>-<version>], then for the archive
    [spec-kit-template-<agent>-<script>.zip], then for archives named
    [spec-kit-template-<agent>-<script>-<version>.zip]; the first of these
    four searches that finds something decides, a versioned search answers
    its lexicographically last match, and so a directory that fits is
    preferred over any archive. *)
Theorem template_variant_choice (base_dir : dirents) (agent script_type : string) :
  let dir_name := "sdd-" +:+ agent +:+ "-package-" +:+ script_type in
  let zip_stem := "spec-kit-template-" +:+ agent +:+ "-" +:+ script_type in
  let versioned_dir x :=
    child_is_dir base_dir x = true ∧ ∃ v, x = dir_name +:+ "-" +:+ v in
  let versioned_zip x :=
    child_is_file base_dir x = true ∧ ∃ v, x = zip_stem +:+ "-" +:+ v +:+ ".zip" in
  let no_dir :=
    child_is_dir base_dir dir_name = false ∧ ∀ x, ¬ versioned_dir x in
  match find_agent_template_variant base_dir agent script_type with
  | Some c =>
      (c = dir_name ∧ child_is_dir base_dir c = true)
      ∨ (child_is_dir base_dir dir_name = false ∧ versioned_dir c
         ∧ ∀ x, versioned_dir x → String.le x c)
      ∨ (no_dir ∧ c = zip_stem +:+ ".zip" ∧ child_is_file base_dir c = true)
      ∨ (no_dir ∧ child_is_file base_dir (zip_stem +:+ ".zip") = false
         ∧ versioned_zip c ∧ ∀ x, versioned_zip x → String.le x c)
  | None =>
      no_dir ∧ child_is_file base_dir (zip_stem +:+ ".zip") = false
      ∧ ∀ x, ¬ versioned_zip x
  end.
Proof.
  intros dir_name zip_stem versioned_dir versioned_zip no_dir.
  unfold find_agent_template_variant, dir_patterns, zip_patterns, first_pattern.
  rewrite !exact_candidate
    by (apply child_is_dir_elem || apply child_is_file_elem).
  fold dir_name.
  replace ("spec-kit-template-" +:+ agent +:+ "-" +:+ script_type +:+ ".zip")
    with (zip_stem +:+ ".zip") by (unfold zip_stem; by rewrite ?app_assoc').
  destruct (child_is_dir base_dir dir_name) eqn:Hd; [by left |].
  pose proof (starred_candidate base_dir (child_is_dir base_dir)
                (child_is_dir_elem base_dir)
                ("sdd-" +:+ agent +:+ "-package-" +:+ script_type +:+ "-") "")
    as Hdirs.
  simpl in Hdirs.
  destruct (last_candidate (child_is_dir base_dir) (Star _ "") base_dir) as [c |].
  { right; left. destruct Hdirs as [[Hc Hshape] Hmax]. split_and!; [done | |].
    - split; [done | by apply versioned_dir_shape].
    - intros x [Hx Hv]. apply Hmax. split; [done | by apply versioned_dir_shape]. }
  assert no_dir as Hno.
  { split; [done |]. intros x [Hx Hv]. apply (Hdirs x).
    split; [done | by apply versioned_dir_shape]. }
  destruct (child_is_file base_dir (zip_stem +:+ ".zip")) eqn:Hz.
  { right; right; left. done. }
  pose proof (starred_candidate base_dir (child_is_file base_dir)
                (child_is_file_elem base_dir)
                ("spec-kit-template-" +:+ agent +:+ "-" +:+ script_type +:+ "-")
                ".zip") as Hzips.
  simpl in Hzips.
  destruct (last_candidate (child_is_file base_dir) (Star _ ".zip") base_dir)
    as [c |].
  - right; right; right. destruct Hzips as [[Hc Hshape] Hmax].
    split_and!; [done | done | |].
    + split; [done | by apply versioned_zip_shape].
    + intros x [Hx Hv]. apply Hmax. split; [done | by apply versioned_zip_shape].
  - split_and!; [done | done |]. intros x [Hx Hv]. apply (Hzips x).
    split; [done | by apply versioned_zip_shape].
Qed.

End VariantFacts.

(** ** Archive extractor: the flatten rule *)

Section FlattenFacts.
Import FS Extractor.

(** C5: a payload root with exactly one entry, a directory, is replaced
    by that directory; any other payload root is used as it is; and the
    rule is applied once, so a second wrapping directory stays. *)
Theorem flatten_rule (extracted_items : dirents) :
  (∀ name inner,
      extracted_items = [(name, Dir inner)] →
      flatten extracted_items = (inner, true))
  ∧ ((∀ name inner, extracted_items ≠ [(name, Dir inner)]) →
      flatten extracted_items = (extracted_items, false))
  ∧ (∀ name name' deep,
      extracted_items = [(name, Dir [(name', Dir deep)])] →
      flatten extracted_items = ([(name', Dir deep)], true)).
Proof.
  split_and!.
  - by intros name inner ->.
  - intros Hno. destruct extracted_items as [|[name [perm data | inner]] [|e rest]];
      try done.
    by destruct (Hno name inner).
  - by intros name name' deep ->.
Qed.

Lemma flatten_rule_witness :
  flatten [("pkg", Dir [("README.md", File 420 "hello")])]
    = ([("README.md", File 420 "hello")], true)
  ∧ flatten [("a.txt", File 420 "a"); ("b", Dir [])]
    = ([("a.txt", File 420 "a"); ("b", Dir [])], false)
  ∧ flatten [("only.txt", File 420 "a")] = ([("only.txt", File 420 "a")], false)
  ∧ flatten [] = ([], false).
Proof.
  split_and!.
  - exact (proj1 (flatten_rule _) "pkg" _ eq_refl).
  - apply (proj1 (proj2 (flatten_rule _))). intros name inner H. discriminate H.
  - apply (proj1 (proj2 (flatten_rule _))). intros name inner H. discriminate H.
  - apply (proj1 (proj2 (flatten_rule _))). intros name inner H. discriminate H.
Defined.

End FlattenFacts.

(** ** The agent loop: which turns preserve the specs subtree *)

Section InitFacts.
Import FS Extractor Init.

Lemma plan_call_preserve (idx : nat) (ai_key : string) (flag : bool) :
  call_preserve (plan_call idx ai_key flag) = true
  ↔ (idx = 1%nat ∧ flag = true)
    ∨ ((1 < idx)%nat ∧ truthy (agent_root_of AGENT_ROOT_NAMES ai_key) = false).
Proof.
  unfold plan_call; simpl.
  destruct (Nat.eqb_spec idx 1) as [-> | Hne]; simpl.
  - destruct flag; simpl; split; auto; intros [[_ ?] | [? _]]; (done || lia).
  - destruct (Nat.ltb_spec 1 idx) as [Hlt | Hge]; simpl.
    + destruct (truthy _); simpl; split; auto; intros [[? _] | [_ ?]]; done.
    + split; [done | intros [[? _] | [? _]]; lia].
Qed.

Lemma plan_call_top_level (idx : nat) (ai_key : string) (flag : bool) :
  (1 < idx)%nat →
  call_top_level (plan_call idx ai_key flag) = None
  ↔ truthy (agent_root_of AGENT_ROOT_NAMES ai_key) = false.
Proof.
  intros Hlt. unfold plan_call; simpl.
  destruct (Nat.ltb_spec 1 idx); [| lia]. simpl.
  by destruct (truthy _).
Qed.

Lemma plan_call_filter (idx : nat) (ai_key : string) (flag : bool)
    (names : list string) :
  call_top_level (plan_call idx ai_key flag) = Some names →
  (1 < idx)%nat
  ∧ ∃ agent_root,
      agent_root_of AGENT_ROOT_NAMES ai_key = Some agent_root
      ∧ agent_root ≠ "" ∧ names = [agent_root].
Proof.
  unfold plan_call; cbn [call_top_level].
  destruct (Nat.ltb_spec 1 idx) as [Hlt | Hge]; cbn [andb]; [| done].
  destruct (agent_root_of AGENT_ROOT_NAMES ai_key) as [agent_root |];
    cbn [truthy default]; [| done].
  destruct (String.eqb_spec agent_root "") as [-> | Hne]; cbn [negb];
    [done |].
  intros [= <-]. split; [done |]. by exists agent_root.
Qed.

Section Loop.
Variable here : bool.
Variable extracted_for : string → option dirents.
Variable same_location_for : string → string → bool.

Lemma agent_loop_calls (selected_ais : list string) :
  ∀ (idx : nat) (flag : bool) (project : option dirents) (i : nat) (c : call),
    (agent_loop here extracted_for same_location_for idx selected_ais
       flag project).1.1 !! i = Some c →
    ∃ ai_key flag_i,
      selected_ais !! i = Some ai_key
      ∧ c = plan_call (idx + i) ai_key flag_i
      ∧ (i = 0%nat → flag_i = flag).
Proof.
  induction selected_ais as [|ai_key rest IH]; intros idx flag project i c;
    simpl; [done |].
  destruct (download_and_extract_template _ _ _ _ _ _) as [project' r].
  destruct r.
  - destruct i as [|i]; simpl; [| done].
    intros [= <-]. exists ai_key, flag. by rewrite Nat.add_0_r.
  - destruct (agent_loop _ _ _ (S idx) rest _ project') as [[calls final] r]
      eqn:Hrest.
    destruct i as [|i]; simpl.
    + intros [= <-]. exists ai_key, flag. by rewrite Nat.add_0_r.
    + intros Hc.
      specialize (IH (S idx) (flag || specs_exists project') project' i c).
      rewrite Hrest in IH. destruct (IH Hc) as (k & f & Hk & -> & _).
      exists k, f. split_and!; [done | f_equal; lia | lia].
Qed.

(** C4: in a run over the selected agents, the turn of agent [i] passes
    [preserve_existing_specs = True] exactly when it is the first turn
    and the running flag says the specs subtree exists, or it is a later
    turn of an agent without a known agent root; the flag of the first
    turn is whether the specs subtree existed before the run.  The filter
    of a turn is tied to the agent root: the first turn has none, a later
    turn has none exactly when its agent has no known agent root, and a
    filter that is there is the one-name list of the agent's root; so the
    flag of a later turn is set exactly when its filter names no agent
    root. *)
Theorem preserve_flag_rule (selected_ais : list string)
    (project : option dirents) (i : nat) (c : call) :
  (run_agents here extracted_for same_location_for selected_ais
     project).1.1 !! i = Some c →
  call_idx c = S i
  ∧ selected_ais !! i = Some (call_agent c)
  ∧ (call_preserve c = true
     ↔ (call_idx c = 1%nat ∧ call_flag c = true)
       ∨ ((1 < call_idx c)%nat
          ∧ truthy (agent_root_of AGENT_ROOT_NAMES (call_agent c)) = false))
  ∧ (i = 0%nat → call_flag c = specs_exists project)
  ∧ ((0 < i)%nat →
     (call_top_level c = None
      ↔ truthy (agent_root_of AGENT_ROOT_NAMES (call_agent c)) = false))
  ∧ (i = 0%nat → call_top_level c = None)
  ∧ (∀ names, call_top_level c = Some names →
       (0 < i)%nat
       ∧ ∃ agent_root,
           agent_root_of AGENT_ROOT_NAMES (call_agent c) = Some agent_root
           ∧ agent_root ≠ "" ∧ names = [agent_root])
  ∧ (call_preserve c = true
     ↔ (i = 0%nat ∧ call_flag c = true)
       ∨ ((0 < i)%nat ∧ call_top_level c = None)).
Proof.
  intros Hc. apply agent_loop_calls in Hc as (k & f & Hk & -> & Hf).
  assert (i = 0%nat → call_top_level (plan_call (1 + i) k f) = None) as Hfirst.
  { intros ->. reflexivity. }
  split_and!.
  - done.
  - done.
  - apply plan_call_preserve.
  - done.
  - intros Hi. apply plan_call_top_level. simpl. lia.
  - done.
  - intros names Hnames. apply plan_call_filter in Hnames as [Hlt Hroot].
    split; [lia | done].
  - rewrite plan_call_preserve. cbn [call_flag plan_call].
    destruct i as [|i].
    + split; intros [[_ ?] | [? _]]; (lia || by left).
    + rewrite plan_call_top_level by lia.
      split; intros [[? _] | [_ ?]]; (lia || (right; split; [lia | done])).
Qed.
End Loop.

Lemma preserve_flag_rule_witness :
  let project := Some [(".specs", Dir [("notes.md", File 420 "mine")])] in
  let c := {| call_idx := 1; call_agent := "claude"; call_flag := true;
              call_top_level := None; call_preserve := true |} in
  call_idx c = 1%nat ∧ call_flag c = specs_exists project.
Proof.
  intros project c.
  destruct (preserve_flag_rule true
              (λ _ : string,
                 Some [(".specs", Dir [("notes.md", File 420 "theirs")]);
                       (".claude", Dir [("cmd.md", File 420 "c")])])
              (λ _ _, false) ["claude"; "gemini"] project 0 c eq_refl)
    as (Hidx & _ & _ & Hflag & _).
  split; [exact Hidx | exact (Hflag eq_refl)].
Defined.

End InitFacts.

(** ** The file tree: induction and lookups *)

Section TreeFacts.
Import FS.

(** Induction on a tree with the hypothesis for every child. *)
Lemma node_rect' (P : node → Prop) :
  (∀ perm data, P (File perm data)) →
  (∀ es, Forall (λ e, P e.2) es → P (Dir es)) →
  ∀ n, P n.
Proof.
  intros Hfile Hdir.
  fix IH 1. intros [perm data | es].
  - apply Hfile.
  - apply Hdir. induction es as [|[k c] es IHes]; constructor.
    + apply IH.
    + apply IHes.
Qed.

Lemma find_nil (n : node) : find [] n = Some n.
Proof. reflexivity. Qed.

Lemma find_cons (k : string) (p : path) (es : dirents) :
  find (k :: p) (Dir es) = dir_get k es ≫= find p.
Proof. simpl. by destruct (dir_get k es). Qed.

Lemma find_cons_file (k : string) (p : path) (perm : Z) (data : string) :
  find (k :: p) (File perm data) = None.
Proof. reflexivity. Qed.

Lemma find_app (p q : path) (n : node) :
  find (p ++ q) n = find p n ≫= find q.
Proof.
  revert n. induction p as [|k p IH]; intros n; [done |].
  destruct n as [perm data | es]; [done |].
  rewrite <- app_comm_cons, !find_cons.
  destruct (dir_get k es) as [c |]; simpl; [apply IH | done].
Qed.

End TreeFacts.

(** ** The file tree: updates *)

Section UpdateFacts.
Import FS.

Lemma dir_del_absent (k : string) (es : dirents) :
  dir_get k es = None → dir_del k es = es.
Proof.
  induction es as [|[k' v'] es IH]; simpl; [done |].
  destruct (String.eqb_spec k k'); [done |]. intros H. by rewrite IH.
Qed.

Lemma update_file (q : path) (f : option node → option node)
    (perm : Z) (data : string) :
  update q f (File perm data) = File perm data.
Proof. by destruct q as [|k [|k' q]]. Qed.

Lemma update_cons2 (k k' : string) (q : path) (f : option node → option node)
    (es : dirents) :
  update (k :: k' :: q) f (Dir es)
  = match dir_get k es with
    | Some c => Dir (dir_put k (update (k' :: q) f c) es)
    | None => Dir es
    end.
Proof. reflexivity. Qed.

Lemma update_single (k : string) (f : option node → option node) (es : dirents) :
  update [k] f (Dir es)
  = match f (dir_get k es) with
    | Some v => Dir (dir_put k v es)
    | None => Dir (dir_del k es)
    end.
Proof. reflexivity. Qed.

(** A path that parts ways with [q] does not see an update at [q]. *)
Lemma find_update_diverge (f : option node → option node) (q : path) :
  ∀ (p : path) (t : node), diverge p q → find p (update q f t) = find p t.
Proof.
  induction q as [|k q IH]; intros p t Hd; [by destruct p |].
  destruct p as [|a p]; [done |]. simpl in Hd.
  destruct t as [perm data | es]; [by rewrite update_file |].
  destruct q as [|k' q].
  - rewrite update_single. destruct Hd as [Hne | Hd]; [| by destruct p].
    destruct (f (dir_get k es)); rewrite !find_cons.
    + by rewrite dir_get_put_ne.
    + by rewrite dir_get_del_ne.
  - rewrite update_cons2. destruct (dir_get k es) as [c |] eqn:Hc; [| done].
    rewrite !find_cons, dir_get_put.
    destruct (String.eqb_spec a k) as [-> | Hne].
    + rewrite Hc. simpl. destruct Hd as [Hne | Hd]; [done | by apply IH].
    + done.
Qed.

(** Below the place of the update one finds what [f] answered, when the
    parent of that place is a directory. *)
Lemma find_update_below (f : option node → option node) (q : path) :
  ∀ (r : path) (t : node),
    q ≠ [] → is_dir (parent q) t = true →
    find (q ++ r) (update q f t) = f (find q t) ≫= find r.
Proof.
  induction q as [|k q IH]; intros r t Hq Hpar; [done |].
  destruct t as [perm data | es].
  { unfold is_dir in Hpar. by destruct q. }
  destruct q as [|k' q].
  - rewrite update_single. simpl app. rewrite (find_cons k []).
    replace (dir_get k es ≫= find []) with (dir_get k es)
      by (by destruct (dir_get k es)).
    destruct (f (dir_get k es)) as [v |]; rewrite find_cons.
    + by rewrite dir_get_put_eq.
    + by rewrite dir_get_del_eq.
  - rewrite update_cons2.
    assert (parent (k :: k' :: q) = k :: parent (k' :: q)) as Hp by done.
    rewrite Hp in Hpar. unfold is_dir in Hpar. rewrite find_cons in Hpar.
    destruct (dir_get k es) as [c |] eqn:Hc; [| done].
    simpl in Hpar. rewrite <- !app_comm_cons, find_cons, dir_get_put_eq.
    rewrite (find_cons k (k' :: q)), Hc. simpl.
    apply (IH r c); [done |]. unfold is_dir. exact Hpar.
Qed.

(** Without a directory for parent, an update does nothing. *)
Lemma update_no_parent (f : option node → option node) (q : path) :
  ∀ t : node, q ≠ [] → is_dir (parent q) t = false → update q f t = t.
Proof.
  induction q as [|k q IH]; intros t Hq Hpar; [done |].
  destruct t as [perm data | es]; [by rewrite update_file |].
  destruct q as [|k' q]; [done |].
  rewrite update_cons2.
  assert (parent (k :: k' :: q) = k :: parent (k' :: q)) as Hp by done.
  rewrite Hp in Hpar. unfold is_dir in Hpar. rewrite find_cons in Hpar.
  destruct (dir_get k es) as [c |] eqn:Hc; [| done].
  simpl in Hpar. rewrite IH; [by rewrite dir_put_same | done |].
  unfold is_dir. exact Hpar.
Qed.

(** Above the place of the update a directory stays a directory, and
    anything else stays what it was. *)
Lemma find_update_above (f : option node → option node) (p : path) :
  ∀ (a : string) (r : path) (t : node),
    match find p t with
    | Some (Dir _) => ∃ es', find p (update (p ++ a :: r) f t) = Some (Dir es')
    | o => find p (update (p ++ a :: r) f t) = o
    end.
Proof.
  induction p as [|k p IH]; intros a r t.
  - cbn [app]. rewrite !find_nil.
    destruct t as [perm data | es]; [by rewrite update_file |].
    destruct r as [|b r].
    + rewrite update_single. destruct (f (dir_get a es)); eauto.
    + rewrite update_cons2. destruct (dir_get a es); eauto.
  - destruct t as [perm data | es]; [by rewrite <- app_comm_cons, update_file |].
    rewrite find_cons, <- app_comm_cons.
    destruct (p ++ a :: r) as [|k' q] eqn:Hq; [by destruct p |].
    rewrite update_cons2.
    destruct (dir_get k es) as [c |] eqn:Hc; cbn [mbind option_bind].
    + rewrite find_cons, dir_get_put_eq. cbn [mbind option_bind].
      rewrite <- Hq. apply IH.
    + by rewrite find_cons, Hc.
Qed.

Lemma prefix_split (q : path) :
  ∀ p : path, is_prefix q p = true → ∃ r, p = q ++ r.
Proof.
  induction q as [|k q IH]; intros p H; [by exists p |].
  destruct p as [|a p]; [done |]. simpl in H.
  apply andb_true_iff in H as [Hk H]. apply String.eqb_eq in Hk as ->.
  destruct (IH p H) as [r ->]. by exists r.
Qed.

Lemma prefix_app (q r : path) : is_prefix q (q ++ r) = true.
Proof. induction q as [|k q IH]; simpl; [done |]. by rewrite String.eqb_refl. Qed.

Lemma not_prefix_cases (q : path) :
  ∀ p : path,
    is_prefix q p = false → (∃ a r, q = p ++ a :: r) ∨ diverge p q.
Proof.
  induction q as [|k q IH]; intros p H; [done |].
  destruct p as [|a p]; [left; by exists k, q |]. simpl in H.
  destruct (String.eqb_spec k a) as [-> | Hne].
  - destruct (IH p H) as [(b & r & ->) | Hd].
    + left. by exists b, r.
    + right. simpl. by right.
  - right. simpl. left. congruence.
Qed.

Lemma find_parent_dir (q : path) :
  ∀ t : node, q ≠ [] → is_Some (find q t) → is_dir (parent q) t = true.
Proof.
  induction q as [|k q IH]; intros t Hq Hf; [done |].
  destruct t as [perm data | es]; [by destruct Hf |].
  destruct q as [|k' q]; [done |].
  assert (parent (k :: k' :: q) = k :: parent (k' :: q)) as -> by done.
  rewrite find_cons in Hf. unfold is_dir. rewrite find_cons.
  destruct (dir_get k es) as [c |]; simpl in *; [| by destruct Hf].
  by apply IH.
Qed.

Lemma drop_prefix (q r : path) : drop (length q) (q ++ r) = r.
Proof. by rewrite drop_app_length. Qed.

(** What [exists] and [is_dir] answer after [unlink] and [place]. *)
Lemma find_unlink_below (q r : path) (t : node) :
  q ≠ [] → find (q ++ r) (unlink q t) = None.
Proof.
  intros Hq. destruct (is_dir (parent q) t) eqn:Hpar.
  - unfold unlink. by rewrite find_update_below.
  - unfold unlink. rewrite update_no_parent by done.
    destruct (find (q ++ r) t) eqn:Hf; [| done].
    rewrite find_app in Hf. destruct (find q t) eqn:Hfq; [| done].
    rewrite find_parent_dir in Hpar; [done | done | by rewrite Hfq].
Qed.

Lemma exists_unlink (p q : path) (t : node) :
  q ≠ [] → exists_ p (unlink q t) = exists_ p t && negb (is_prefix q p).
Proof.
  intros Hq. destruct (is_prefix q p) eqn:Hpre.
  - apply prefix_split in Hpre as [r ->]. unfold exists_.
    rewrite find_unlink_below by done. by rewrite andb_false_r.
  - rewrite andb_true_r. unfold exists_, unlink.
    apply not_prefix_cases in Hpre as [(a & r & ->) | Hd].
    + pose proof (find_update_above (λ _, None) p a r t) as H.
      destruct (find p t) as [[perm data | es] |]; [by rewrite H | | by rewrite H].
      destruct H as [es' H]. by rewrite H.
    + by rewrite find_update_diverge.
Qed.

Lemma is_dir_unlink (p q : path) (t : node) :
  q ≠ [] → is_dir p (unlink q t) = is_dir p t && negb (is_prefix q p).
Proof.
  intros Hq. destruct (is_prefix q p) eqn:Hpre.
  - apply prefix_split in Hpre as [r ->]. unfold is_dir.
    rewrite find_unlink_below by done. by rewrite andb_false_r.
  - rewrite andb_true_r. unfold is_dir, unlink.
    apply not_prefix_cases in Hpre as [(a & r & ->) | Hd].
    + pose proof (find_update_above (λ _, None) p a r t) as H.
      destruct (find p t) as [[perm data | es] |]; [by rewrite H | | by rewrite H].
      destruct H as [es' H]. by rewrite H.
    + by rewrite find_update_diverge.
Qed.

Lemma find_place_below (q r : path) (v t : node) :
  q ≠ [] → is_dir (parent q) t = true → find (q ++ r) (place q v t) = find r v.
Proof. intros Hq Hpar. unfold place. by rewrite find_update_below. Qed.

Lemma exists_place (p q : path) (v t : node) :
  q ≠ [] → is_dir (parent q) t = true →
  exists_ p (place q v t)
  = if is_prefix q p then exists_ (drop (length q) p) v else exists_ p t.
Proof.
  intros Hq Hpar. destruct (is_prefix q p) eqn:Hpre.
  - apply prefix_split in Hpre as [r ->]. unfold exists_.
    by rewrite find_place_below, drop_prefix.
  - unfold exists_, place.
    apply not_prefix_cases in Hpre as [(a & r & ->) | Hd].
    + pose proof (find_update_above (λ _, Some v) p a r t) as H.
      destruct (find p t) as [[perm data | es] |]; [by rewrite H | | by rewrite H].
      destruct H as [es' H]. by rewrite H.
    + by rewrite find_update_diverge.
Qed.

Lemma is_dir_place (p q : path) (v t : node) :
  q ≠ [] → is_dir (parent q) t = true →
  is_dir p (place q v t)
  = if is_prefix q p then is_dir (drop (length q) p) v else is_dir p t.
Proof.
  intros Hq Hpar. destruct (is_prefix q p) eqn:Hpre.
  - apply prefix_split in Hpre as [r ->]. unfold is_dir.
    by rewrite find_place_below, drop_prefix.
  - unfold is_dir, place.
    apply not_prefix_cases in Hpre as [(a & r & ->) | Hd].
    + pose proof (find_update_above (λ _, Some v) p a r t) as H.
      destruct (find p t) as [[perm data | es] |]; [by rewrite H | | by rewrite H].
      destruct H as [es' H]. by rewrite H.
    + by rewrite find_update_diverge.
Qed.

(** [makedirs] on a directory that is there changes nothing. *)
Lemma makedirs_present (p : path) :
  ∀ t : node, is_dir p t = true → makedirs p t = Some t.
Proof.
  induction p as [|k p IH]; intros t H.
  - unfold is_dir in H. simpl in *. by destruct t.
  - destruct t as [perm data | es]; [done |].
    unfold is_dir in H. rewrite find_cons in H. simpl.
    destruct (dir_get k es) as [c |] eqn:Hc; [| done]. simpl in *.
    rewrite IH by done. by rewrite dir_put_same.
Qed.

Lemma makedirs_file (p : path) :
  ∀ t : node, is_file p t = true → makedirs p t = None.
Proof.
  induction p as [|k p IH]; intros t H.
  - unfold is_file in H. simpl in *. by destruct t.
  - destruct t as [perm data | es]; [done |].
    unfold is_file in H. rewrite find_cons in H. simpl.
    destruct (dir_get k es) as [c |] eqn:Hc; [| done]. simpl in *.
    by rewrite IH.
Qed.

(** The names [iterdir] lists are the children that exist. *)
Lemma iterdir_elem (p : path) (t : node) (ns : list string) (k : string) :
  iterdir p t = Some ns → (k ∈ ns ↔ exists_ (p ++ [k]) t = true).
Proof.
  unfold iterdir, exists_. rewrite find_app.
  destruct (find p t) as [[perm data | es] |]; [done | | done].
  intros [= <-]. simpl.
  rewrite list_elem_of_In, <- dir_get_names.
  destruct (dir_get k es); split; (done || eauto || by intros [? ?]).
Qed.

Lemma iterdir_is_dir (p : path) (t : node) :
  is_dir p t = true ↔ is_Some (iterdir p t).
Proof.
  unfold iterdir, is_dir.
  destruct (find p t) as [[perm data | es] |]; split;
    (done || eauto || by intros [? ?]).
Qed.

(** The listing of a directory after an update below it. *)
Lemma names_put_present (k : string) (v : node) (es : dirents) :
  is_Some (dir_get k es) → names (dir_put k v es) = names es.
Proof.
  induction es as [|[k' v'] es IH]; simpl; [by intros [? ?] |].
  destruct (String.eqb_spec k k') as [-> | Hne]; [done |].
  intros H. simpl. f_equal. by apply IH.
Qed.

Lemma names_del (k : string) (es : dirents) :
  names (dir_del k es) = List.filter (λ x, negb (String.eqb k x)) (names es).
Proof.
  induction es as [|[k' v'] es IH]; simpl; [done |].
  destruct (String.eqb_spec k k') as [-> | Hne]; simpl; [done |].
  by rewrite IH.
Qed.

Lemma iterdir_update_diverge (f : option node → option node) (p q : path)
    (t : node) :
  diverge p q → iterdir p (update q f t) = iterdir p t.
Proof. intros Hd. unfold iterdir. by rewrite find_update_diverge. Qed.

Lemma iterdir_update_deep (f : option node → option node) (p : path)
    (a b : string) (r : path) :
  ∀ t : node, iterdir p (update (p ++ a :: b :: r) f t) = iterdir p t.
Proof.
  induction p as [|k p IH]; intros t.
  - cbn [app]. destruct t as [perm data | es]; [by rewrite update_file |].
    rewrite update_cons2. destruct (dir_get a es) as [c |] eqn:Hc; [| done].
    unfold iterdir. rewrite !find_nil. f_equal.
    apply names_put_present. by rewrite Hc.
  - destruct t as [perm data | es]; [by rewrite <- app_comm_cons, update_file |].
    rewrite <- app_comm_cons.
    destruct (p ++ a :: b :: r) as [|k' q] eqn:Hq; [by destruct p |].
    rewrite update_cons2. destruct (dir_get k es) as [c |] eqn:Hc; [| done].
    specialize (IH c). unfold iterdir in *.
    by rewrite !find_cons, dir_get_put_eq, Hc.
Qed.

Lemma iterdir_unlink_child (p : path) (a : string) :
  ∀ t : node,
    iterdir p (unlink (p ++ [a]) t)
    = List.filter (λ x, negb (String.eqb a x)) <$> iterdir p t.
Proof.
  unfold unlink. induction p as [|k p IH]; intros t.
  - cbn [app]. destruct t as [perm data | es]; [by rewrite update_file |].
    rewrite update_single. unfold iterdir. rewrite !find_nil. simpl.
    by rewrite names_del.
  - destruct t as [perm data | es]; [by rewrite <- app_comm_cons, update_file |].
    rewrite <- app_comm_cons.
    destruct (p ++ [a]) as [|k' q] eqn:Hq; [by destruct p |].
    rewrite update_cons2. destruct (dir_get k es) as [c |] eqn:Hc.
    + specialize (IH c). unfold iterdir in *.
      by rewrite !find_cons, dir_get_put_eq, Hc.
    + unfold iterdir. by rewrite find_cons, Hc.
Qed.

End UpdateFacts.

(** ** Merge engine *)

Section MergeFacts.
Import FS Extractor.

Lemma extends_refl (a : option node) : extends a a.
Proof. intros p. destruct (a ≫= find p) as [[perm data | es] |]; eauto. Qed.

Lemma extends_trans (a b c : option node) :
  extends a b → extends b c → extends a c.
Proof.
  intros Hab Hbc p. specialize (Hab p). specialize (Hbc p).
  destruct (a ≫= find p) as [[perm data | es] |]; [| | done].
  - by rewrite Hab in Hbc.
  - destruct Hab as [es' Hb]. by rewrite Hb in Hbc.
Qed.

Lemma extends_None (b : option node) : extends None b.
Proof. by intros p. Qed.

(** Replacing the entry [name] of a directory by an extension of it
    extends the directory. *)
Lemma extends_put (name : string) (c' : node) (acc : dirents) :
  extends (dir_get name acc) (Some c') →
  extends (Some (Dir acc)) (Some (Dir (dir_put name c' acc))).
Proof.
  intros Hc [|k p]; [simpl; eauto |].
  cbn [mbind option_bind]. rewrite !find_cons, dir_get_put.
  destruct (String.eqb_spec k name) as [-> | Hne].
  - apply (Hc p).
  - destruct (dir_get k acc ≫= find p) as [[perm data | es] |]; eauto.
Qed.

Lemma extends_put_opt (name : string) (c' : option node) (acc : dirents) :
  extends (dir_get name acc) c' →
  extends (Some (Dir acc)) (Some (Dir (put_opt name c' acc))).
Proof.
  destruct c' as [v |]; simpl; [apply extends_put | intros _; apply extends_refl].
Qed.

Lemma extends_get_put_opt (name : string) (d : option node) (es : dirents) :
  extends (dir_get name es) d →
  extends (dir_get name es) (dir_get name (put_opt name d es)).
Proof.
  destruct d as [v |]; simpl; [by rewrite dir_get_put_eq | intros _; apply extends_refl].
Qed.

Lemma dir_get_put_opt_ne (name k : string) (d : option node) (es : dirents) :
  name ≠ k → dir_get k (put_opt name d es) = dir_get k es.
Proof. destruct d; simpl; [apply dir_get_put_ne | done]. Qed.


Lemma preserve_entries_extends
    (rec : node → option node → option node * bool) (ses : dirents) :
  Forall (λ e, ∀ dst, extends dst (rec e.2 dst).1) ses →
  ∀ acc, extends (Some (Dir acc)) (Some (Dir (preserve_entries rec ses acc).1)).
Proof.
  induction 1 as [|[name child] ses Hchild _ IH]; intros acc; simpl.
  - apply extends_refl.
  - destruct child as [perm data | ces].
    + destruct (dir_get name acc) as [t |] eqn:Ht; [apply IH |].
      eapply extends_trans; [| apply IH].
      apply extends_put. rewrite Ht. apply extends_None.
    + specialize (Hchild (dir_get name acc)). simpl in Hchild.
      destruct (rec (Dir ces) (dir_get name acc)) as [c' e]. simpl in Hchild.
      destruct e; simpl.
      * by apply extends_put_opt.
      * eapply extends_trans; [| apply IH]. by apply extends_put_opt.
Qed.

(** [_copytree_preserve] only ever extends its destination, also when it
    raises half way. *)
Lemma copytree_preserve_extends (src : node) :
  ∀ dst, extends dst (copytree_preserve src dst).1.
Proof.
  induction src as [perm data | ses IH] using node_rect'; intros dst.
  - destruct dst as [[perm' data' | des] |]; simpl;
      (apply extends_refl || apply extends_None).
  - destruct dst as [[perm' data' | des] |].
    + apply extends_refl.
    + simpl.
      pose proof (preserve_entries_extends copytree_preserve ses IH des) as H.
      by destruct (preserve_entries copytree_preserve ses des).
    + apply extends_None.
Qed.

Section Merge.
Variable filtered_top_level : option (gset string).
Variable same_location : string → bool.

Lemma merge_item_specs (name : string) (item : node) (project : dirents) :
  extends (dir_get ".specs" project)
    (dir_get ".specs"
       (merge_item filtered_top_level true same_location name item project).1).
Proof.
  unfold merge_item.
  destruct (filtered_out _ name); [apply extends_refl |].
  destruct (same_location name); [apply extends_refl |].
  destruct (String.eqb_spec name ".specs") as [-> | Hne].
  - destruct (dir_get ".specs" project) as [d |] eqn:Hd.
    + rewrite bool_decide_eq_true_2 by eauto. simpl.
      pose proof (copytree_preserve_extends item (Some d)) as H.
      destruct (copytree_preserve item (Some d)) as [d' e]. simpl in *.
      rewrite <- Hd. apply extends_get_put_opt. by rewrite Hd.
    + apply extends_None.
  - simpl. destruct item as [perm data | ces].
    + destruct (copy2 _ _ _) as [d e]. simpl.
      rewrite dir_get_put_opt_ne by done. apply extends_refl.
    + destruct (copytree _ _ _) as [d e]. simpl.
      rewrite dir_get_put_opt_ne by done. apply extends_refl.
Qed.

Lemma merge_specs (payload_root : dirents) :
  ∀ project,
    extends (dir_get ".specs" project)
      (dir_get ".specs"
         (merge_into_project filtered_top_level true same_location
            payload_root project).1).
Proof.
  induction payload_root as [|[name item] rest IH]; intros project; simpl.
  - apply extends_refl.
  - pose proof (merge_item_specs name item project) as H.
    destruct (merge_item _ _ _ name item project) as [project' e].
    destruct e; [done |].
    eapply extends_trans; [exact H | apply IH].
Qed.

(** C1: with [preserve_existing_specs = True], every file under the
    specs subtree of the destination is there after the merge, at the
    same path and with the same content, whether the merge ran to its
    end or raised; and a file found under the specs subtree afterwards
    either was there already, unchanged, or sits at a path where nothing
    existed before. *)
Theorem merge_preserves_specs (payload_root project : dirents)
    (p : path) (perm : Z) (data : string) :
  let after :=
    (merge_into_project filtered_top_level true same_location
       payload_root project).1 in
  (find (".specs" :: p) (Dir project) = Some (File perm data) →
   find (".specs" :: p) (Dir after) = Some (File perm data))
  ∧ (find (".specs" :: p) (Dir after) = Some (File perm data) →
     find (".specs" :: p) (Dir project) = Some (File perm data)
     ∨ find (".specs" :: p) (Dir project) = None).
Proof.
  intros after. rewrite !find_cons.
  pose proof (merge_specs payload_root project p) as H. fold after in H.
  destruct (dir_get ".specs" project ≫= find p) as [[perm' data' | es] |].
  - split; [by intros [= -> ->] |].
    rewrite H. intros [= -> ->]. by left.
  - destruct H as [es' H]. by rewrite H.
  - split; [done | by right].
Qed.
End Merge.

Lemma merge_preserves_specs_witness :
  let project :=
    [(".specs", Dir [("notes.md", File 420 "mine")]); ("README.md", File 420 "r")] in
  let payload :=
    [(".specs", Dir [("notes.md", File 420 "theirs"); ("plan.md", File 420 "p")]);
     ("README.md", File 420 "new")] in
  find [".specs"; "notes.md"]
    (Dir (merge_into_project None true (λ _, false) payload project).1)
  = Some (File 420 "mine").
Proof.
  intros project payload.
  exact (proj1 (merge_preserves_specs None (λ _, false) payload project
                  ["notes.md"] 420 "mine") eq_refl).
Defined.

(** *** The top-level filter *)

Section Filter.
Variable preserve_existing_specs : bool.
Variable same_location : string → bool.

Lemma merge_item_elsewhere (filtered : option (gset string))
    (name k : string) (item : node) (project : dirents) :
  name ≠ k →
  dir_get k (merge_item filtered preserve_existing_specs same_location
               name item project).1
  = dir_get k project.
Proof.
  intros Hne. unfold merge_item.
  destruct (filtered_out _ name); [done |].
  destruct (same_location name); [done |].
  destruct (_ && _ && _).
  - destruct (copytree_preserve _ _) as [d e]. by apply dir_get_put_opt_ne.
  - destruct item.
    + destruct (copy2 _ _ _) as [d e]. by apply dir_get_put_opt_ne.
    + destruct (copytree _ _ _) as [d e]. by apply dir_get_put_opt_ne.
Qed.



Lemma merge_item_skipped (allowed : gset string) (name : string)
    (item : node) (project : dirents) :
  name ∉ allowed →
  merge_item (Some allowed) preserve_existing_specs same_location
    name item project = (project, false).
Proof.
  intros Hout. unfold merge_item, filtered_out.
  by rewrite bool_decide_eq_true_2.
Qed.

Lemma merge_item_member (allowed : gset string) (name : string)
    (item : node) (project : dirents) :
  name ∈ allowed →
  merge_item (Some allowed) preserve_existing_specs same_location
    name item project
  = merge_item None preserve_existing_specs same_location name item project.
Proof.
  intros Hin. unfold merge_item, filtered_out.
  rewrite bool_decide_eq_false_2; [done | by intros H; apply H].
Qed.

(** With a filter, the merge is the merge of the member entries. *)
Lemma merge_filtered (allowed : gset string) (payload_root : dirents) :
  ∀ project,
    merge_into_project (Some allowed) preserve_existing_specs same_location
      payload_root project
    = merge_into_project None preserve_existing_specs same_location
        (List.filter (λ e, bool_decide (e.1 ∈ allowed)) payload_root) project.
Proof.
  induction payload_root as [|[name item] rest IH]; intros project; [done |].
  cbn [merge_into_project List.filter fst].
  destruct (decide (name ∈ allowed)) as [Hin | Hout].
  - rewrite bool_decide_eq_true_2 by done. cbn [merge_into_project].
    rewrite merge_item_member by done.
    destruct (merge_item None _ _ name item project) as [project' e].
    destruct e; [done | apply IH].
  - rewrite bool_decide_eq_false_2 by done.
    rewrite merge_item_skipped by done. apply IH.
Qed.

(** A top-level name outside the filter is left as it was. *)
Lemma merge_outside_filter (allowed : gset string) (k : string)
    (payload_root : dirents) :
  k ∉ allowed →
  ∀ project,
    dir_get k (merge_into_project (Some allowed) preserve_existing_specs
                 same_location payload_root project).1
    = dir_get k project.
Proof.
  intros Hk. induction payload_root as [|[name item] rest IH];
    intros project; simpl; [done |].
  destruct (decide (name ∈ allowed)) as [Hin | Hout].
  - pose proof (merge_item_elsewhere (Some allowed) name k item project) as H.
    destruct (merge_item _ _ _ name item project) as [project' e].
    simpl in H. rewrite <- H by (intros ->; done).
    destruct e; [done | apply IH].
  - rewrite merge_item_skipped by done. apply IH.
Qed.
End Filter.

(** The filter [init] builds for a later agent: its root name alone. *)
Lemma agent_roots_plain :
  Forall (λ e, e.2 ≠ "" ∧ Str.path_parts e.2 = [e.2]) Init.AGENT_ROOT_NAMES.
Proof. repeat constructor; done. Qed.

Lemma agent_root_of_In (table : list (string * string)) (ai_key root : string) :
  Init.agent_root_of table ai_key = Some root → (ai_key, root) ∈ table.
Proof.
  induction table as [|[k r] table IH]; simpl; [done |].
  destruct (String.eqb_spec ai_key k) as [-> | Hne].
  - intros [= ->]. left.
  - intros H. right. by apply IH.
Qed.

Lemma normalize_filter_single (root : string) :
  root ≠ "" → Str.path_parts root = [root] →
  ∃ allowed,
    normalize_filter (Some [root]) = Some allowed
    ∧ ∀ name, name ∈ allowed ↔ name = root.
Proof.
  intros Hne Hparts. unfold normalize_filter. simpl.
  unfold add_filter_value. rewrite Hparts.
  destruct (String.eqb_spec root "") as [? | _]; [done |].
  destruct (decide ({[root]} ∪ ∅ = (∅ : gset string))) as [Hempty | _].
  - exfalso. set_solver.
  - eexists. split; [done |]. intros name.
    rewrite elem_of_union, elem_of_singleton, elem_of_empty. tauto.
Qed.

(** C2: when an agent with a known root merges with the top-level filter
    made of that root, nothing outside the agent-root directory changes
    (the shared specs subtree included), and the merge is the merge of the
    payload entries that carry the root name: the others are skipped. *)
Theorem agent_isolation (ai_key root : string) (preserve_existing_specs : bool)
    (same_location : string → bool) (payload_root project : dirents) :
  Init.agent_root_of Init.AGENT_ROOT_NAMES ai_key = Some root →
  let merged :=
    merge_into_project (normalize_filter (Some [root]))
      preserve_existing_specs same_location payload_root project in
  (∀ name rest,
      name ≠ root →
      find (name :: rest) (Dir merged.1) = find (name :: rest) (Dir project))
  ∧ merged
    = merge_into_project None preserve_existing_specs same_location
        (List.filter (λ e, String.eqb e.1 root) payload_root) project.
Proof.
  intros Hroot merged.
  apply agent_root_of_In in Hroot.
  pose proof agent_roots_plain as Hplain.
  rewrite Forall_forall in Hplain. destruct (Hplain _ Hroot) as [Hne Hparts].
  destruct (normalize_filter_single root Hne Hparts) as (allowed & Hnorm & Hmem).
  subst merged. rewrite Hnorm. split.
  - intros name rest Hname. rewrite !find_cons.
    rewrite merge_outside_filter; [done |]. by rewrite Hmem.
  - rewrite merge_filtered. f_equal.
    induction payload_root as [|[name item] more IH]; [done |].
    simpl. rewrite IH.
    destruct (String.eqb_spec name root) as [-> | Hname].
    + rewrite bool_decide_eq_true_2; [done | by apply Hmem].
    + rewrite bool_decide_eq_false_2; [done | by rewrite Hmem].
Qed.

Lemma agent_isolation_witness :
  let project :=
    [(".specs", Dir [("notes.md", File 420 "first")]); (".claude", Dir [])] in
  let payload :=
    [(".specs", Dir [("notes.md", File 420 "second")]);
     (".gemini", Dir [("cmd.toml", File 420 "g")]);
     ("README.md", File 420 "stray")] in
  let merged :=
    merge_into_project (normalize_filter (Some [".gemini"])) false (λ _, false)
      payload project in
  find [".specs"; "notes.md"] (Dir merged.1) = Some (File 420 "first")
  ∧ find ["README.md"] (Dir merged.1) = None.
Proof.
  intros project payload merged.
  destruct (agent_isolation "gemini" ".gemini" false (λ _, false) payload project
              eq_refl) as [Hframe _].
  split.
  - exact (Hframe ".specs" ["notes.md"] ltac:(discriminate)).
  - exact (Hframe "README.md" [] ltac:(discriminate)).
Defined.

(** *** Failure of extraction or merge *)



End MergeFacts.

(** ** Permission normalizer *)

Section PermFacts.
Import FS Paths Perm.

Lemma land_pow2 (m k : Z) :
  0 ≤ k → Z.land m (2 ^ k) = if Z.testbit m k then 2 ^ k else 0.
Proof.
  intros Hk. apply Z.bits_inj'. intros n Hn.
  rewrite Z.land_spec, Z.pow2_bits_eqb by lia.
  destruct (Z.eqb_spec k n) as [-> | Hne].
  - destruct (Z.testbit m n); simpl;
      [by rewrite Z.pow2_bits_true | by rewrite Z.bits_0].
  - rewrite andb_false_r.
    destruct (Z.testbit m k);
      [rewrite Z.pow2_bits_false by lia; reflexivity | by rewrite Z.bits_0].
Qed.

Lemma truthy_bit (m k : Z) : 0 ≤ k → truthy (Z.land m (2 ^ k)) = Z.testbit m k.
Proof.
  intros Hk. rewrite land_pow2 by done. unfold truthy.
  destruct (Z.testbit m k); [| done].
  destruct (Z.eqb_spec (2 ^ k) 0); [| done].
  pose proof (Z.pow_pos_nonneg 2 k). lia.
Qed.

(** Lines 912-917, bit by bit: the old bits stay, owner-execute is set,
    group-read and other-read are copied to group-execute and
    other-execute. *)
Lemma derive_mode_bits (mode i : Z) :
  0 ≤ i →
  Z.testbit (derive_mode mode) i
  = Z.testbit mode i || (i =? 6) || ((i =? 3) && Z.testbit mode 5)
    || ((i =? 0) && Z.testbit mode 2).
Proof.
  intros Hi. unfold derive_mode.
  change o400 with (2 ^ 8). change o040 with (2 ^ 5). change o004 with (2 ^ 2).
  change o100 with (2 ^ 6). change o010 with (2 ^ 3). change o001 with (2 ^ 0).
  rewrite (truthy_bit mode 8), (truthy_bit mode 5), (truthy_bit mode 2) by lia.
  rewrite !(truthy_bit _ 6) by lia.
  destruct (Z.testbit mode 8) eqn:H8, (Z.testbit mode 5) eqn:H5,
    (Z.testbit mode 2) eqn:H2;
    match goal with
    | |- context [negb (Z.testbit ?x 6)] => destruct (Z.testbit x 6) eqn:H6
    end; cbn [negb];
    rewrite ?Z.lor_spec, ?Z.pow2_bits_eqb in * by lia;
    destruct (Z.eqb_spec i 6) as [E6 | E6]; destruct (Z.eqb_spec i 3) as [E3 | E3];
    destruct (Z.eqb_spec i 0) as [E0 | E0]; try lia; subst;
    rewrite ?(proj2 (Z.eqb_neq _ _)) in * by lia; rewrite ?Z.eqb_refl in *;
    rewrite ?H5, ?H2, ?orb_false_r, ?orb_true_r, ?andb_false_r in *; try done.
  all: try (by rewrite ?orb_false_r in H6).
Qed.

(** The permission bits [os.chmod] leaves on a file of permission [perm]
    that the normalizer updates. *)
Lemma applied_mode_bits (perm i : Z) :
  0 ≤ i →
  Z.testbit (Z.land (derive_mode (st_mode perm)) o7777) i
  = (i <? 12)
    && (Z.testbit perm i || (i =? 6) || ((i =? 3) && Z.testbit perm 5)
        || ((i =? 0) && Z.testbit perm 2)).
Proof.
  intros Hi. change o7777 with (Z.ones 12).
  rewrite Z.land_spec, Z.testbit_ones_nonneg, derive_mode_bits by lia.
  unfold st_mode. change S_IFREG with (2 ^ 15).
  rewrite !Z.lor_spec, !Z.pow2_bits_eqb by lia.
  destruct (Z.ltb_spec i 12) as [Hlt | Hge]; [| by rewrite andb_false_r].
  rewrite (proj2 (Z.eqb_neq 15 i)) by lia. simpl. by rewrite andb_true_r.
Qed.

Lemma st_mode_exec (perm : Z) : Z.land (st_mode perm) o111 = Z.land perm o111.
Proof. unfold st_mode. by rewrite Z.land_lor_distr_l. Qed.

Lemma applied_mode_exec (perm : Z) :
  Z.land (Z.land (derive_mode (st_mode perm)) o7777) o111 ≠ 0.
Proof.
  intros H.
  assert (Z.testbit (Z.land (Z.land (derive_mode (st_mode perm)) o7777) o111) 6
          = true) as Hbit.
  { rewrite Z.land_spec, applied_mode_bits by lia. simpl. by rewrite orb_true_r. }
  rewrite H in Hbit. by rewrite Z.bits_0 in Hbit.
Qed.

Lemma update_id (f : option node → option node) (q : path) :
  ∀ t : node, f (find q t) = find q t → update q f t = t.
Proof.
  induction q as [|k q IH]; intros t H; [done |].
  destruct t as [perm data | es]; [by rewrite update_file |].
  destruct q as [|k' q].
  - rewrite update_single. rewrite find_cons in H.
    destruct (dir_get k es) as [c |] eqn:Hc; cbn [mbind option_bind] in H;
      rewrite ?find_nil in H; rewrite H.
    + by rewrite dir_put_same.
    + by rewrite dir_del_absent.
  - rewrite update_cons2. rewrite find_cons in H.
    destruct (dir_get k es) as [c |] eqn:Hc; [| done].
    cbn [mbind option_bind] in H. rewrite IH by done. by rewrite dir_put_same.
Qed.

Lemma chmod_not_file (q : path) (mode : Z) (t : node) :
  is_file q t = false → chmod q mode t = t.
Proof.
  unfold is_file, chmod. intros H. apply update_id.
  by destruct (find q t) as [[perm data | es] |].
Qed.

Lemma chmod_file_at (q : path) (mode : Z) (t : node) (perm : Z) (data : string) :
  q ≠ [] → find q t = Some (File perm data) →
  find q (chmod q mode t) = Some (File (Z.land mode o7777) data).
Proof.
  intros Hq Hf. unfold chmod.
  rewrite <- (app_nil_r q) at 1. rewrite find_update_below; [by rewrite Hf | done |].
  apply find_parent_dir; [done | by rewrite Hf].
Qed.

Lemma chmod_file_elsewhere (p q : path) (mode : Z) (t : node)
    (perm : Z) (data : string) :
  p ≠ q → find p t = Some (File perm data) →
  find p (chmod q mode t) = Some (File perm data).
Proof.
  intros Hne Hf. destruct (is_prefix q p) eqn:Hpre.
  - apply prefix_split in Hpre as [r ->].
    rewrite chmod_not_file; [done |]. unfold is_file.
    rewrite find_app in Hf.
    destruct (find q t) as [[perm' data' | es] |]; [| done | done].
    destruct r; [by rewrite app_nil_r in Hne | done].
  - unfold chmod. apply not_prefix_cases in Hpre as [(a & r & ->) | Hd].
    + match goal with
      | |- find p (update _ ?f t) = _ =>
          pose proof (find_update_above f p a r t) as H
      end.
      by rewrite Hf in H.
    + by rewrite find_update_diverge.
Qed.

(** [rglob] as a list expression. *)
Lemma rglob_dir (accepts : string → bool) (es : dirents) :
  rglob accepts (Dir es)
  = flat_map (λ e, (if accepts e.1 then [[e.1]] else [])
                   ++ map (cons e.1) (rglob accepts e.2)) es.
Proof.
  simpl. induction es as [|[name child] es IH]; simpl; [done |].
  by rewrite IH, <- app_assoc.
Qed.

Lemma dir_get_elem (k : string) (es : dirents) (c : node) :
  dir_get k es = Some c → In (k, c) es.
Proof.
  induction es as [|[k' v'] es IH]; simpl; [done |].
  destruct (String.eqb_spec k k') as [-> | Hne].
  - intros [= ->]. by left.
  - intros H. right. by apply IH.
Qed.

Lemma rglob_sound (accepts : string → bool) (n : node) :
  ∀ p, In p (rglob accepts n) → ∃ k, last p = Some k ∧ accepts k = true.
Proof.
  induction n as [perm data | es IH] using node_rect'; intros p; [done |].
  rewrite rglob_dir, in_flat_map. intros ([name child] & He & Hp).
  apply in_app_or in Hp as [Hp | Hp]; simpl in Hp.
  - destruct (accepts name) eqn:Hacc; [| done].
    destruct Hp as [<- | []]. by exists name.
  - apply in_map_iff in Hp as (p' & <- & Hp').
    rewrite Forall_forall in IH.
    destruct (IH (name, child) ltac:(by apply list_elem_of_In) p' Hp')
      as (k & Hk & Hacc).
    exists k. split; [| done]. destruct p'; [done | by rewrite last_cons_cons].
Qed.

Lemma rglob_complete (accepts : string → bool) (p : path) :
  ∀ (n : node) (k : string),
    last p = Some k → accepts k = true → is_Some (find p n) →
    In p (rglob accepts n).
Proof.
  induction p as [|a p IH]; intros n k Hlast Hacc Hf; [done |].
  destruct n as [perm data | es]; [by destruct Hf |].
  rewrite find_cons in Hf.
  destruct (dir_get a es) as [c |] eqn:Hc; [| by destruct Hf].
  cbn [mbind option_bind] in Hf.
  rewrite rglob_dir, in_flat_map. exists (a, c). split; [by apply dir_get_elem |].
  apply in_or_app. destruct p as [|b p].
  - left. simpl in *. injection Hlast as ->. rewrite Hacc. by left.
  - right. apply in_map. rewrite last_cons_cons in Hlast. by eapply IH.
Qed.

Section Normalizer.
Variable is_symlink : path → bool.
Variable can_open : path → bool.
Variable chmod_raises : path → bool.

Abbreviation step := (normalize_script is_symlink can_open chmod_raises).

(** A turn of the loop for another script leaves a file as it is. *)
Lemma normalize_elsewhere (target script : path) (s : state)
    (perm : Z) (data : string) :
  target ≠ script →
  find target (fs s) = Some (File perm data) →
  find target (fs (step script s)) = Some (File perm data).
Proof.
  intros Hne Hf. unfold normalize_script.
  destruct (is_symlink script); [done |].
  destruct (find script (fs s)) as [[perm' data' | es] |]; [| done | done].
  destruct (negb (can_open script)); [done |].
  destruct (negb _); [done |].
  destruct (truthy _); [done |].
  destruct (chmod_raises script); [done |]. simpl.
  by apply chmod_file_elsewhere.
Qed.

(** A turn for a file that has an execute bit changes nothing. *)
Lemma normalize_executable (script : path) (s : state) (perm : Z) (data : string) :
  find script (fs s) = Some (File perm data) →
  Z.land perm o111 ≠ 0 →
  step script s = s.
Proof.
  intros Hf Hx. unfold normalize_script. rewrite Hf, st_mode_exec.
  destruct (is_symlink script); [done |].
  destruct (negb (can_open script)); [done |].
  destruct (negb _); [done |].
  unfold truthy. by destruct (Z.eqb_spec (Z.land perm o111) 0).
Qed.

(** A turn for a readable shebang file without execute bits applies the
    derived mode. *)
Lemma normalize_at (script : path) (s : state) (perm : Z) (data : string) :
  script ≠ [] →
  find script (fs s) = Some (File perm data) →
  is_symlink script = false → can_open script = true →
  chmod_raises script = false →
  String.substring 0 2 data = "#!" →
  Z.land perm o111 = 0 →
  find script (fs (step script s))
  = Some (File (Z.land (derive_mode (st_mode perm)) o7777) data).
Proof.
  intros Hne Hf Hsym Hopen Hchmod Hbang Hx. unfold normalize_script.
  rewrite Hf, Hsym, Hopen, Hchmod, Hbang, st_mode_exec, Hx. simpl.
  by apply chmod_file_at with perm.
Qed.

Lemma loop_elsewhere (target : path) (perm : Z) (data : string)
    (scripts : list path) :
  ∀ s : state,
    Forall (λ script, target ≠ script) scripts →
    find target (fs s) = Some (File perm data) →
    find target (fs (foldl (λ s script, step script s) s scripts))
    = Some (File perm data).
Proof.
  induction scripts as [|script scripts IH]; intros s Hall Hf; [done |].
  apply Forall_cons in Hall as [Hne Hall]. simpl.
  apply IH; [done |]. by apply normalize_elsewhere.
Qed.

Lemma loop_executable (target : path) (perm : Z) (data : string)
    (scripts : list path) :
  Z.land perm o111 ≠ 0 →
  ∀ s : state,
    find target (fs s) = Some (File perm data) →
    find target (fs (foldl (λ s script, step script s) s scripts))
    = Some (File perm data).
Proof.
  intros Hx. induction scripts as [|script scripts IH]; intros s Hf; [done |].
  simpl. apply IH. destruct (decide (target = script)) as [<- | Hne].
  - by erewrite normalize_executable.
  - by apply normalize_elsewhere.
Qed.

Lemma loop_pending (target : path) (perm : Z) (data : string)
    (scripts : list path) :
  target ≠ [] →
  is_symlink target = false → can_open target = true →
  chmod_raises target = false →
  String.substring 0 2 data = "#!" →
  Z.land perm o111 = 0 →
  ∀ s : state,
    In target scripts →
    find target (fs s) = Some (File perm data) →
    find target (fs (foldl (λ s script, step script s) s scripts))
    = Some (File (Z.land (derive_mode (st_mode perm)) o7777) data).
Proof.
  intros Hne Hsym Hopen Hchmod Hbang Hx.
  induction scripts as [|script scripts IH]; intros s Hin Hf; [done |].
  simpl. destruct (decide (target = script)) as [<- | Hother].
  - apply loop_executable; [apply applied_mode_exec |].
    by apply normalize_at.
  - destruct Hin as [-> | Hin]; [done |].
    apply IH; [done |]. by apply normalize_elsewhere.
Qed.



(** C10: a file whose name does not end in [.sh] keeps its mode and its
    bytes, wherever it lies in the project, whatever it starts with. *)
Theorem non_sh_untouched (posix : bool) (project : node) (q : path)
    (name : string) (perm : Z) (data : string) :
  last q = Some name → is_sh name = false →
  find q project = Some (File perm data) →
  find q (fs (ensure_executable_scripts posix is_symlink can_open chmod_raises
                project))
  = Some (File perm data).
Proof.
  intros Hlast Hsh Hf. unfold ensure_executable_scripts.
  destruct posix; [| done]. simpl negb. cbv iota.
  destruct (find specify_scripts_dir project) as [[perm' data' | es] |];
    [done | | done].
  apply loop_elsewhere; [| done].
  apply Forall_forall. intros script Hin <-.
  apply list_elem_of_In, in_map_iff in Hin as (p & Hq & Hp).
  apply rglob_sound in Hp as (k & Hk & Hacc).
  assert (last q = Some k) as Hlast'.
  { rewrite <- Hq. destruct p as [|a p] using rev_ind; [done |].
    rewrite app_assoc, last_snoc. by rewrite last_snoc in Hk. }
  congruence.
Qed.
End Normalizer.



Lemma non_sh_untouched_witness :
  let project :=
    Dir [(".specs",
          Dir [(".specify",
                Dir [("scripts",
                      Dir [("run", File 420 "#!/bin/sh");
                           ("setup.sh", File 420 "#!/bin/sh")])])])] in
  find [".specs"; ".specify"; "scripts"; "run"]
    (fs (ensure_executable_scripts true (λ _, false) (λ _, true) (λ _, false)
           project))
  = Some (File 420 "#!/bin/sh").
Proof.
  intros project.
  exact (non_sh_untouched (λ _, false) (λ _, true) (λ _, false) true project
           [".specs"; ".specify"; "scripts"; "run"] "run" 420 "#!/bin/sh"
           eq_refl eq_refl eq_refl).
Defined.

End PermFacts.

(** ** Legacy relocator *)

Section RelocatorFacts.
Import FS Paths Relocator.

Lemma prefix_trans (p q r : path) :
  is_prefix p q = true → is_prefix q r = true → is_prefix p r = true.
Proof.
  intros [x ->]%prefix_split [y ->]%prefix_split.
  rewrite <- app_assoc. apply prefix_app.
Qed.

Lemma prefix_refl (p : path) : is_prefix p p = true.
Proof. rewrite <- (app_nil_r p) at 2. apply prefix_app. Qed.

Lemma exists_below (q r : path) (t : node) :
  exists_ (q ++ r) t = true → exists_ q t = true.
Proof.
  unfold exists_. rewrite find_app. by destruct (find q t).
Qed.

Lemma exists_parent_dir (q : path) (k : string) (t : node) :
  exists_ (q ++ [k]) t = true → is_dir q t = true.
Proof.
  unfold exists_, is_dir. rewrite find_app.
  by destruct (find q t) as [[perm data | es] |].
Qed.

Lemma is_dir_exists (p : path) (t : node) : is_dir p t = true → exists_ p t = true.
Proof. unfold is_dir, exists_. by destruct (find p t). Qed.

(** *** Paths outside the canonical root *)

Lemma outside_first (a : string) (q : path) : a ≠ ".specs" → outside (a :: q).
Proof.
  intros Ha p [r ->]%prefix_split. simpl.
  by destruct (String.eqb_spec a ".specs").
Qed.

Lemma outside_second (i : string) (q : path) :
  i ≠ ".specify" → outside (".specs" :: i :: q).
Proof.
  intros Hi p [r ->]%prefix_split. simpl.
  by destruct (String.eqb_spec i ".specify").
Qed.

(** *** Trees that grow under the canonical root

    From [t] to [t']: what exists under the canonical root stays, with its
    kind; outside of it nothing appears. *)

Lemma grows_refl (t : node) : grows t t.
Proof. by split. Qed.

Lemma grows_trans (t1 t2 t3 : node) : grows t1 t2 → grows t2 t3 → grows t1 t3.
Proof.
  intros [a1 b1 c1 d1] [a2 b2 c2 d2]. split; intros p Hp.
  - auto.
  - intros H. rewrite b2, b1; auto.
  - auto.
  - auto.
Qed.

Lemma unlink_grows (q : path) (t : node) :
  q ≠ [] → outside q → grows t (unlink q t).
Proof.
  intros Hq Hout. split; intros p Hp.
  - intros H. by rewrite exists_unlink, H, Hout.
  - intros H. by rewrite is_dir_unlink, Hout, andb_true_r.
  - rewrite exists_unlink by done. by intros [? _]%andb_true_iff.
  - rewrite is_dir_unlink by done. by intros [? _]%andb_true_iff.
Qed.

(** The tree after [os.rename(src, dst)], for a source outside the
    canonical root and a fresh destination inside it. *)
Section Rename.
Variables (src dst : path) (n : node) (t : node).
Hypothesis src_nonempty : src ≠ [].
Hypothesis dst_nonempty : dst ≠ [].
Hypothesis src_outside : outside src.
Hypothesis parent_inside : is_prefix get_specify_root (parent dst) = true.
Hypothesis dst_inside : is_prefix get_specify_root dst = true.
Hypothesis dst_fresh : exists_ dst t = false.
Hypothesis parent_dir : is_dir (parent dst) t = true.

Lemma rename_parent_dir : is_dir (parent dst) (unlink src t) = true.
Proof. by rewrite is_dir_unlink, parent_dir, src_outside. Qed.

Lemma rename_exists (p : path) :
  exists_ p (place dst n (unlink src t))
  = if is_prefix dst p then exists_ (drop (length dst) p) n
    else exists_ p t && negb (is_prefix src p).
Proof.
  rewrite exists_place by (done || apply rename_parent_dir).
  destruct (is_prefix dst p); [done |]. by apply exists_unlink.
Qed.

Lemma rename_is_dir (p : path) :
  is_dir p (place dst n (unlink src t))
  = if is_prefix dst p then is_dir (drop (length dst) p) n
    else is_dir p t && negb (is_prefix src p).
Proof.
  rewrite is_dir_place by (done || apply rename_parent_dir).
  destruct (is_prefix dst p); [done |]. by apply is_dir_unlink.
Qed.

Lemma fresh_not_below (p : path) :
  exists_ p t = true → is_prefix dst p = false.
Proof.
  intros Hp. destruct (is_prefix dst p) eqn:Hpre; [| done].
  apply prefix_split in Hpre as [r ->]. apply exists_below in Hp. congruence.
Qed.

Lemma rename_grows : grows t (place dst n (unlink src t)).
Proof.
  split; intros p Hp.
  - intros H. by rewrite rename_exists, fresh_not_below, H, src_outside.
  - intros H. by rewrite rename_is_dir, fresh_not_below, src_outside, andb_true_r.
  - rewrite rename_exists.
    destruct (is_prefix dst p) eqn:Hpre.
    + by rewrite (prefix_trans _ _ _ dst_inside Hpre) in Hp.
    + by intros [? _]%andb_true_iff.
  - rewrite rename_is_dir.
    destruct (is_prefix dst p) eqn:Hpre.
    + by rewrite (prefix_trans _ _ _ dst_inside Hpre) in Hp.
    + by intros [? _]%andb_true_iff.
Qed.

Lemma rename_dst_exists : exists_ dst (place dst n (unlink src t)) = true.
Proof.
  rewrite rename_exists, prefix_refl.
  rewrite <- (app_nil_r dst) at 2. by rewrite drop_prefix.
Qed.

Lemma rename_src_gone (r : path) :
  exists_ (src ++ r) (place dst n (unlink src t)) = false.
Proof.
  rewrite rename_exists.
  destruct (is_prefix dst (src ++ r)) eqn:Hpre.
  - pose proof (prefix_trans _ _ _ dst_inside Hpre) as H.
    apply src_outside in H. by rewrite prefix_app in H.
  - by rewrite prefix_app, andb_false_r.
Qed.
End Rename.

(** *** [shutil.move] where the relocator calls it *)

Lemma shutil_move_rename (src dst : path) (t : node) :
  exists_ dst t = false → is_dir (parent dst) t = true →
  is_prefix src dst = false →
  shutil_move src dst t
  = match find src t with
    | Some n => Some (place dst n (unlink src t))
    | None => None
    end.
Proof.
  intros Hfresh Hpar Hpre. unfold shutil_move.
  destruct (find src t) as [n |]; [| done].
  assert (is_dir dst t = false) as Hnd.
  { unfold exists_, is_dir in *. by destruct (find dst t). }
  rewrite Hnd. simpl. rewrite Hpre, Hpar.
  unfold exists_ in Hfresh. destruct (find dst t); [done |]. by destruct n.
Qed.

Lemma move_rename (src dst : path) (s : state) :
  exists_ dst (fs s) = false → is_dir (parent dst) (fs s) = true →
  is_prefix src dst = false →
  move src dst s
  = match find src (fs s) with
    | Some n =>
        Ok {| fs := place dst n (unlink src (fs s)); counter := counter s;
              performed := performed s ++ [(src, dst)] |}
    | None => Raise s
    end.
Proof.
  intros Hfresh Hpar Hpre. unfold move.
  rewrite shutil_move_rename by done. by destruct (find src (fs s)).
Qed.

Lemma outside_not_prefix (src dst : path) :
  outside src → is_prefix get_specify_root dst = true → is_prefix src dst = false.
Proof. intros Hout Hdst. by apply Hout. Qed.

(** *** Loops *)

Lemma for_each_app (body : string → state → outcome) (xs ys : list string)
    (s : state) :
  for_each body (xs ++ ys) s = bind (for_each body xs s) (for_each body ys).
Proof.
  revert s. induction xs as [|x xs IH]; intros s; simpl.
  - done.
  - destruct (body x s) as [s' | s']; simpl; [apply IH | done].
Qed.

(** A loop whose turns only let the tree grow: what a turn establishes
    for its item is still there at the end of the loop. *)
Lemma loop_grows (Post : string → node → Prop)
    (body : string → state → outcome) (items : list string) :
  (∀ j t t', grows t t' → Post j t → Post j t') →
  (∀ i s s', i ∈ items → body i s = Ok s' →
             ∀ t0, grows t0 (fs s) → is_dir get_specify_root t0 = true →
                   grows (fs s) (fs s') ∧ Post i (fs s')) →
  ∀ s s' t0,
    grows t0 (fs s) → is_dir get_specify_root t0 = true →
    for_each body items s = Ok s' →
    grows (fs s) (fs s') ∧ ∀ i, i ∈ items → Post i (fs s').
Proof.
  intros Hmono. induction items as [|i items IH]; intros Hstep s s' t0 Hg Hc; simpl.
  - intros [= <-]. split; [apply grows_refl | by intros i ?%elem_of_nil].
  - destruct (body i s) as [s1 | s1] eqn:Hb; simpl; [| done]. intros Hrest.
    destruct (Hstep i s s1 ltac:(left) Hb t0 Hg Hc) as [Hg1 Hp1].
    destruct (IH ltac:(intros; eapply Hstep; eauto; by right) s1 s' t0
                ltac:(by eapply grows_trans) Hc Hrest) as [Hg2 Hp2].
    split; [by eapply grows_trans |].
    intros j [-> | Hj]%elem_of_cons; [by eapply Hmono | by apply Hp2].
Qed.

Lemma canon_grows (t t' : node) :
  grows t t' → is_dir get_specify_root t = true →
  is_dir get_specify_root t' = true.
Proof.
  intros Hg Hc. rewrite (grows_in_kind _ _ Hg); [done | apply prefix_refl |].
  by apply is_dir_exists.
Qed.

(** *** Moving the children of a directory (lines 949-953 and 994-998) *)

Section Children.
Variables (from dest : path).
Hypothesis from_nonempty : from ≠ [].
Hypothesis from_outside : outside from.
Hypothesis dest_inside : is_prefix get_specify_root dest = true.

Lemma child_outside (c : string) : outside (from ++ [c]).
Proof.
  intros p Hp. specialize (from_outside p Hp).
  destruct (is_prefix (from ++ [c]) p) eqn:Hpre; [| done].
  apply prefix_split in Hpre as [r ->]. by rewrite <- app_assoc, prefix_app in from_outside.
Qed.

Lemma child_target_inside (c : string) :
  is_prefix get_specify_root (dest ++ [c]) = true.
Proof. eapply prefix_trans; [exact dest_inside | apply prefix_app]. Qed.

Lemma parent_snoc (q : path) (c : string) : parent (q ++ [c]) = q.
Proof. unfold parent. apply removelast_last. Qed.

Lemma move_child_spec (c : string) (s : state) :
  is_dir dest (fs s) = true →
  move_child from dest c s
  = if exists_ (dest ++ [c]) (fs s) then Ok s
    else match find (from ++ [c]) (fs s) with
         | Some n =>
             Ok {| fs := place (dest ++ [c]) n (unlink (from ++ [c]) (fs s));
                   counter := counter s;
                   performed := performed s ++ [(from ++ [c], dest ++ [c])] |}
         | None => Raise s
         end.
Proof.
  intros Hd. unfold move_child.
  destruct (exists_ (dest ++ [c]) (fs s)) eqn:He; [done |].
  apply move_rename; [done | by rewrite parent_snoc |].
  apply outside_not_prefix; [apply child_outside | apply child_target_inside].
Qed.

Lemma outside_not_inside (q : path) :
  outside q → is_prefix get_specify_root q = false.
Proof.
  intros Hout. destruct (is_prefix get_specify_root q) eqn:Hq; [| done].
  apply Hout in Hq. by rewrite prefix_refl in Hq.
Qed.

Lemma inside_not_above (dst q : path) :
  is_prefix get_specify_root dst = true → outside q → is_prefix dst q = false.
Proof.
  intros Hdst Hout. destruct (is_prefix dst q) eqn:Hq; [| done].
  pose proof (prefix_trans _ _ _ Hdst Hq) as H.
  apply Hout in H. by rewrite prefix_refl in H.
Qed.

Ltac child_side :=
  solve [ done | by destruct from | by destruct dest | apply child_outside
        | by rewrite parent_snoc | apply child_target_inside ].

Lemma move_child_grows (c : string) (s : state) :
  is_dir dest (fs s) = true →
  let s' := state_of (move_child from dest c s) in
  grows (fs s) (fs s') ∧ counter s' = counter s
  ∧ (move_child from dest c s = Ok s' → exists_ (dest ++ [c]) (fs s') = true).
Proof.
  intros Hd. rewrite move_child_spec by done.
  destruct (exists_ (dest ++ [c]) (fs s)) eqn:He; simpl.
  { split_and!; [apply grows_refl | done | done]. }
  destruct (find (from ++ [c]) (fs s)) as [n |]; simpl.
  - split_and!; [| done |].
    + apply rename_grows; child_side.
    + intros _. apply rename_dst_exists; child_side.
  - split_and!; [apply grows_refl | done | done].
Qed.

Lemma dest_dir_grows (t t' : node) :
  grows t t' → is_dir dest t = true → is_dir dest t' = true.
Proof.
  intros Hg Hd. rewrite (grows_in_kind _ _ Hg); [done | done |].
  by apply is_dir_exists.
Qed.

(** The loop over the children lets the tree grow, whatever its outcome;
    when it ends well every child it was given has its target. *)
Lemma children_loop (children : list string) :
  ∀ s : state,
    is_dir dest (fs s) = true →
    let r := for_each (move_child from dest) children s in
    grows (fs s) (fs (state_of r)) ∧ counter (state_of r) = counter s
    ∧ (∀ s', r = Ok s' → ∀ c, c ∈ children → exists_ (dest ++ [c]) (fs s') = true).
Proof.
  induction children as [|c children IH]; intros s Hd; simpl.
  - split_and!; [apply grows_refl | done |]. by intros s' _ c ?%elem_of_nil.
  - destruct (move_child_grows c s Hd) as (Hg & Hcnt & Hex).
    destruct (move_child from dest c s) as [s1 | s1] eqn:Hm; simpl in *.
    + destruct (IH s1 (dest_dir_grows _ _ Hg Hd)) as (Hg' & Hcnt' & Hex').
      split_and!; [by eapply grows_trans | congruence |].
      intros s' Hr x [-> | Hx]%elem_of_cons; [| by eapply Hex'].
      specialize (Hex' s' Hr). specialize (Hex eq_refl).
      assert (grows (fs s1) (fs s')) as Hg1 by (by rewrite Hr in Hg').
      apply (grows_in_exists _ _ Hg1); [apply child_target_inside | done].
    + split_and!; [done | done | done].
Qed.

(** When every child has its target already, the loop does nothing. *)
Lemma children_quiet (children : list string) (s : state) :
  (∀ c, c ∈ children → exists_ (dest ++ [c]) (fs s) = true) →
  for_each (move_child from dest) children s = Ok s.
Proof.
  induction children as [|c children IH]; intros Hall; simpl; [done |].
  unfold move_child at 1. rewrite Hall by left. simpl.
  apply IH. intros x Hx. apply Hall. by right.
Qed.

(** When every child is still in the source or has its target, the loop
    ends well. *)
Lemma snoc_not_prefix (q : path) (c x : string) :
  x ≠ c → is_prefix (q ++ [c]) (q ++ [x]) = false.
Proof.
  intros Hne. induction q as [|a q IHq]; simpl.
  - by destruct (String.eqb_spec c x).
  - by rewrite String.eqb_refl.
Qed.

Lemma children_succeed (children : list string) :
  ∀ s : state,
    is_dir dest (fs s) = true →
    (∀ c, c ∈ children →
          exists_ (from ++ [c]) (fs s) = true ∨ exists_ (dest ++ [c]) (fs s) = true) →
    ∃ s', for_each (move_child from dest) children s = Ok s'.
Proof.
  induction children as [|c children IH]; intros s Hd Hall; simpl; [eauto |].
  pose proof (move_child_grows c s Hd) as (Hg & _ & Hdone).
  rewrite move_child_spec in * by done.
  destruct (exists_ (dest ++ [c]) (fs s)) eqn:He; simpl in *.
  { apply IH; [done |]. intros x Hx. apply Hall. by right. }
  destruct (Hall c ltac:(left)) as [Hsrc | Hdst]; [| congruence].
  unfold exists_ in Hsrc.
  destruct (find (from ++ [c]) (fs s)) as [n |] eqn:Hf; [| done]. simpl in *.
  apply IH; simpl.
  - by eapply dest_dir_grows.
  - intros x Hx. destruct (Hall x ltac:(by right)) as [Hfrom | Hto].
    + destruct (decide (x = c)) as [-> | Hxc]; [right; by apply Hdone |].
      left. rewrite rename_exists by child_side.
      rewrite (inside_not_above (dest ++ [c]) (from ++ [x]))
        by (apply child_target_inside || apply child_outside).
      by rewrite Hfrom, snoc_not_prefix.
    + right. apply (grows_in_exists _ _ Hg); [apply child_target_inside | done].
Qed.

End Children.

(** *** Phase one: the legacy root *)

Lemma with_fs_same (s : state) : with_fs s (fs s) = s.
Proof. by destruct s. Qed.

Lemma exists_kind (p : path) (t : node) :
  exists_ p t = true → is_dir p t = true ∨ is_file p t = true.
Proof.
  unfold exists_, is_dir, is_file.
  destruct (find p t) as [[perm data | es] |]; auto.
Qed.

Lemma legacy_outside (q : path) : outside (legacy_root ++ q).
Proof. by apply outside_first. Qed.

Ltac rename_side :=
  solve [ done | by rewrite parent_snoc | apply prefix_app
        | apply legacy_outside | by apply outside_first
        | by apply outside_second ].

Lemma legacy_settled_grows (i : string) (t t' : node) :
  grows t t' → legacy_settled i t → legacy_settled i t'.
Proof.
  intros Hg Hs Hi.
  apply (grows_out_exists _ _ Hg) in Hi; [| done].
  destruct (Hs Hi) as [Hdest Hchildren]. split.
  - apply (grows_in_exists _ _ Hg); [apply prefix_app | done].
  - intros Hd c Hc.
    apply (grows_out_dir _ _ Hg) in Hd; [| done].
    apply (grows_out_exists _ _ Hg) in Hc; [| done].
    apply (grows_in_exists _ _ Hg); [by rewrite <- app_assoc; apply prefix_app |].
    by apply Hchildren.
Qed.

Lemma migrate_item_ok (i : string) (s s' : state) :
  is_dir get_specify_root (fs s) = true →
  migrate_item i s = Ok s' →
  grows (fs s) (fs s') ∧ legacy_settled i (fs s').
Proof.
  intros Hc. unfold migrate_item.
  destruct (exists_ (get_specify_root ++ [i]) (fs s)) eqn:Hd.
  - destruct (is_dir (legacy_root ++ [i]) (fs s)) eqn:Hs.
    + destruct (exists_kind _ _ Hd) as [Hdir | Hfile];
        [| by rewrite makedirs_file].
      rewrite makedirs_present, with_fs_same by done.
      destruct (iterdir (legacy_root ++ [i]) (fs s)) as [children |] eqn:Hit;
        [| done].
      pose proof (children_loop (legacy_root ++ [i]) (get_specify_root ++ [i])
                    ltac:(done) (legacy_outside [i]) (prefix_app _ _)
                    children s Hdir) as (Hg & _ & Hdone).
      destruct (for_each _ children s) as [s1 | s1]; simpl; [| done].
      intros [= <-]. simpl in *. split; [done |]. intros _. split.
      * apply (grows_in_exists _ _ Hg); [apply prefix_app | done].
      * intros _ c Hx. apply (Hdone s1 eq_refl).
        apply (iterdir_elem _ _ _ _ Hit).
        by apply (grows_out_exists _ _ Hg) in Hx.
    + intros [= <-]. split; [apply grows_refl |]. intros _. by rewrite Hs.
  - rewrite move_rename;
      [| done | by rewrite parent_snoc
       | apply outside_not_prefix; [apply legacy_outside | apply prefix_app]].
    destruct (find (legacy_root ++ [i]) (fs s)) as [n |]; simpl; [| done].
    intros [= <-]. simpl. split.
    + apply rename_grows; rename_side.
    + intros Hstill. exfalso.
      pose proof (rename_src_gone (legacy_root ++ [i]) (get_specify_root ++ [i])
                    n (fs s) ltac:(done) ltac:(done) (legacy_outside [i])
                    ltac:(by rewrite parent_snoc) (prefix_app _ _)
                    ltac:(by rewrite parent_snoc) []) as Hgone.
      rewrite app_nil_r in Hgone. simpl in Hgone, Hstill. congruence.
Qed.

Lemma rmdir_grows (q : path) (t : node) :
  q ≠ [] → outside q → grows t (default t (rmdir q t)).
Proof.
  intros Hq Hout. unfold rmdir.
  destruct (find q t) as [[perm data | [|e es]] |]; simpl;
    (apply grows_refl || by apply unlink_grows).
Qed.

(** After the first phase, when it ends well, every item left in the
    legacy root is settled. *)
Lemma migrate_legacy_ok (s s' : state) :
  is_dir get_specify_root (fs s) = true →
  migrate_legacy s = Ok s' →
  grows (fs s) (fs s') ∧ ∀ i, legacy_settled i (fs s').
Proof.
  intros Hc. unfold migrate_legacy.
  destruct (is_dir legacy_root (fs s)) eqn:Hl.
  - destruct (iterdir legacy_root (fs s)) as [items |] eqn:Hit; [| done].
    destruct (for_each migrate_item items s) as [s1 | s1] eqn:Hloop; simpl;
      [| done].
    intros [= <-]. simpl.
    destruct (loop_grows legacy_settled migrate_item items
                legacy_settled_grows) with (s := s) (s' := s1) (t0 := fs s)
      as [Hg Hpost]; [| apply grows_refl | done | done |].
    { intros i x x' _ Hb t0 Hg0 Hc0. apply migrate_item_ok; [| done].
      by eapply canon_grows. }
    pose proof (rmdir_grows legacy_root (fs s1) ltac:(done) (legacy_outside []))
      as Hg'.
    split; [by eapply grows_trans |].
    intros i. eapply legacy_settled_grows; [exact Hg' |].
    intros Hi. apply Hpost; [| done].
    apply (iterdir_elem _ _ _ _ Hit).
    by apply (grows_out_exists _ _ Hg) in Hi.
  - intros [= <-]. split; [apply grows_refl |].
    intros i Hi. apply exists_parent_dir in Hi. congruence.
Qed.

(** *** Phase two: the legacy top-level directories *)

Lemma single_not_inside (name : string) :
  is_prefix get_specify_root [name] = false.
Proof. simpl. apply andb_false_r. Qed.

Lemma top_settled_grows (name : string) (t t' : node) :
  grows t t' → top_settled name t → top_settled name t'.
Proof.
  intros Hg Hs Hn.
  apply (grows_out_exists _ _ Hg) in Hn; [| apply single_not_inside].
  apply (grows_in_exists _ _ Hg); [apply prefix_app | by apply Hs].
Qed.

Lemma non_agent_dirs_plain (name : string) :
  name ∈ non_agent_dirs → name ≠ ".specs".
Proof.
  unfold non_agent_dirs. intros Hin.
  repeat (apply elem_of_cons in Hin as [-> | Hin]; [done |]).
  by apply elem_of_nil in Hin.
Qed.

Lemma move_top_level_ok (name : string) (s s' : state) :
  name ≠ ".specs" →
  is_dir get_specify_root (fs s) = true →
  move_top_level name s = Ok s' →
  grows (fs s) (fs s') ∧ top_settled name (fs s').
Proof.
  intros Hname Hc. unfold move_top_level.
  destruct (exists_ [name] (fs s)) eqn:Hsrc; cbn [negb].
  - destruct (exists_ (get_specify_root ++ [name]) (fs s)) eqn:Hd.
    + intros [= <-]. split; [apply grows_refl | by intros _].
    + rewrite move_rename;
        [| done | by rewrite parent_snoc
         | apply outside_not_prefix; [by apply outside_first | apply prefix_app]].
      destruct (find [name] (fs s)) as [n |]; simpl; [| done].
      intros [= <-]. simpl fs. split.
      * apply rename_grows; rename_side.
      * intros Hstill. exfalso.
        pose proof (rename_src_gone [name] (get_specify_root ++ [name])
                      n (fs s) ltac:(done) ltac:(done)
                      (outside_first name [] Hname)
                      ltac:(by rewrite parent_snoc) (prefix_app _ _)
                      ltac:(by rewrite parent_snoc) []) as Hgone.
        simpl in Hgone, Hstill. congruence.
  - intros [= <-]. split; [apply grows_refl |]. intros H. congruence.
Qed.

Lemma top_level_ok (s s' : state) :
  is_dir get_specify_root (fs s) = true →
  for_each move_top_level non_agent_dirs s = Ok s' →
  grows (fs s) (fs s') ∧ ∀ name, name ∈ non_agent_dirs → top_settled name (fs s').
Proof.
  intros Hc Hloop.
  apply (loop_grows top_settled move_top_level non_agent_dirs
           top_settled_grows) with (t0 := fs s); [| apply grows_refl | done..].
  intros name x x' Hin Hb t0 Hg0 Hc0.
  apply move_top_level_ok; [by apply non_agent_dirs_plain | | done].
  by eapply canon_grows.
Qed.

(** *** Phase three: what is left under the specs root *)

Lemma nested_outside (i : string) (q : path) :
  i ≠ ".specify" → outside ((get_specs_root ++ [i]) ++ q).
Proof. intros Hi. by apply outside_second. Qed.

Lemma nested_settled_grows (i : string) (t t' : node) :
  grows t t' → nested_settled i t → nested_settled i t'.
Proof.
  intros Hg Hs Hi Hn.
  pose proof (outside_not_inside _ (nested_outside i [] Hi)) as Hout.
  rewrite app_nil_r in Hout.
  apply (grows_out_exists _ _ Hg) in Hn; [| done].
  destruct (Hs Hi Hn) as [Hdest Hchildren]. split.
  - apply (grows_in_exists _ _ Hg); [apply prefix_app | done].
  - intros Hd Hd' c Hx.
    apply (grows_out_dir _ _ Hg) in Hd; [| done].
    rewrite (grows_in_kind _ _ Hg) in Hd'; [| apply prefix_app | done].
    apply (grows_out_exists _ _ Hg) in Hx;
      [| apply outside_not_inside, (nested_outside i [c] Hi)].
    apply (grows_in_exists _ _ Hg); [by rewrite <- app_assoc; apply prefix_app |].
    by apply Hchildren.
Qed.

Lemma consolidate_item_ok (i : string) (s : state) :
  is_dir get_specify_root (fs s) = true →
  ∃ s', consolidate_item i s = Ok s'
        ∧ grows (fs s) (fs s') ∧ nested_settled i (fs s').
Proof.
  intros Hc. unfold consolidate_item.
  destruct (String.eqb_spec i ".specify") as [-> | Hi].
  { exists s. split_and!; [done | apply grows_refl | by intros ?]. }
  pose proof (nested_outside i [] Hi) as Hout. rewrite app_nil_r in Hout.
  destruct (exists_ (get_specify_root ++ [i]) (fs s)) eqn:Hd.
  - destruct (is_dir (get_specs_root ++ [i]) (fs s)) eqn:Hsrc; cbn [andb].
    2:{ exists s. split_and!; [done | apply grows_refl |].
        intros _ _. split; [done | intros; congruence]. }
    destruct (is_dir (get_specify_root ++ [i]) (fs s)) eqn:Hdir; cbn [andb].
    2:{ exists s. split_and!; [done | apply grows_refl |].
        intros _ _. split; [done | intros; congruence]. }
    destruct (iterdir (get_specs_root ++ [i]) (fs s)) as [children |] eqn:Hit.
    2:{ apply iterdir_is_dir in Hsrc as [? Hsome]. congruence. }
    destruct (children_succeed (get_specs_root ++ [i]) (get_specify_root ++ [i])
                ltac:(done) Hout (prefix_app _ _) children s Hdir) as [s1 Hs1].
    { intros c Hx. left. by apply (iterdir_elem _ _ _ _ Hit). }
    pose proof (children_loop (get_specs_root ++ [i]) (get_specify_root ++ [i])
                  ltac:(done) Hout (prefix_app _ _) children s Hdir)
      as (Hg & _ & Hdone).
    rewrite Hs1 in *. simpl in Hg.
    pose proof (rmdir_grows (get_specs_root ++ [i]) (fs s1) ltac:(done) Hout)
      as Hg'.
    exists (with_fs s1 (default (fs s1) (rmdir (get_specs_root ++ [i]) (fs s1)))).
    split_and!.
    + cbn [bind]. destruct (rmdir (get_specs_root ++ [i]) (fs s1)); simpl; [done |].
      by rewrite with_fs_same.
    + by eapply grows_trans.
    + eapply nested_settled_grows; [exact Hg' |]. intros _ _. split.
      * apply (grows_in_exists _ _ Hg); [apply prefix_app | done].
      * intros _ _ c Hx. apply (Hdone s1 eq_refl).
        apply (iterdir_elem _ _ _ _ Hit).
        apply (grows_out_exists _ _ Hg) in Hx; [done |].
        apply outside_not_inside, (nested_outside i [c] Hi).
  - rewrite move_rename;
      [| done | by rewrite parent_snoc
       | apply outside_not_prefix; [done | apply prefix_app]].
    destruct (find (get_specs_root ++ [i]) (fs s)) as [n |] eqn:Hf; simpl.
    + eexists. split; [done |]. simpl fs. split.
      * apply rename_grows; rename_side.
      * intros _ Hstill. exfalso.
        pose proof (rename_src_gone (get_specs_root ++ [i])
                      (get_specify_root ++ [i]) n (fs s) ltac:(done) ltac:(done)
                      Hout ltac:(by rewrite parent_snoc) (prefix_app _ _)
                      ltac:(by rewrite parent_snoc) []) as Hgone.
        simpl in Hgone, Hstill. congruence.
    + exists s. split_and!; [done | apply grows_refl |].
      intros _ Hn. unfold exists_ in Hn. by rewrite Hf in Hn.
Qed.

Lemma consolidate_loop (items : list string) :
  ∀ s : state,
    is_dir get_specify_root (fs s) = true →
    ∃ s', for_each consolidate_item items s = Ok s'
          ∧ grows (fs s) (fs s')
          ∧ ∀ i, i ∈ items → nested_settled i (fs s').
Proof.
  induction items as [|i items IH]; intros s Hc; simpl.
  - exists s. split_and!; [done | apply grows_refl | by intros i ?%elem_of_nil].
  - destruct (consolidate_item_ok i s Hc) as (s1 & -> & Hg1 & Hp1). simpl.
    destruct (IH s1 (canon_grows _ _ Hg1 Hc)) as (s' & Hloop & Hg2 & Hp2).
    exists s'. split_and!; [done | by eapply grows_trans |].
    intros j [-> | Hj]%elem_of_cons; [by eapply nested_settled_grows | by apply Hp2].
Qed.

(** The third phase ends well when the canonical root is a directory. *)
Lemma consolidate_nested_ok (s : state) :
  is_dir get_specify_root (fs s) = true →
  ∃ s', consolidate_nested s = Ok s'
        ∧ grows (fs s) (fs s') ∧ ∀ i, nested_settled i (fs s').
Proof.
  intros Hc. unfold consolidate_nested.
  assert (is_dir get_specs_root (fs s) = true) as Hs.
  { apply (exists_parent_dir get_specs_root ".specify"). by apply is_dir_exists. }
  destruct (iterdir get_specs_root (fs s)) as [items |] eqn:Hit.
  2:{ apply iterdir_is_dir in Hs as [? Hsome]. congruence. }
  destruct (consolidate_loop items s Hc) as (s' & Hloop & Hg & Hp).
  exists s'. split_and!; [done | done |].
  intros i Hi Hn. apply Hp; [| done | done].
  apply (iterdir_elem _ _ _ _ Hit).
  apply (grows_out_exists _ _ Hg) in Hn; [done |].
  pose proof (outside_not_inside _ (nested_outside i [] Hi)) as Hout.
  by rewrite app_nil_r in Hout.
Qed.

(** *** A settled tree: nothing left to move *)

Lemma settled_grows (t t' : node) : grows t t' → settled t → settled t'.
Proof.
  intros Hg [Hl Ht Hn]. split.
  - intros i. by eapply legacy_settled_grows.
  - intros name Hin. eapply top_settled_grows; [done | by apply Ht].
  - intros i. by eapply nested_settled_grows.
Qed.

Lemma migrate_item_quiet (i : string) (s : state) :
  legacy_settled i (fs s) →
  exists_ (legacy_root ++ [i]) (fs s) = true →
  fs (state_of (migrate_item i s)) = fs s
  ∧ performed (state_of (migrate_item i s)) = performed s.
Proof.
  intros Hs Hi. destruct (Hs Hi) as [Hd Hchildren]. unfold migrate_item.
  rewrite Hd. destruct (is_dir (legacy_root ++ [i]) (fs s)) eqn:Hsrc; [| done].
  destruct (exists_kind _ _ Hd) as [Hdir | Hfile]; [| by rewrite makedirs_file].
  rewrite makedirs_present, with_fs_same by done.
  destruct (iterdir (legacy_root ++ [i]) (fs s)) as [children |] eqn:Hit; [| done].
  rewrite children_quiet; [done |].
  intros c Hc. apply Hchildren; [done |]. by apply (iterdir_elem _ _ _ _ Hit).
Qed.

Lemma migrate_loop_quiet (items : list string) :
  ∀ s : state,
    (∀ i, i ∈ items →
          legacy_settled i (fs s) ∧ exists_ (legacy_root ++ [i]) (fs s) = true) →
    fs (state_of (for_each migrate_item items s)) = fs s
    ∧ performed (state_of (for_each migrate_item items s)) = performed s.
Proof.
  induction items as [|i items IH]; intros s Hall; simpl; [done |].
  destruct (Hall i ltac:(left)) as [Hs Hi].
  destruct (migrate_item_quiet i s Hs Hi) as [Hfs Hperf].
  destruct (migrate_item i s) as [s1 | s1]; simpl in *; [| done].
  rewrite <- Hfs, <- Hperf. apply IH.
  intros j Hj. rewrite Hfs. apply Hall. by right.
Qed.

Lemma migrate_legacy_quiet (s : state) :
  (∀ i, legacy_settled i (fs s)) →
  grows (fs s) (fs (state_of (migrate_legacy s)))
  ∧ performed (state_of (migrate_legacy s)) = performed s.
Proof.
  intros Hall. unfold migrate_legacy.
  destruct (is_dir legacy_root (fs s)) eqn:Hl; [| split; [apply grows_refl | done]].
  destruct (iterdir legacy_root (fs s)) as [items |] eqn:Hit;
    [| split; [apply grows_refl | done]].
  destruct (migrate_loop_quiet items s) as [Hfs Hperf].
  { intros i Hi. split; [done |]. by apply (iterdir_elem _ _ _ _ Hit). }
  destruct (for_each migrate_item items s) as [s1 | s1]; simpl in *.
  - split; [| done]. rewrite <- Hfs.
    apply rmdir_grows; [done | apply (legacy_outside [])].
  - rewrite Hfs. split; [apply grows_refl | done].
Qed.

Lemma move_top_level_quiet (name : string) (s : state) :
  top_settled name (fs s) → move_top_level name s = Ok s.
Proof.
  intros Hs. unfold move_top_level.
  destruct (exists_ [name] (fs s)) eqn:Hn; [| done]. cbn [negb].
  by rewrite Hs.
Qed.

Lemma top_level_quiet (names : list string) (s : state) :
  (∀ name, name ∈ names → top_settled name (fs s)) →
  for_each move_top_level names s = Ok s.
Proof.
  induction names as [|name names IH]; intros Hall; simpl; [done |].
  rewrite move_top_level_quiet by (apply Hall; left). simpl.
  apply IH. intros x Hx. apply Hall. by right.
Qed.

Lemma consolidate_item_quiet (i : string) (s : state) :
  nested_settled i (fs s) →
  ∃ s', consolidate_item i s = Ok s'
        ∧ grows (fs s) (fs s') ∧ performed s' = performed s.
Proof.
  intros Hs. unfold consolidate_item.
  destruct (String.eqb_spec i ".specify") as [-> | Hi].
  { exists s. split_and!; [done | apply grows_refl | done]. }
  destruct (exists_ (get_specify_root ++ [i]) (fs s)) eqn:Hd.
  - destruct (is_dir (get_specs_root ++ [i]) (fs s)) eqn:Hsrc; cbn [andb].
    2:{ exists s. split_and!; [done | apply grows_refl | done]. }
    destruct (is_dir (get_specify_root ++ [i]) (fs s)) eqn:Hdir; cbn [andb].
    2:{ exists s. split_and!; [done | apply grows_refl | done]. }
    destruct (Hs Hi (is_dir_exists _ _ Hsrc)) as [_ Hchildren].
    destruct (iterdir (get_specs_root ++ [i]) (fs s)) as [children |] eqn:Hit.
    2:{ exists s. split_and!; [done | apply grows_refl | done]. }
    rewrite children_quiet.
    2:{ intros c Hc. apply Hchildren; [done | done |].
        by apply (iterdir_elem _ _ _ _ Hit). }
    cbn [bind].
    exists (with_fs s (default (fs s) (rmdir (get_specs_root ++ [i]) (fs s)))).
    split_and!.
    + destruct (rmdir (get_specs_root ++ [i]) (fs s)); simpl; [done |].
      by rewrite with_fs_same.
    + apply rmdir_grows; [done |].
      pose proof (nested_outside i [] Hi) as Hout. by rewrite app_nil_r in Hout.
    + done.
  - exists s. split_and!; [| apply grows_refl | done].
    unfold move, shutil_move.
    destruct (find (get_specs_root ++ [i]) (fs s)) as [n |] eqn:Hf; [| done].
    exfalso. destruct (Hs Hi) as [Hd' _]; [| congruence].
    unfold exists_. by rewrite Hf.
Qed.

Lemma consolidate_loop_quiet (items : list string) :
  ∀ s : state,
    (∀ i, nested_settled i (fs s)) →
    ∃ s', for_each consolidate_item items s = Ok s'
          ∧ performed s' = performed s.
Proof.
  induction items as [|i items IH]; intros s Hall; simpl; [eauto |].
  destruct (consolidate_item_quiet i s (Hall i)) as (s1 & -> & Hg & Hperf).
  simpl. destruct (IH s1) as (s' & Hloop & Hperf').
  { intros j. by eapply nested_settled_grows. }
  exists s'. split; [done | congruence].
Qed.

Lemma consolidate_nested_quiet (s : state) :
  (∀ i, nested_settled i (fs s)) →
  performed (state_of (consolidate_nested s)) = performed s.
Proof.
  intros Hall. unfold consolidate_nested.
  destruct (iterdir get_specs_root (fs s)) as [items |]; [| done].
  destruct (consolidate_loop_quiet items s Hall) as (s' & -> & Hperf). done.
Qed.

(** *** When the first phase raises

    With the canonical root a directory, the relocator raises only in its
    first phase, on a directory of the legacy root whose namesake under the
    canonical root is a file; the next run stops at the same item. *)

Lemma legacy_diverge (q : path) : diverge legacy_root (get_specify_root ++ q).
Proof. simpl. by left. Qed.

Lemma legacy_children_listing (i : string) (children : list string) :
  ∀ s : state,
    is_dir (get_specify_root ++ [i]) (fs s) = true →
    iterdir legacy_root
      (fs (state_of (for_each (move_child (legacy_root ++ [i])
                                 (get_specify_root ++ [i])) children s)))
    = iterdir legacy_root (fs s).
Proof.
  induction children as [|c children IH]; intros s Hd; [done |].
  cbn [for_each].
  pose proof (move_child_grows (legacy_root ++ [i]) (get_specify_root ++ [i])
                ltac:(done) (legacy_outside [i]) (prefix_app _ _) c s Hd)
    as (Hg & _ & _).
  rewrite move_child_spec in *
    by (done || apply (legacy_outside [i]) || apply prefix_app).
  destruct (exists_ ((get_specify_root ++ [i]) ++ [c]) (fs s));
    cbn [bind state_of] in *; [by apply IH |].
  destruct (find ((legacy_root ++ [i]) ++ [c]) (fs s)) as [n |];
    cbn [bind state_of fs] in *; [| done].
  rewrite IH; cbn [fs].
  - unfold place. rewrite iterdir_update_diverge by (simpl; by left).
    apply (iterdir_update_deep _ legacy_root i c []).
  - by eapply (dest_dir_grows _ (prefix_app _ _)).
Qed.

(** What a turn of the first phase that ends well does to the listing of
    the legacy root: nothing, or the item is gone and has its namesake. *)
Lemma migrate_item_listing (i : string) (s s' : state) :
  is_dir get_specify_root (fs s) = true →
  migrate_item i s = Ok s' →
  iterdir legacy_root (fs s') = iterdir legacy_root (fs s)
  ∨ (exists_ (get_specify_root ++ [i]) (fs s') = true
     ∧ iterdir legacy_root (fs s')
       = List.filter (λ x, negb (String.eqb i x)) <$> iterdir legacy_root (fs s)).
Proof.
  intros Hc. unfold migrate_item.
  destruct (exists_ (get_specify_root ++ [i]) (fs s)) eqn:Hd.
  - destruct (is_dir (legacy_root ++ [i]) (fs s)) eqn:Hs;
      [| intros [= <-]; by left].
    destruct (exists_kind _ _ Hd) as [Hdir | Hfile];
      [| by rewrite makedirs_file].
    rewrite makedirs_present, with_fs_same by done.
    destruct (iterdir (legacy_root ++ [i]) (fs s)) as [children |]; [| done].
    pose proof (legacy_children_listing i children s Hdir) as Hl.
    destruct (for_each _ children s) as [s1 | s1]; cbn [bind state_of] in *;
      [| done].
    intros [= <-]. by left.
  - rewrite move_rename;
      [| done | by rewrite parent_snoc
       | apply outside_not_prefix; [apply legacy_outside | apply prefix_app]].
    destruct (find (legacy_root ++ [i]) (fs s)) as [n |]; cbn [bind]; [| done].
    intros [= <-]. right. cbn [fs bump]. split.
    + apply rename_dst_exists; rename_side.
    + unfold place. rewrite iterdir_update_diverge by (simpl; by left).
      apply (iterdir_unlink_child legacy_root i).
Qed.

Lemma filter_filter {A} (f g : A → bool) (l : list A) :
  List.filter f (List.filter g l) = List.filter (λ x, g x && f x) l.
Proof.
  induction l as [|x l IH]; simpl; [done |].
  destruct (g x); simpl; [| done]. destruct (f x); by rewrite IH.
Qed.

Lemma filter_all {A} (l : list A) : List.filter (λ _, true) l = l.
Proof. induction l as [|x l IH]; simpl; [done | by rewrite IH]. Qed.

Lemma migrate_prefix (items0 pre : list string) :
  ∀ (s s' : state) (keep : string → bool),
    is_dir get_specify_root (fs s) = true →
    kept keep items0 (fs s) →
    for_each migrate_item pre s = Ok s' →
    grows (fs s) (fs s')
    ∧ (∀ x, x ∈ pre → legacy_settled x (fs s'))
    ∧ ∃ keep', kept keep' items0 (fs s').
Proof.
  induction pre as [|i pre IH]; intros s s' keep Hc Hk; cbn [for_each].
  - intros [= <-]. split_and!; [apply grows_refl | by intros x ?%elem_of_nil | eauto].
  - destruct (migrate_item i s) as [s1 | s1] eqn:Hi; cbn [bind]; [| done].
    intros Hrest.
    destruct (migrate_item_ok i s s1 Hc Hi) as [Hg1 Hs1].
    assert (∃ keep1, kept keep1 items0 (fs s1)) as [keep1 Hk1].
    { destruct Hk as [Hlist Hgone].
      destruct (migrate_item_listing i s s1 Hc Hi) as [Hsame | [Hdest Hless]].
      - exists keep. split; [congruence |]. intros x Hx Hkx.
        apply (grows_in_exists _ _ Hg1); [apply prefix_app | by apply Hgone].
      - exists (λ x, keep x && negb (String.eqb i x)). split.
        + rewrite Hless, Hlist. simpl. by rewrite filter_filter.
        + intros x Hx [Hkx | Hix]%andb_false_iff.
          * apply (grows_in_exists _ _ Hg1); [apply prefix_app | by apply Hgone].
          * apply negb_false_iff, String.eqb_eq in Hix as <-. done. }
    destruct (IH s1 s' keep1 (canon_grows _ _ Hg1 Hc) Hk1 Hrest)
      as (Hg2 & Hs2 & Hk2).
    split_and!; [by eapply grows_trans | | done].
    intros x [-> | Hx]%elem_of_cons; [by eapply legacy_settled_grows | by apply Hs2].
Qed.

Lemma for_each_raise_split (body : string → state → outcome)
    (items : list string) :
  ∀ s s1 : state,
    for_each body items s = Raise s1 →
    ∃ pre k post s_k,
      items = pre ++ k :: post
      ∧ for_each body pre s = Ok s_k ∧ body k s_k = Raise s1.
Proof.
  induction items as [|i items IH]; intros s s1; cbn [for_each]; [done |].
  destruct (body i s) as [s' | s'] eqn:Hi; cbn [bind].
  - intros (pre & k & post & s_k & -> & Hpre & Hk)%IH.
    exists (i :: pre), k, post, s_k. split_and!; [done | | done].
    cbn [for_each]. by rewrite Hi.
  - intros [= <-]. by exists [], i, items, s.
Qed.

(** A turn of the first phase raises only on a directory whose namesake
    is a file, and before it has changed anything. *)
Lemma migrate_item_raise (k : string) (s s1 : state) :
  is_dir get_specify_root (fs s) = true →
  exists_ (legacy_root ++ [k]) (fs s) = true
  ∨ exists_ (get_specify_root ++ [k]) (fs s) = true →
  migrate_item k s = Raise s1 →
  s1 = s ∧ is_dir (legacy_root ++ [k]) (fs s) = true
  ∧ is_file (get_specify_root ++ [k]) (fs s) = true.
Proof.
  intros Hc Hk. unfold migrate_item.
  destruct (exists_ (get_specify_root ++ [k]) (fs s)) eqn:Hd.
  - destruct (is_dir (legacy_root ++ [k]) (fs s)) eqn:Hs; [| done].
    destruct (exists_kind _ _ Hd) as [Hdir | Hfile].
    + rewrite makedirs_present, with_fs_same by done.
      destruct (iterdir (legacy_root ++ [k]) (fs s)) as [children |] eqn:Hit.
      2:{ apply iterdir_is_dir in Hs as [? Hsome]. congruence. }
      destruct (children_succeed (legacy_root ++ [k]) (get_specify_root ++ [k])
                  ltac:(done) (legacy_outside [k]) (prefix_app _ _)
                  children s Hdir) as [s2 ->]; [| done].
      intros c Hx. left. by apply (iterdir_elem _ _ _ _ Hit).
    + rewrite makedirs_file by done. by intros [= <-].
  - destruct Hk as [Hk | Hk]; [| done].
    rewrite move_rename;
      [| done | by rewrite parent_snoc
       | apply outside_not_prefix; [apply legacy_outside | apply prefix_app]].
    unfold exists_ in Hk. by destruct (find (legacy_root ++ [k]) (fs s)).
Qed.

Lemma migrate_item_blocked (k : string) (s : state) :
  is_dir (legacy_root ++ [k]) (fs s) = true →
  is_file (get_specify_root ++ [k]) (fs s) = true →
  migrate_item k s = Raise s.
Proof.
  intros Hs Hf. unfold migrate_item.
  assert (exists_ (get_specify_root ++ [k]) (fs s) = true) as ->.
  { unfold is_file, exists_ in *. by destruct (find _ (fs s)). }
  by rewrite Hs, makedirs_file.
Qed.

Lemma first_phase_raises_again (t : node) (s1 : state) :
  is_dir get_specify_root t = true →
  migrate_legacy (fresh t) = Raise s1 →
  ∃ s2, migrate_legacy (fresh (fs s1)) = Raise s2 ∧ performed s2 = [].
Proof.
  intros Hc. unfold migrate_legacy at 1. cbn [fresh fs].
  destruct (is_dir legacy_root t) eqn:Hl; [| done].
  destruct (iterdir legacy_root t) as [items0 |] eqn:Hit.
  2:{ apply iterdir_is_dir in Hl as [? Hsome]. congruence. }
  destruct (for_each migrate_item items0 (fresh t)) as [s' | s'] eqn:Hloop;
    cbn [bind]; [done |].
  intros [= ->].
  apply for_each_raise_split in Hloop as (pre & k & post & s_k & -> & Hpre & Hk).
  destruct (migrate_prefix (pre ++ k :: post) pre (fresh t) s_k (λ _, true))
    as (Hg & Hsettled & keep & Hlist & Hgone); [done | | done |].
  { split; [by rewrite filter_all | done]. }
  cbn [fresh fs] in Hg.
  pose proof (canon_grows _ _ Hg Hc) as Hc_k.
  assert (k ∈ pre ++ k :: post) as Hin by (apply elem_of_app; right; left).
  destruct (migrate_item_raise k s_k s1 Hc_k) as (-> & Hkdir & Hkfile);
    [| done |].
  { destruct (keep k) eqn:Hkeep; [left | right; by apply Hgone].
    apply (iterdir_elem _ _ _ _ Hlist).
    apply list_elem_of_In, filter_In. split; [by apply list_elem_of_In | done]. }
  assert (keep k = true) as Hkeep.
  { apply is_dir_exists in Hkdir.
    apply (iterdir_elem _ _ _ _ Hlist), list_elem_of_In, filter_In in Hkdir.
    by destruct Hkdir. }
  rewrite List.filter_app in Hlist. cbn [List.filter] in Hlist. rewrite Hkeep in Hlist.
  unfold migrate_legacy. cbn [fresh fs].
  rewrite (proj2 (iterdir_is_dir legacy_root (fs s_k))) by (by rewrite Hlist).
  rewrite Hlist, for_each_app.
  destruct (migrate_loop_quiet (List.filter keep pre) (fresh (fs s_k)))
    as [Hfs Hperf].
  { intros x Hx. cbn [fresh fs]. split.
    - apply Hsettled. apply list_elem_of_In, filter_In in Hx as [Hx _].
      by apply list_elem_of_In.
    - apply (iterdir_elem _ _ _ _ Hlist). apply elem_of_app. by left. }
  destruct (for_each migrate_item (List.filter keep pre) (fresh (fs s_k)))
    as [s2 | s2]; cbn [bind state_of fresh fs performed] in *.
  - exists s2. cbn [for_each]. rewrite migrate_item_blocked by (by rewrite Hfs).
    done.
  - by exists s2.
Qed.

(** The second phase cannot raise when the canonical root is a
    directory. *)
Lemma top_level_succeeds (names : list string) :
  (∀ name, name ∈ names → name ≠ ".specs") →
  ∀ s : state,
    is_dir get_specify_root (fs s) = true →
    ∃ s', for_each move_top_level names s = Ok s'.
Proof.
  induction names as [|name names IH]; intros Hplain s Hc; cbn [for_each];
    [eauto |].
  assert (∃ s1, move_top_level name s = Ok s1) as [s1 H1].
  { unfold move_top_level.
    destruct (exists_ [name] (fs s)) eqn:Hn; cbn [negb]; [| eauto].
    destruct (exists_ (get_specify_root ++ [name]) (fs s)) eqn:Hd; [eauto |].
    rewrite move_rename;
      [| done | by rewrite parent_snoc
       | apply outside_not_prefix;
         [apply outside_first, Hplain; left | apply prefix_app]].
    unfold exists_ in Hn. destruct (find [name] (fs s)); [| done].
    cbn [bind]. eauto. }
  rewrite H1. cbn [bind]. apply IH.
  - intros x Hx. apply Hplain. by right.
  - destruct (move_top_level_ok name s s1 (Hplain name ltac:(left)) Hc H1)
      as [Hg _].
    by eapply canon_grows.
Qed.

(** *** Without the canonical root

    While the canonical root is no directory, a move into it fails for a
    regular file and creates the root for a directory; from then on the
    run is the run on the tree that has the empty root from the start. *)

Lemma absent_below (q r : path) (t : node) :
  is_dir q t = false → r ≠ [] → exists_ (q ++ r) t = false.
Proof.
  unfold is_dir, exists_. rewrite find_app. intros Hq Hr.
  destruct (find q t) as [[perm data | es] |]; simpl; [| done | done].
  by destruct r.
Qed.

Lemma makedirs_is_dir (p : path) :
  ∀ t t' : node, makedirs p t = Some t' → is_dir p t' = true.
Proof.
  induction p as [|k p IH]; intros t t'.
  - destruct t as [perm data | es]; [done |]. by intros [= <-].
  - destruct t as [perm data | es]; [done |]. cbn [makedirs].
    destruct (makedirs p (default (Dir []) (dir_get k es))) as [c |] eqn:Hc;
      [| done].
    intros [= <-]. unfold is_dir. rewrite find_cons, dir_get_put_eq.
    apply IH in Hc. exact Hc.
Qed.

Lemma find_makedirs_diverge (q : path) :
  ∀ (p : path) (t t' : node),
    diverge p q → makedirs q t = Some t' → find p t' = find p t.
Proof.
  induction q as [|k q IH]; intros p t t' Hd; [by destruct p |].
  destruct p as [|a p]; [done |]. cbn [diverge] in Hd.
  destruct t as [perm data | es]; [done |]. cbn [makedirs].
  destruct (makedirs q (default (Dir []) (dir_get k es))) as [c |] eqn:Hc;
    [| done].
  intros [= <-]. rewrite !find_cons, dir_get_put.
  destruct (String.eqb_spec a k) as [-> | Hne]; [| done].
  destruct Hd as [Hne | Hd]; [done |].
  cbn [mbind option_bind]. rewrite (IH p _ _ Hd Hc).
  destruct (dir_get k es) as [c0 |]; [done |].
  destruct p as [|b p]; [by destruct q | done].
Qed.

Lemma makedirs_new (p : path) :
  ∀ t t' : node,
    find p t = None → makedirs p t = Some t' → find p t' = Some (Dir []).
Proof.
  induction p as [|k p IH]; intros t t'; [done |].
  destruct t as [perm data | es]; [done |]. rewrite find_cons. cbn [makedirs].
  destruct (makedirs p (default (Dir []) (dir_get k es))) as [c |] eqn:Hc;
    [| done].
  intros Hf [= <-]. rewrite find_cons, dir_get_put_eq. cbn [mbind option_bind].
  destruct (dir_get k es) as [c0 |]; cbn [default from_option id mbind option_bind] in *.
  - by eapply IH.
  - destruct p as [|k' p].
    + cbn [makedirs] in Hc. by injection Hc as <-.
    + by apply (IH (Dir []) c).
Qed.

Lemma names_put_absent (k : string) (v : node) (es : dirents) :
  dir_get k es = None → names (dir_put k v es) = names es ++ [k].
Proof.
  unfold names. induction es as [|[k' v'] es IH]; simpl; [done |].
  destruct (String.eqb_spec k k') as [-> | Hne]; [done |].
  intros H. simpl. f_equal. by apply IH.
Qed.

Lemma iterdir_makedirs_child (p : path) (k : string) :
  ∀ (t t' : node) (items : list string),
    iterdir p t = Some items → exists_ (p ++ [k]) t = false →
    makedirs (p ++ [k]) t = Some t' →
    iterdir p t' = Some (items ++ [k]).
Proof.
  induction p as [|a p IH]; intros t t' items.
  - cbn [app]. destruct t as [perm data | es]; [done |].
    unfold iterdir, exists_. rewrite find_nil, (find_cons k []). cbn [makedirs].
    intros [= <-] Hk. destruct (dir_get k es) as [c |] eqn:Hc; [done |].
    cbn [default from_option id]. intros [= <-]. rewrite find_nil.
    by rewrite names_put_absent.
  - rewrite <- app_comm_cons. destruct t as [perm data | es]; [done |].
    unfold iterdir, exists_. rewrite !find_cons. cbn [makedirs].
    destruct (dir_get a es) as [c |] eqn:Hc; [| done].
    cbn [mbind option_bind default from_option id]. intros Hit Hk.
    destruct (makedirs (p ++ [k]) c) as [c' |] eqn:Hc'; [| done].
    intros [= <-]. rewrite find_cons, dir_get_put_eq. cbn [mbind option_bind].
    by apply (IH c c' items).
Qed.

Lemma diverge_not_prefix (p : path) :
  ∀ q r : path, diverge p q → is_prefix p (q ++ r) = false.
Proof.
  induction p as [|a p IH]; intros q r Hd; [by destruct q |].
  destruct q as [|b q]; [done |]. cbn [diverge] in Hd. cbn [app is_prefix].
  destruct (String.eqb_spec a b) as [-> | Hne]; [| done].
  destruct Hd as [Hne | Hd]; [done |]. by apply IH.
Qed.

Lemma shutil_move_rootless (src : path) (x : string) (t : node) :
  is_dir get_specify_root t = false →
  diverge src get_specify_root →
  shutil_move src (get_specify_root ++ [x]) t
  = match find src t, makedirs get_specify_root t with
    | Some (Dir es), Some t' =>
        Some (place (get_specify_root ++ [x]) (Dir es) (unlink src t'))
    | _, _ => None
    end.
Proof.
  intros Hroot Hd. unfold shutil_move.
  pose proof (absent_below get_specify_root [x] t Hroot ltac:(done)) as Hx.
  assert (is_dir (get_specify_root ++ [x]) t = false) as ->.
  { unfold exists_ in Hx. unfold is_dir.
    by destruct (find (get_specify_root ++ [x]) t). }
  cbn [andb]. rewrite (diverge_not_prefix src get_specify_root [x] Hd).
  unfold exists_ in Hx.
  destruct (find (get_specify_root ++ [x]) t) eqn:Hf; [done |].
  rewrite parent_snoc, Hroot.
  destruct (find src t) as [[perm data | es] |]; [done | | done].
  by destruct (makedirs get_specify_root t).
Qed.

(** A move into the missing root fails for what is no directory, and
    where the root cannot be made. *)
Lemma move_rootless_fails (src : path) (x : string) (s : state) :
  is_dir get_specify_root (fs s) = false →
  diverge src get_specify_root →
  is_dir src (fs s) = false ∨ makedirs get_specify_root (fs s) = None →
  move src (get_specify_root ++ [x]) s = Raise s.
Proof.
  intros Hroot Hd Hwhy. unfold move. rewrite shutil_move_rootless by done.
  unfold is_dir in Hwhy.
  destruct (find src (fs s)) as [[perm data | es] |]; [done | | done].
  destruct Hwhy as [? | ->]; done.
Qed.

(** For a directory it is the move on the tree with the empty root. *)
Lemma move_creates (src : path) (x : string) (s : state) (t' : node) :
  is_dir get_specify_root (fs s) = false →
  diverge src get_specify_root →
  makedirs get_specify_root (fs s) = Some t' →
  is_dir src (fs s) = true →
  move src (get_specify_root ++ [x]) s
  = move src (get_specify_root ++ [x]) (with_fs s t').
Proof.
  intros Hroot Hd Hmk Hsrc. unfold move at 1.
  rewrite shutil_move_rootless, Hmk by done.
  assert (find get_specify_root (fs s) = None) as Hnone.
  { destruct (find get_specify_root (fs s)) as [[perm data | es] |] eqn:Hf;
      [| | done].
    - rewrite makedirs_file in Hmk; [done |]. unfold is_file. by rewrite Hf.
    - unfold is_dir in Hroot. by rewrite Hf in Hroot. }
  pose proof (makedirs_new _ _ _ Hnone Hmk) as Hnew.
  rewrite move_rename; cbn [with_fs fs counter performed].
  - rewrite (find_makedirs_diverge _ _ _ _ Hd Hmk).
    unfold is_dir in Hsrc.
    by destruct (find src (fs s)) as [[perm data | es] |].
  - unfold exists_. by rewrite find_app, Hnew.
  - rewrite parent_snoc. unfold is_dir. by rewrite Hnew.
  - by apply diverge_not_prefix.
Qed.

Lemma legacy_diverges (i : string) :
  diverge (legacy_root ++ [i]) get_specify_root.
Proof. simpl. by left. Qed.

Lemma top_diverges (name : string) :
  name ≠ ".specs" → diverge [name] get_specify_root.
Proof. intros H. simpl. by left. Qed.

Lemma nested_diverges (i : string) :
  i ≠ ".specify" → diverge (get_specs_root ++ [i]) get_specify_root.
Proof. intros H. simpl. right. by left. Qed.

Lemma fresh_with_fs (t t' : node) : with_fs (fresh t) t' = fresh t'.
Proof. reflexivity. Qed.

Lemma new_root_empty (t t' : node) (x : string) :
  is_dir get_specify_root t = false →
  makedirs get_specify_root t = Some t' →
  exists_ (get_specify_root ++ [x]) t' = false.
Proof.
  intros Hroot Hmk. unfold exists_. rewrite find_app.
  destruct (find get_specify_root t) as [[perm data | es] |] eqn:Hf.
  - rewrite makedirs_file in Hmk; [done |]. unfold is_file. by rewrite Hf.
  - unfold is_dir in Hroot. by rewrite Hf in Hroot.
  - by rewrite (makedirs_new _ _ _ Hf Hmk).
Qed.

Lemma migrate_legacy_listing (s : state) (es : dirents) :
  find legacy_root (fs s) = Some (Dir es) →
  migrate_legacy s
  = bind (for_each migrate_item (names es) s)
         (λ s', Ok (with_fs s' (default (fs s') (rmdir legacy_root (fs s'))))).
Proof.
  intros Hf. unfold migrate_legacy, is_dir, iterdir. by rewrite Hf.
Qed.

Lemma migrate_item_rootless_fails (i : string) (s : state) :
  is_dir get_specify_root (fs s) = false →
  is_dir (legacy_root ++ [i]) (fs s) = false
  ∨ makedirs get_specify_root (fs s) = None →
  migrate_item i s = Raise s.
Proof.
  intros Hroot Hwhy. unfold migrate_item.
  rewrite (absent_below get_specify_root [i] (fs s) Hroot) by done.
  by rewrite move_rootless_fails by (done || apply legacy_diverges).
Qed.

Lemma migrate_item_creates (i : string) (s : state) (t' : node) :
  is_dir get_specify_root (fs s) = false →
  makedirs get_specify_root (fs s) = Some t' →
  is_dir (legacy_root ++ [i]) (fs s) = true →
  migrate_item i s = migrate_item i (with_fs s t').
Proof.
  intros Hroot Hmk Hsrc. unfold migrate_item.
  rewrite (absent_below get_specify_root [i] (fs s) Hroot) by done.
  cbn [with_fs fs]. rewrite (new_root_empty (fs s) t' i Hroot Hmk).
  by rewrite (move_creates _ _ _ t') by (done || apply legacy_diverges).
Qed.

(** The first phase without the canonical root: it raises at once, or
    finds nothing to move, or is the first phase on the tree with the empty
    root. *)
Lemma legacy_rootless (t : node) :
  is_dir get_specify_root t = false →
  migrate_legacy (fresh t) = Raise (fresh t)
  ∨ (∃ t1, migrate_legacy (fresh t) = Ok (fresh t1)
           ∧ is_dir legacy_root t1 = false
           ∧ is_dir get_specify_root t1 = false)
  ∨ (∃ t', makedirs get_specify_root t = Some t'
           ∧ migrate_legacy (fresh t) = migrate_legacy (fresh t')).
Proof.
  intros Hroot.
  destruct (find legacy_root t) as [[perm data | es] |] eqn:Hf.
  1,3: right; left; exists t; unfold migrate_legacy, is_dir; cbn [fresh fs];
       by rewrite Hf.
  rewrite (migrate_legacy_listing (fresh t) es Hf).
  destruct es as [|[i1 n1] rest].
  - right; left. exists (unlink legacy_root t). split_and!.
    + cbn [names map for_each bind fs fresh]. unfold rmdir. by rewrite Hf.
    + by rewrite is_dir_unlink, prefix_refl, andb_false_r.
    + by rewrite is_dir_unlink, Hroot.
  - cbn [names map fst for_each].
    destruct (is_dir (legacy_root ++ [i1]) t) eqn:Hsrc.
    2:{ left. rewrite migrate_item_rootless_fails; [done | done | by left]. }
    destruct (makedirs get_specify_root t) as [t' |] eqn:Hmk.
    2:{ left. rewrite migrate_item_rootless_fails; [done | done | by right]. }
    right; right. exists t'. split; [done |].
    assert (find legacy_root t' = Some (Dir ((i1, n1) :: rest))) as Hf'.
    { rewrite <- Hf.
      apply (find_makedirs_diverge get_specify_root); [| done]. simpl. by left. }
    rewrite (migrate_legacy_listing (fresh t') _ Hf').
    cbn [names map fst for_each].
    by rewrite (migrate_item_creates i1 (fresh t) t').
Qed.

(** The second phase without the canonical root: it raises at once, or
    finds none of the names, or is the second phase on the tree with the
    empty root. *)
Lemma move_top_level_absent (name : string) (s : state) :
  exists_ [name] (fs s) = false → move_top_level name s = Ok s.
Proof. intros H. unfold move_top_level. by rewrite H. Qed.

Lemma move_top_level_rootless_fails (name : string) (s : state) :
  name ≠ ".specs" →
  is_dir get_specify_root (fs s) = false →
  exists_ [name] (fs s) = true →
  is_dir [name] (fs s) = false ∨ makedirs get_specify_root (fs s) = None →
  move_top_level name s = Raise s.
Proof.
  intros Hname Hroot Hsrc Hwhy. unfold move_top_level. rewrite Hsrc. cbn [negb].
  rewrite (absent_below get_specify_root [name] (fs s) Hroot) by done.
  by rewrite move_rootless_fails by (done || by apply top_diverges).
Qed.

Lemma move_top_level_creates (name : string) (s : state) (t' : node) :
  name ≠ ".specs" →
  is_dir get_specify_root (fs s) = false →
  makedirs get_specify_root (fs s) = Some t' →
  is_dir [name] (fs s) = true →
  move_top_level name s = move_top_level name (with_fs s t').
Proof.
  intros Hname Hroot Hmk Hsrc. unfold move_top_level. cbn [with_fs fs].
  assert (exists_ [name] t' = exists_ [name] (fs s)) as ->.
  { unfold exists_.
    by rewrite (find_makedirs_diverge get_specify_root [name] (fs s) t')
      by (done || by apply top_diverges). }
  rewrite (is_dir_exists _ _ Hsrc). cbn [negb].
  rewrite (absent_below get_specify_root [name] (fs s) Hroot) by done.
  rewrite (new_root_empty (fs s) t' name Hroot Hmk).
  by rewrite (move_creates _ _ _ t') by (done || by apply top_diverges).
Qed.

Lemma top_rootless (names : list string) :
  (∀ name, name ∈ names → name ≠ ".specs") →
  ∀ s : state,
    is_dir get_specify_root (fs s) = false →
    for_each move_top_level names s = Raise s
    ∨ (for_each move_top_level names s = Ok s
       ∧ ∀ name, name ∈ names → exists_ [name] (fs s) = false)
    ∨ (∃ t', makedirs get_specify_root (fs s) = Some t'
             ∧ for_each move_top_level names s
               = for_each move_top_level names (with_fs s t')).
Proof.
  induction names as [|name names IH]; intros Hplain s Hroot; cbn [for_each].
  { right; left. split; [done | by intros name ?%elem_of_nil]. }
  assert (name ≠ ".specs") as Hname by (apply Hplain; left).
  destruct (exists_ [name] (fs s)) eqn:Hsrc.
  - destruct (is_dir [name] (fs s)) eqn:Hdir.
    2:{ left. rewrite move_top_level_rootless_fails;
          [done | done | done | done | by left]. }
    destruct (makedirs get_specify_root (fs s)) as [t' |] eqn:Hmk.
    2:{ left. rewrite move_top_level_rootless_fails;
          [done | done | done | done | by right]. }
    right; right. exists t'. split; [done |].
    by rewrite (move_top_level_creates name s t').
  - rewrite move_top_level_absent by done. cbn [bind].
    destruct (IH ltac:(intros x Hx; apply Hplain; by right) s Hroot)
      as [Hr | [[Hok Hnone] | (t' & Hmk & Heq)]].
    + by left.
    + right; left. split; [done |].
      intros x [-> | Hx]%elem_of_cons; [done | by apply Hnone].
    + right; right. exists t'. split; [done |].
      rewrite move_top_level_absent; [done |]. cbn [with_fs fs].
      unfold exists_.
      rewrite (find_makedirs_diverge get_specify_root [name] (fs s) t')
        by (done || by apply top_diverges).
      exact Hsrc.
Qed.

(** The third phase without the canonical root. *)
Lemma consolidate_item_rootless_fails (i : string) (s : state) :
  is_dir get_specify_root (fs s) = false →
  is_dir (get_specs_root ++ [i]) (fs s) = false
  ∨ makedirs get_specify_root (fs s) = None →
  consolidate_item i s = Ok s.
Proof.
  intros Hroot Hwhy. unfold consolidate_item.
  destruct (String.eqb_spec i ".specify") as [-> | Hi]; [done |].
  rewrite (absent_below get_specify_root [i] (fs s) Hroot) by done.
  by rewrite move_rootless_fails by (done || by apply nested_diverges).
Qed.

Lemma consolidate_item_creates (i : string) (s : state) (t' : node) :
  is_dir get_specify_root (fs s) = false →
  makedirs get_specify_root (fs s) = Some t' →
  is_dir (get_specs_root ++ [i]) (fs s) = true →
  consolidate_item i s = consolidate_item i (with_fs s t').
Proof.
  intros Hroot Hmk Hsrc. unfold consolidate_item.
  destruct (String.eqb_spec i ".specify") as [-> | Hi].
  { change (get_specs_root ++ [".specify"]) with get_specify_root in Hsrc.
    congruence. }
  rewrite (absent_below get_specify_root [i] (fs s) Hroot) by done.
  cbn [with_fs fs]. rewrite (new_root_empty (fs s) t' i Hroot Hmk).
  by rewrite (move_creates _ _ _ t') by (done || by apply nested_diverges).
Qed.

Lemma nested_stuck (items : list string) (s : state) :
  is_dir get_specify_root (fs s) = false →
  (∀ i, i ∈ items →
        is_dir (get_specs_root ++ [i]) (fs s) = false
        ∨ makedirs get_specify_root (fs s) = None) →
  for_each consolidate_item items s = Ok s.
Proof.
  intros Hroot. induction items as [|i items IH]; intros Hall; cbn [for_each];
    [done |].
  rewrite consolidate_item_rootless_fails by (done || apply Hall; left).
  cbn [bind]. apply IH. intros x Hx. apply Hall. by right.
Qed.

Lemma existsb_false_elem (f : string → bool) (items : list string) :
  existsb f items = false → ∀ i, i ∈ items → f i = false.
Proof.
  induction items as [|x items IH]; cbn [existsb]; [by intros _ i ?%elem_of_nil |].
  intros [Hx Hrest]%orb_false_iff i [-> | Hi]%elem_of_cons; [done | by apply IH].
Qed.

Lemma nested_rootless (s : state) :
  is_dir get_specify_root (fs s) = false →
  state_of (consolidate_nested s) = s
  ∨ (∃ t', makedirs get_specify_root (fs s) = Some t'
           ∧ consolidate_nested s = consolidate_nested (with_fs s t'))
  ∨ (exists_ get_specify_root (fs s) = false ∧ file_leads (fs s) = true).
Proof.
  intros Hroot. unfold consolidate_nested at 1 2, file_leads.
  destruct (iterdir get_specs_root (fs s)) as [items |] eqn:Hit; [| by left].
  destruct (makedirs get_specify_root (fs s)) as [t' |] eqn:Hmk.
  2:{ left. rewrite nested_stuck; [done | done |]. intros i _. by right. }
  assert (exists_ get_specify_root (fs s) = false) as Hnone.
  { unfold exists_.
    destruct (find get_specify_root (fs s)) as [[perm data | es] |] eqn:Hf;
      [| | done].
    - rewrite makedirs_file in Hmk; [done |]. unfold is_file. by rewrite Hf.
    - unfold is_dir in Hroot. by rewrite Hf in Hroot. }
  destruct items as [|i1 rest]; [by left |].
  destruct (is_dir (get_specs_root ++ [i1]) (fs s)) eqn:Hdir.
  - right; left. exists t'. split; [done |].
    unfold consolidate_nested. cbn [with_fs fs].
    rewrite (iterdir_makedirs_child get_specs_root ".specify" (fs s) t'
               (i1 :: rest) Hit Hnone Hmk).
    rewrite for_each_app. cbn [for_each].
    rewrite (consolidate_item_creates i1 s t') by done.
    destruct (bind (consolidate_item i1 (with_fs s t'))
                (for_each consolidate_item rest)) as [s' | s']; [| done].
    cbn [bind]. by unfold consolidate_item.
  - destruct (existsb (λ item, is_dir (get_specs_root ++ [item]) (fs s)) rest)
      eqn:Hdirs.
    + right; right. split; [done |].
      assert (exists_ (get_specs_root ++ [i1]) (fs s) = true) as Hthere.
      { apply (iterdir_elem _ _ _ _ Hit). by left. }
      destruct (exists_kind _ _ Hthere) as [? | ->]; [congruence | done].
    + left. rewrite nested_stuck; [done | done |].
      intros i [-> | Hi]%elem_of_cons; [by left |]. left.
      by apply (existsb_false_elem _ rest Hdirs).
Qed.

#[local] Arguments for_each : simpl never.

(** On a settled tree no phase of the relocator moves anything. *)
Lemma settled_no_moves (t : node) :
  settled t →
  legacy_moves (relocate_non_agent_directories t) = []
  ∧ top_level_moves (relocate_non_agent_directories t) = []
  ∧ nested_moves (relocate_non_agent_directories t) = [].
Proof.
  intros Hset. unfold relocate_non_agent_directories.
  destruct (migrate_legacy_quiet (fresh t) (settled_legacy _ Hset)) as [Hg1 Hp1].
  destruct (migrate_legacy (fresh t)) as [s1 | s1]; simpl in Hg1, Hp1; [| done].
  pose proof (settled_grows _ _ Hg1 Hset) as Hset1.
  rewrite (top_level_quiet non_agent_dirs (fresh (fs s1)))
    by (apply (settled_top _ Hset1)).
  pose proof (consolidate_nested_quiet (fresh (fs s1)) (settled_nested _ Hset1))
    as Hp3.
  simpl. split_and!; [done | done |].
  by destruct (consolidate_nested (fresh (fs s1))).
Qed.

(** After a run that returns, on a tree whose canonical root is a
    directory, the tree is settled. *)
Lemma relocate_settles (t : node) :
  is_dir get_specify_root t = true →
  raised (relocate_non_agent_directories t) = false →
  settled (tree (relocate_non_agent_directories t)).
Proof.
  intros Hc. unfold relocate_non_agent_directories.
  destruct (migrate_legacy (fresh t)) as [s1 | s1] eqn:H1; [| done].
  destruct (migrate_legacy_ok (fresh t) s1 Hc H1) as [Hg1 Hl].
  pose proof (canon_grows _ _ Hg1 Hc) as Hc1. simpl in Hg1, Hc1.
  destruct (for_each move_top_level non_agent_dirs (fresh (fs s1)))
    as [s2 | s2] eqn:H2; [| done].
  destruct (top_level_ok (fresh (fs s1)) s2 Hc1 H2) as [Hg2 Ht].
  pose proof (canon_grows _ _ Hg2 Hc1) as Hc2. simpl in Hg2, Hc2.
  destruct (consolidate_nested_ok (fresh (fs s2)) Hc2) as (s3 & -> & Hg3 & Hn).
  simpl. intros _. simpl in Hg3. split.
  - intros i. eapply legacy_settled_grows; [exact Hg3 |].
    by eapply legacy_settled_grows.
  - intros name Hin. eapply top_settled_grows; [exact Hg3 | by apply Ht].
  - done.
Qed.

(** The claim of C3 read to the letter fails on a tree without the
    canonical root: the first run cannot move the file [a.txt] (its target
    directory is missing, and the error is swallowed), moves the directory
    [b], which creates the canonical root, and returns; the second run then
    moves [a.txt].  The run comes late to the canonical root.  (The helpers
    [get_specs_root] and [get_specify_root] are taken to create nothing.) *)
Lemma second_run_moves_without_canonical_root :
  let project :=
    Dir [(".specs",
          Dir [("a.txt", File 420 "x"); ("b", Dir [("c", File 420 "y")])])] in
  let first := relocate_non_agent_directories project in
  raised first = false
  ∧ nested_moves first = [([".specs"; "b"], [".specs"; ".specify"; "b"])]
  ∧ nested_moves (relocate_non_agent_directories (tree first))
    = [([".specs"; "a.txt"], [".specs"; ".specify"; "a.txt"])]
  ∧ root_comes_late project = true.
Proof. by vm_compute. Qed.

(** A run on a tree whose canonical root is a directory returns, or
    raises in its first phase. *)
Lemma relocate_cases (t : node) :
  is_dir get_specify_root t = true →
  raised (relocate_non_agent_directories t) = false
  ∨ ∃ s1, migrate_legacy (fresh t) = Raise s1
          ∧ tree (relocate_non_agent_directories t) = fs s1.
Proof.
  intros Hc. unfold relocate_non_agent_directories.
  destruct (migrate_legacy (fresh t)) as [s1 | s1] eqn:H1; [| right; eauto].
  left. destruct (migrate_legacy_ok (fresh t) s1 Hc H1) as [Hg1 _].
  pose proof (canon_grows _ _ Hg1 Hc) as Hc1.
  destruct (top_level_succeeds non_agent_dirs non_agent_dirs_plain
              (fresh (fs s1)) Hc1) as [s2 H2].
  rewrite H2.
  destruct (top_level_ok (fresh (fs s1)) s2 Hc1 H2) as [Hg2 _].
  pose proof (canon_grows _ _ Hg2 Hc1) as Hc2.
  by destruct (consolidate_nested_ok (fresh (fs s2)) Hc2) as (s3 & -> & _).
Qed.

(** On a tree whose canonical root is a directory, the second run moves
    nothing, whether the first run returned or raised. *)
Lemma second_run_with_root (t : node) :
  is_dir get_specify_root t = true →
  let second :=
    relocate_non_agent_directories (tree (relocate_non_agent_directories t)) in
  legacy_moves second = [] ∧ top_level_moves second = []
  ∧ nested_moves second = [].
Proof.
  intros Hc second. subst second.
  destruct (relocate_cases t Hc) as [Hr | (s1 & H1 & ->)].
  - apply settled_no_moves. by apply relocate_settles.
  - destruct (first_phase_raises_again t s1 Hc H1) as (s2 & H2 & Hperf).
    unfold relocate_non_agent_directories. rewrite H2. by cbn.
Qed.

(** A run whose canonical root is a directory from the start does not come
    late to it. *)
Lemma root_in_time (t : node) :
  is_dir get_specify_root t = true → root_comes_late t = false.
Proof.
  intros Hc. unfold root_comes_late, third_phase_start.
  destruct (migrate_legacy (fresh t)) as [s1 | s1] eqn:H1; [| done].
  destruct (migrate_legacy_ok (fresh t) s1 Hc H1) as [Hg1 _].
  pose proof (canon_grows _ _ Hg1 Hc) as Hc1.
  destruct (for_each move_top_level non_agent_dirs (fresh (fs s1)))
    as [s2 | s2] eqn:H2; [| done].
  destruct (top_level_ok (fresh (fs s1)) s2 Hc1 H2) as [Hg2 _].
  pose proof (canon_grows _ _ Hg2 Hc1) as Hc2.
  by rewrite (is_dir_exists _ _ Hc2).
Qed.

(** What a run reports when its first two phases return. *)
Lemma relocate_returns (t : node) (s1 s2 : state) :
  migrate_legacy (fresh t) = Ok s1 →
  for_each move_top_level non_agent_dirs (fresh (fs s1)) = Ok s2 →
  let s3 := state_of (consolidate_nested (fresh (fs s2))) in
  tree (relocate_non_agent_directories t) = fs s3
  ∧ legacy_moves (relocate_non_agent_directories t) = performed s1
  ∧ top_level_moves (relocate_non_agent_directories t) = performed s2
  ∧ nested_moves (relocate_non_agent_directories t) = performed s3.
Proof.
  intros H1 H2 s3. subst s3. unfold relocate_non_agent_directories.
  rewrite H1, H2. cbn. by destruct (consolidate_nested (fresh (fs s2))).
Qed.

(** A first phase that finds no legacy root, or empties and removes it,
    is skipped by the run on the tree it leaves. *)
Lemma relocate_after_quiet_legacy (t t1 : node) :
  migrate_legacy (fresh t) = Ok (fresh t1) →
  is_dir legacy_root t1 = false →
  relocate_non_agent_directories t = relocate_non_agent_directories t1.
Proof.
  intros H1 Hl. unfold relocate_non_agent_directories. rewrite H1.
  assert (migrate_legacy (fresh t1) = Ok (fresh t1)) as ->; [| done].
  unfold migrate_legacy. cbn [fresh fs]. by rewrite Hl.
Qed.

Lemma migrate_legacy_skips (t : node) :
  is_dir legacy_root t = false → migrate_legacy (fresh t) = Ok (fresh t).
Proof. intros Hl. unfold migrate_legacy. cbn [fresh fs]. by rewrite Hl. Qed.

(** The run on a tree without the canonical root, when it does not come
    late to it: it is the run on a tree that has the root, or it moves
    nothing and the next run is the same run. *)
Lemma rootless_run (t : node) :
  is_dir get_specify_root t = false →
  root_comes_late t = false →
  (∃ t', is_dir get_specify_root t' = true
         ∧ relocate_non_agent_directories t = relocate_non_agent_directories t')
  ∨ (relocate_non_agent_directories (tree (relocate_non_agent_directories t))
     = relocate_non_agent_directories t
     ∧ legacy_moves (relocate_non_agent_directories t) = []
     ∧ top_level_moves (relocate_non_agent_directories t) = []
     ∧ nested_moves (relocate_non_agent_directories t) = []).
Proof.
  intros Hroot Hlate.
  destruct (legacy_rootless t Hroot)
    as [H1 | [(t1 & H1 & Hl1 & Hr1) | (t' & Hmk & H1)]].
  - right.
    assert (tree (relocate_non_agent_directories t) = t) as ->.
    { unfold relocate_non_agent_directories. by rewrite H1. }
    unfold relocate_non_agent_directories. by rewrite H1.
  - pose proof (relocate_after_quiet_legacy t t1 H1 Hl1) as Heq.
    destruct (top_rootless non_agent_dirs non_agent_dirs_plain (fresh t1) Hr1)
      as [H2 | [[H2 Hnone] | (t' & Hmk & H2)]].
    + right.
      assert (tree (relocate_non_agent_directories t) = t1) as ->.
      { unfold relocate_non_agent_directories. rewrite H1. cbn [fresh fs].
        by rewrite H2. }
      split; [done |].
      unfold relocate_non_agent_directories. rewrite H1. cbn [fresh fs].
      by rewrite H2.
    + destruct (nested_rootless (fresh t1) Hr1)
        as [H3 | [(t' & Hmk & H3) | [Hnone3 Hleads]]].
      * right.
        destruct (relocate_returns t (fresh t1) (fresh t1) H1 H2)
          as (Htree & Hm1 & Hm2 & Hm3).
        cbn [fresh fs] in Htree, Hm3. rewrite H3 in Htree, Hm3.
        rewrite Htree. done.
      * left. exists t'. split; [by eapply makedirs_is_dir |].
        cbn [fresh fs] in Hmk, H3.
        assert (is_dir legacy_root t' = false) as Hl'.
        { unfold is_dir in *.
          rewrite (find_makedirs_diverge get_specify_root legacy_root t1 t');
            [done | simpl; by left | done]. }
        unfold relocate_non_agent_directories.
        rewrite H1, (migrate_legacy_skips t' Hl'). cbn [fresh fs].
        rewrite H2, (top_level_quiet non_agent_dirs (fresh t')). 
        -- cbn [fresh fs]. by rewrite H3.
        -- intros name Hname Hthere. cbn [fresh fs] in Hthere. exfalso.
           unfold exists_ in Hthere.
           rewrite (find_makedirs_diverge get_specify_root [name] t1 t')
             in Hthere;
             [| by apply top_diverges, non_agent_dirs_plain | done].
           specialize (Hnone name Hname). cbn [fresh fs] in Hnone.
           unfold exists_ in Hnone. congruence.
      * exfalso. unfold root_comes_late, third_phase_start in Hlate.
        rewrite H1 in Hlate. cbn [fresh fs] in Hlate. rewrite H2 in Hlate.
        cbn [fresh fs] in Hlate, Hnone3, Hleads.
        by rewrite Hnone3, Hleads in Hlate.
    + left. exists t'. split; [by eapply makedirs_is_dir |].
      cbn [fresh fs] in Hmk, H2.
      assert (is_dir legacy_root t' = false) as Hl'.
      { unfold is_dir in *.
        rewrite (find_makedirs_diverge get_specify_root legacy_root t1 t');
          [done | simpl; by left | done]. }
      unfold relocate_non_agent_directories.
      rewrite H1, (migrate_legacy_skips t' Hl'). cbn [fresh fs].
      by rewrite H2.
  - left. exists t'. split; [by eapply makedirs_is_dir |].
    unfold relocate_non_agent_directories. by rewrite H1.
Qed.

(** C3 (as amended): a second run of the relocator carries out no move in
    any of its three phases, whether the first run returned or raised,
    unless the first run comes late to the canonical root: it reaches its
    third phase while [.specs/.specify] does not exist, and the specs root
    then lists a regular file first and a directory further on.  (That
    file's move fails and is swallowed, the directory's move creates the
    root, and the second run moves the file.)  A tree whose canonical root
    is a directory from the start never comes late, [root_in_time]. *)
Theorem relocation_idempotent (project : node) :
  root_comes_late project = false →
  let second :=
    relocate_non_agent_directories
      (tree (relocate_non_agent_directories project)) in
  legacy_moves second = [] ∧ top_level_moves second = []
  ∧ nested_moves second = [].
Proof.
  intros Hlate second. subst second.
  destruct (is_dir get_specify_root project) eqn:Hroot;
    [by apply second_run_with_root |].
  destruct (rootless_run project Hroot Hlate)
    as [(t' & Hroot' & ->) | (-> & Hmoves)];
    [by apply second_run_with_root | done].
Qed.

End RelocatorFacts.

Lemma relocation_idempotent_witness :
  let project :=
    FS.Dir [("memory", FS.Dir [("old.md", FS.File 420 "o")]);
            ("docs", FS.Dir [("guide.md", FS.File 420 "g")]);
            (".specify", FS.Dir [("scripts", FS.Dir [("run.sh", FS.File 420 "r")])]);
            (".specs",
             FS.Dir [("b", FS.Dir [("c", FS.File 420 "y")]);
                     ("a.txt", FS.File 420 "x")])] in
  let second :=
    Relocator.relocate_non_agent_directories
      (Relocator.tree (Relocator.relocate_non_agent_directories project)) in
  FS.is_dir Paths.get_specify_root project = false
  ∧ Relocator.legacy_moves second = [] ∧ Relocator.top_level_moves second = []
  ∧ Relocator.nested_moves second = [].
Proof.
  intros project.
  split; [reflexivity | exact (relocation_idempotent project eq_refl)].
Defined.

(** ** Text: what stripping, splitting and lower-casing leave *)

Section TextFacts.
Import Text.

Lemma lower_char_idem (c : ascii) : lower_char (lower_char c) = lower_char c.
Proof.
  destruct c as [[] [] [] [] [] [] [] []]; reflexivity.
Qed.

Lemma lower_idem (s : string) : lower (lower s) = lower s.
Proof.
  induction s as [|c s IH]; simpl; [done |]. by rewrite lower_char_idem, IH.
Qed.

Lemma lower_nonempty (s : string) : lower s = "" → s = "".
Proof. by destruct s. Qed.

Lemma head_lower (s : string) :
  head_char (lower s) = lower_char <$> head_char s.
Proof. by destruct s. Qed.

Lemma last_lower (s : string) :
  last_char (lower s) = lower_char <$> last_char s.
Proof.
  induction s as [|c s IH]; simpl; [done |].
  destruct s as [|d s]; [done |]. exact IH.
Qed.

Lemma all_chars_lower (p : ascii → bool) (s : string) :
  (∀ c, p c = true → p (lower_char c) = true) →
  all_chars p s = true → all_chars p (lower s) = true.
Proof.
  intros Hp. induction s as [|c s IH]; simpl; [done |].
  intros [Hc Hs]%andb_true_iff. rewrite Hp by done. by apply IH.
Qed.

Lemma lstrip_by_head (drop : ascii → bool) (s : string) (c : ascii) :
  head_char (lstrip_by drop s) = Some c → drop c = false.
Proof.
  induction s as [|d s IH]; simpl; [done |].
  destruct (drop d) eqn:Hd; [exact IH |]. simpl. by intros [= <-].
Qed.

Lemma last_char_cons (d : ascii) (s : string) :
  s ≠ "" → last_char (String d s) = last_char s.
Proof. by destruct s. Qed.

Lemma lstrip_by_last (drop : ascii → bool) (s : string) (c : ascii) :
  last_char (lstrip_by drop s) = Some c → last_char s = Some c.
Proof.
  induction s as [|d s IH]; simpl lstrip_by; [done |].
  destruct (drop d); [| done].
  intros H. destruct s as [|e s]; [done |].
  rewrite last_char_cons by done. by apply IH.
Qed.

Lemma rstrip_by_cons (drop : ascii → bool) (d : ascii) (s : string) :
  rstrip_by drop (String d s)
  = if String.eqb (rstrip_by drop s) "" then
      if drop d then "" else String d ""
    else String d (rstrip_by drop s).
Proof. simpl. by destruct (rstrip_by drop s). Qed.

Lemma rstrip_by_last (drop : ascii → bool) (s : string) (c : ascii) :
  last_char (rstrip_by drop s) = Some c → drop c = false.
Proof.
  induction s as [|d s IH]; [done |]. rewrite rstrip_by_cons.
  destruct (String.eqb_spec (rstrip_by drop s) "") as [E | E].
  - destruct (drop d) eqn:Hd; [done |]. simpl. by intros [= <-].
  - rewrite last_char_cons by done. exact IH.
Qed.

Lemma all_chars_lstrip (p drop : ascii → bool) (s : string) :
  all_chars p s = true → all_chars p (lstrip_by drop s) = true.
Proof.
  induction s as [|d s IH]; simpl; [done |].
  intros H. destruct (drop d); [| done].
  apply andb_true_iff in H as [_ H]. by apply IH.
Qed.

Lemma all_chars_rstrip (p drop : ascii → bool) (s : string) :
  all_chars p s = true → all_chars p (rstrip_by drop s) = true.
Proof.
  induction s as [|d s IH]; [done |]. rewrite rstrip_by_cons. simpl.
  intros [Hd Hs]%andb_true_iff.
  destruct (String.eqb (rstrip_by drop s) "").
  - destruct (drop d); [done |]. simpl. by rewrite Hd.
  - simpl. rewrite Hd. by apply IH.
Qed.

Lemma all_chars_strip (p drop : ascii → bool) (s : string) :
  all_chars p s = true → all_chars p (strip_by drop s) = true.
Proof. intros H. by apply all_chars_lstrip, all_chars_rstrip. Qed.

Lemma strip_by_ends (drop : ascii → bool) (s : string) :
  (∀ c, head_char (strip_by drop s) = Some c → drop c = false)
  ∧ (∀ c, last_char (strip_by drop s) = Some c → drop c = false).
Proof.
  split; intros c H.
  - by eapply lstrip_by_head.
  - eapply rstrip_by_last, lstrip_by_last, H.
Qed.

Lemma lstrip_by_fixed (drop : ascii → bool) (s : string) :
  (∀ c, head_char s = Some c → drop c = false) → lstrip_by drop s = s.
Proof. destruct s as [|c s]; simpl; [done |]. intros H. by rewrite H. Qed.

Lemma rstrip_by_fixed (drop : ascii → bool) (s : string) :
  (∀ c, last_char s = Some c → drop c = false) → rstrip_by drop s = s.
Proof.
  induction s as [|d s IH]; [done |]. rewrite rstrip_by_cons. intros H.
  destruct s as [|e s].
  - simpl. by rewrite H.
  - rewrite IH by (intros c Hc; apply H; by rewrite last_char_cons).
    done.
Qed.

Lemma strip_by_fixed (drop : ascii → bool) (s : string) :
  (∀ c, head_char s = Some c → drop c = false) →
  (∀ c, last_char s = Some c → drop c = false) →
  strip_by drop s = s.
Proof.
  intros Hh Hl. unfold strip_by. rewrite rstrip_by_fixed by done.
  by apply lstrip_by_fixed.
Qed.

Lemma strip_by_idem (drop : ascii → bool) (s : string) :
  strip_by drop (strip_by drop s) = strip_by drop s.
Proof. apply strip_by_fixed; apply strip_by_ends. Qed.

Lemma all_chars_head (p : ascii → bool) (s : string) (c : ascii) :
  all_chars p s = true → head_char s = Some c → p c = true.
Proof.
  destruct s as [|d s]; simpl; [done |].
  intros [H _]%andb_true_iff [= <-]. done.
Qed.

Lemma all_chars_last (p : ascii → bool) (s : string) (c : ascii) :
  all_chars p s = true → last_char s = Some c → p c = true.
Proof.
  induction s as [|d s IH]; [done |]. simpl all_chars.
  intros [Hd Hs]%andb_true_iff. destruct s as [|e s].
  - simpl. by intros [= <-].
  - rewrite last_char_cons by done. by apply IH.
Qed.

Lemma split_runs_nonempty (sep : ascii → bool) (b : bool) (s : string) :
  split_runs sep b s ≠ [].
Proof.
  revert b. induction s as [|c s IH]; intros b; simpl; [done |].
  destruct (sep c).
  - destruct b; [apply IH | done].
  - specialize (IH false). by destruct (split_runs sep false s).
Qed.

Lemma split_runs_pieces (sep : ascii → bool) (b : bool) (s seg : string) :
  seg ∈ split_runs sep b s → all_chars (λ c, negb (sep c)) seg = true.
Proof.
  revert b seg. induction s as [|c s IH]; intros b seg; simpl.
  - by intros ->%list_elem_of_singleton.
  - destruct (sep c) eqn:Hc.
    + destruct b; [apply IH |].
      intros [-> | H]%elem_of_cons; [done | by eapply IH].
    + pose proof (IH false) as IH'.
      destruct (split_runs sep false s) as [|x xs].
      * intros ->%list_elem_of_singleton. simpl. by rewrite Hc.
      * intros [-> | H]%elem_of_cons.
        -- simpl. rewrite Hc. simpl. apply IH'. by left.
        -- apply IH'. by right.
Qed.

Lemma split_runs_whole (sep : ascii → bool) (s : string) :
  all_chars (λ c, negb (sep c)) s = true → split_runs sep false s = [s].
Proof.
  induction s as [|c s IH]; simpl; [done |].
  intros [Hc Hs]%andb_true_iff. apply negb_true_iff in Hc. rewrite Hc.
  by rewrite IH.
Qed.

End TextFacts.

(** ** GitHub credentials *)

Section AuthFacts.
Import Text Auth.
Variable getenv : string → option string.

Lemma or_none_some (s : string) :
  or_ (Some s) None = if String.eqb s "" then None else Some s.
Proof. unfold or_. simpl. by destruct (String.eqb s ""). Qed.

Lemma or_truthy (a b : option string) : truthy a = true → or_ a b = a.
Proof. unfold or_. by intros ->. Qed.

Lemma or_falsy (a b : option string) : truthy a = false → or_ a b = b.
Proof. unfold or_. by intros ->. Qed.

(** X1: The header dict of [_github_auth_headers] is empty when
    [_github_token] finds no token; otherwise it holds the one item
    [Authorization: Bearer <token>], for a token that is not empty and has
    no white space at either end. *)
Theorem auth_header_shape (cli_token : option string) :
  match _github_token getenv cli_token with
  | Some token =>
      _github_auth_headers getenv cli_token
      = [("Authorization", "Bearer " +:+ token)]
      ∧ token ≠ "" ∧ strip token = token
  | None => _github_auth_headers getenv cli_token = []
  end.
Proof.
  unfold _github_auth_headers, _github_token.
  set (chosen := or_ _ (Some "")). rewrite or_none_some.
  destruct (String.eqb_spec (strip (default "" chosen)) "") as [E | E]; [done |].
  simpl. apply String.eqb_neq in E as E'. rewrite E'. simpl.
  split; [done |]. split; [done |]. apply (strip_by_idem isspace).
Qed.

(** X2: A [--github-token] value that is not the empty string decides alone:
    [GH_TOKEN] and [GITHUB_TOKEN] are not consulted, and a value of white
    space only means no token at all. *)
Theorem cli_token_shadows_env (cli_token : string) :
  cli_token ≠ "" →
  _github_token getenv (Some cli_token)
  = if String.eqb (strip cli_token) "" then None else Some (strip cli_token).
Proof.
  intros H%String.eqb_neq. unfold _github_token.
  assert (truthy (Some cli_token) = true) as Ht by (simpl; by rewrite H).
  do 3 rewrite (or_truthy (Some cli_token)) by done.
  by rewrite or_none_some.
Qed.

(** X3: Without a command line value the first of [GH_TOKEN] and
    [GITHUB_TOKEN] that is set to a non-empty string is the one stripped
    and returned. *)
Theorem env_token_order (cli_token : option string) (gh : string) :
  truthy cli_token = false → getenv "GH_TOKEN" = Some gh → gh ≠ "" →
  _github_token getenv cli_token
  = if String.eqb (strip gh) "" then None else Some (strip gh).
Proof.
  intros Hc Hg H%String.eqb_neq. unfold _github_token.
  assert (truthy (Some gh) = true) as Ht by (simpl; by rewrite H).
  rewrite Hg, (or_falsy cli_token) by done.
  do 2 rewrite (or_truthy (Some gh)) by done.
  by rewrite or_none_some.
Qed.
End AuthFacts.

Lemma cli_token_shadows_env_witness :
  Auth._github_token (λ _, Some "ghp_from_env") (Some "   ") = None
  ∧ Auth._github_token (λ _, Some "ghp_from_env") (Some " ghp_cli ")
    = Some "ghp_cli".
Proof.
  split.
  - exact (cli_token_shadows_env (λ _, Some "ghp_from_env") "   "
             ltac:(discriminate)).
  - exact (cli_token_shadows_env (λ _, Some "ghp_from_env") " ghp_cli "
             ltac:(discriminate)).
Defined.

Lemma env_token_order_witness :
  Auth._github_token
    (λ k, if String.eqb k "GH_TOKEN" then Some "first " else Some "second")
    (Some "")
  = Some "first".
Proof.
  exact (env_token_order
           (λ k, if String.eqb k "GH_TOKEN" then Some "first " else Some "second")
           (Some "") "first " eq_refl eq_refl ltac:(discriminate)).
Defined.

(** ** The values of [--ai] *)

Section TokenFacts.
Import Text Cli.

Lemma lower_char_separator (c : ascii) :
  negb (is_separator c) = true → negb (is_separator (lower_char c)) = true.
Proof.
  assert (implb (negb (is_separator c)) (negb (is_separator (lower_char c)))
          = true) as H.
  { destruct c as [[] [] [] [] [] [] [] []]; reflexivity. }
  intros Hc. by rewrite Hc in H.
Qed.

Lemma lower_char_wrapper (c : ascii) :
  char_in (lower_char c) wrappers = char_in c wrappers.
Proof. destruct c as [[] [] [] [] [] [] [] []]; reflexivity. Qed.

Lemma wrapper_bracket (c : ascii) :
  char_in c wrappers = false → Ascii.eqb c "["%char = false.
Proof.
  assert (implb (negb (char_in c wrappers)) (negb (Ascii.eqb c "["%char))
          = true) as H.
  { destruct c as [[] [] [] [] [] [] [] []]; reflexivity. }
  intros Hc. rewrite Hc in H. by apply negb_true_iff in H.
Qed.

Lemma tokenize_elem (raw t : string) :
  t ∈ _tokenize_ai_value (Some raw) →
  ∃ token segment,
    segment ∈ split_runs is_separator false token
    ∧ strip_chars wrappers (strip segment) ≠ ""
    ∧ t = lower (strip_chars wrappers (strip segment)).
Proof.
  unfold _tokenize_ai_value.
  destruct (String.eqb (strip raw) ""); [by intros ?%elem_of_nil |].
  match goal with
  | |- context [split_runs is_separator false ?x] => set (token := x)
  end.
  intros (part & <- & Hpart)%list_elem_of_In%in_map_iff.
  apply filter_In in Hpart as [Hpart Hne].
  apply in_map_iff in Hpart as (segment & <- & Hseg).
  apply filter_In in Hseg as [Hseg _].
  exists token, segment. split_and!; [by apply list_elem_of_In | | done].
  by apply negb_true_iff, String.eqb_neq in Hne.
Qed.

Lemma token_is_clean (raw t : string) :
  t ∈ _tokenize_ai_value (Some raw) → clean t.
Proof.
  intros (token & segment & Hseg & Hne & ->)%tokenize_elem.
  apply split_runs_pieces in Hseg.
  set (part := strip_chars wrappers (strip segment)) in *.
  assert (all_chars (λ c, negb (is_separator c)) part = true) as Hall.
  { by apply all_chars_strip, all_chars_strip. }
  destruct (strip_by_ends (λ c, char_in c wrappers) (strip segment))
    as [Hhead Hlast].
  split_and!.
  - by intros ?%lower_nonempty.
  - apply all_chars_lower; [apply lower_char_separator | done].
  - intros c. rewrite head_lower.
    destruct (head_char part) as [c0 |] eqn:E; [| done].
    intros [= <-]. rewrite lower_char_wrapper. by apply Hhead.
  - intros c. rewrite last_lower.
    destruct (last_char part) as [c0 |] eqn:E; [| done].
    intros [= <-]. rewrite lower_char_wrapper. by apply Hlast.
  - apply lower_idem.
Qed.

Lemma separator_space (c : ascii) : is_separator c = false → isspace c = false.
Proof. unfold is_separator. by intros [? _]%orb_false_iff. Qed.

Lemma clean_strip (t : string) :
  all_chars (λ c, negb (is_separator c)) t = true → strip t = t.
Proof.
  intros Hall. apply strip_by_fixed; intros c Hc; apply separator_space.
  - by apply negb_true_iff, (all_chars_head (λ c, negb (is_separator c)) t).
  - by apply negb_true_iff, (all_chars_last (λ c, negb (is_separator c)) t).
Qed.

Lemma tokenize_clean (t : string) :
  clean t → _tokenize_ai_value (Some t) = [t].
Proof.
  intros (Hne & Hall & Hhead & Hlast & Hlow).
  unfold _tokenize_ai_value. rewrite clean_strip by done.
  apply String.eqb_neq in Hne as Hne'. rewrite Hne'.
  assert (Str.startswith t "[" = false) as ->.
  { destruct (Str.startswith t "[") eqn:E; [| done].
    apply prefix_spec in E as [post ->].
    specialize (Hhead "["%char eq_refl). by apply wrapper_bracket in Hhead. }
  assert (strip_chars wrappers t = t) as Hs by (by apply strip_by_fixed).
  simpl andb. cbv iota. rewrite split_runs_whole by done.
  cbn [List.filter]. rewrite clean_strip by done. rewrite Hne'.
  cbn [negb map]. rewrite clean_strip by done. rewrite Hs.
  cbn [List.filter]. rewrite Hne'.
  cbn [negb map]. by rewrite Hlow.
Qed.

(** X4: Every key [_tokenize_ai_value] returns is clean: it is not empty, holds
    no white space and no comma, neither starts nor ends with a square
    bracket or a quote, and is in lower case.  Such a key is a fixed point:
    given back to [_tokenize_ai_value], it is its only token. *)
Theorem tokens_clean (raw : option string) (t : string) :
  t ∈ _tokenize_ai_value raw →
  clean t ∧ _tokenize_ai_value (Some t) = [t].
Proof.
  destruct raw as [raw |]; [| by intros ?%elem_of_nil].
  intros H%token_is_clean. split; [done | by apply tokenize_clean].
Qed.

(** *** [parse_ai_option_values] *)

Lemma note_token_spec (ordered : list string) (seen : gset string) (t : string) :
  NoDup ordered → (∀ x, x ∈ seen ↔ x ∈ ordered) →
  let acc := note_token (ordered, seen) t in
  NoDup acc.1 ∧ (∀ x, x ∈ acc.2 ↔ x ∈ acc.1)
  ∧ (∀ x, x ∈ acc.1 ↔ x ∈ ordered ∨ x = t)
  ∧ (t ∉ ordered → acc.1 = ordered ++ [t]).
Proof.
  intros Hnd Hseen. unfold note_token. case_bool_decide as Ht; simpl.
  - rewrite Hseen in Ht. split_and!.
    + apply NoDup_app. split_and!; [done | | apply NoDup_singleton].
      intros x Hx ->%list_elem_of_singleton. done.
    + intros x. rewrite elem_of_union, elem_of_singleton, elem_of_app,
        list_elem_of_singleton, Hseen. tauto.
    + intros x. by rewrite elem_of_app, list_elem_of_singleton.
    + done.
  - rewrite Hseen in Ht. split_and!; [done | done | |].
    + intros x. split; [by left |]. by intros [? | ->].
    + done.
Qed.

Lemma note_tokens_spec (tokens : list string) :
  ∀ (ordered : list string) (seen : gset string),
    NoDup ordered → (∀ x, x ∈ seen ↔ x ∈ ordered) →
    let acc := foldl note_token (ordered, seen) tokens in
    NoDup acc.1 ∧ (∀ x, x ∈ acc.2 ↔ x ∈ acc.1)
    ∧ (∀ x, x ∈ acc.1 ↔ x ∈ ordered ∨ x ∈ tokens).
Proof.
  induction tokens as [|t tokens IH]; intros ordered seen Hnd Hseen acc;
    subst acc; cbn [foldl].
  - split_and!; [done | done |]. intros x. rewrite elem_of_nil. simpl. tauto.
  - destruct (note_token_spec ordered seen t Hnd Hseen) as (H1 & H2 & H3 & _).
    destruct (note_token (ordered, seen) t) as [ordered' seen'].
    destruct (IH ordered' seen' H1 H2) as (H4 & H5 & H6).
    simpl in H1, H2, H3. split; [exact H4 |]. split; [exact H5 |].
    intros x. rewrite H6, H3, elem_of_cons. tauto.
Qed.

Lemma parse_loop_spec (raws : list string) :
  ∀ (ordered : list string) (seen : gset string),
    NoDup ordered → (∀ x, x ∈ seen ↔ x ∈ ordered) →
    let acc :=
      foldl (λ acc raw, foldl note_token acc (_tokenize_ai_value (Some raw)))
            (ordered, seen) raws in
    NoDup acc.1 ∧ (∀ x, x ∈ acc.2 ↔ x ∈ acc.1)
    ∧ (∀ x, x ∈ acc.1 ↔ x ∈ ordered ∨ x ∈ tokens_of raws).
Proof.
  induction raws as [|raw raws IH]; intros ordered seen Hnd Hseen acc;
    subst acc; cbn [foldl].
  - split_and!; [done | done |]. intros x. unfold tokens_of. simpl.
    rewrite elem_of_nil. tauto.
  - destruct (note_tokens_spec (_tokenize_ai_value (Some raw)) ordered seen
                Hnd Hseen) as (H1 & H2 & H3).
    destruct (foldl note_token (ordered, seen) _) as [ordered' seen'].
    destruct (IH ordered' seen' H1 H2) as (H4 & H5 & H6).
    simpl in H1, H2, H3. split; [exact H4 |]. split; [exact H5 |].
    intros x. rewrite H6, H3. unfold tokens_of. simpl.
    rewrite elem_of_app. tauto.
Qed.

Lemma parse_spec (raws : list string) :
  NoDup (parse_ai_option_values (Some raws))
  ∧ ∀ x, x ∈ parse_ai_option_values (Some raws) ↔ x ∈ tokens_of raws.
Proof.
  destruct raws as [|raw raws].
  - simpl. split; [constructor | done].
  - destruct (parse_loop_spec (raw :: raws) [] ∅ (NoDup_nil_2)) as (H1 & _ & H3).
    { intros x. by rewrite elem_of_empty, elem_of_nil. }
    split; [exact H1 |]. intros x. unfold parse_ai_option_values.
    rewrite H3, elem_of_nil. tauto.
Qed.

Lemma tokens_of_elem (raws : list string) (t : string) :
  t ∈ tokens_of raws ↔ ∃ raw, raw ∈ raws ∧ t ∈ _tokenize_ai_value (Some raw).
Proof.
  unfold tokens_of. induction raws as [|raw raws IH]; simpl.
  - rewrite elem_of_nil. split; [done |]. by intros (? & ?%elem_of_nil & _).
  - rewrite elem_of_app, IH. split.
    + intros [H | (r & Hr & H)]; [exists raw | exists r];
        (split; [| done]); [by left | by right].
    + intros (r & [-> | Hr]%elem_of_cons & H); [by left |]. right. eauto.
Qed.

(** X5: [parse_ai_option_values] returns no key twice, and its keys are the
    tokens of the values it was given, nothing more and nothing less. *)
Theorem parse_distinct_tokens (raw_values : option (list string)) :
  NoDup (parse_ai_option_values raw_values)
  ∧ ∀ t, t ∈ parse_ai_option_values raw_values
         ↔ ∃ raws raw, raw_values = Some raws ∧ raw ∈ raws
                       ∧ t ∈ _tokenize_ai_value (Some raw).
Proof.
  destruct raw_values as [raws |].
  - destruct (parse_spec raws) as [H1 H2]. split; [done |].
    intros t. rewrite H2, tokens_of_elem. split.
    + intros (raw & ? & ?). by exists raws, raw.
    + intros (raws' & raw & [= <-] & ? & ?). by exists raw.
  - split; [constructor |]. intros t. simpl. rewrite elem_of_nil.
    split; [done |]. by intros (? & ? & ? & _).
Qed.

Lemma parse_loop_clean (l : list string) :
  ∀ (ordered : list string) (seen : gset string),
    NoDup (ordered ++ l) → (∀ x, x ∈ seen ↔ x ∈ ordered) →
    Forall clean l →
    (foldl (λ acc raw, foldl note_token acc (_tokenize_ai_value (Some raw)))
           (ordered, seen) l).1
    = ordered ++ l.
Proof.
  induction l as [|t l IH]; intros ordered seen Hnd Hseen Hclean; cbn [foldl].
  - simpl. by rewrite app_nil_r.
  - apply Forall_cons in Hclean as [Ht Hl]. rewrite tokenize_clean by done.
    cbn [foldl]. apply NoDup_app in Hnd as Hnd'. destruct Hnd' as (Ho & Hdis & _).
    destruct (note_token_spec ordered seen t Ho Hseen) as (H1 & H2 & _ & H4).
    destruct (note_token (ordered, seen) t) as [ordered' seen'].
    simpl in *. rewrite H4 by (intros Hin; eapply Hdis; [done | by left]).
    rewrite H4 in H1, H2 by (intros Hin; eapply Hdis; [done | by left]).
    rewrite IH; [by rewrite <- app_assoc | by rewrite <- app_assoc | done | done].
Qed.

(** X6: Parsing is idempotent: the keys [parse_ai_option_values] returns,
    given back to it as values, come out as they are, in the same order. *)
Theorem parse_idempotent (raw_values : option (list string)) :
  parse_ai_option_values (Some (parse_ai_option_values raw_values))
  = parse_ai_option_values raw_values.
Proof.
  assert (NoDup (parse_ai_option_values raw_values)
          ∧ Forall clean (parse_ai_option_values raw_values)) as [Hnd Hclean].
  { destruct raw_values as [raws |]; [| by split; constructor].
    destruct (parse_spec raws) as [H1 H2]. split; [done |].
    apply Forall_forall. intros t (raw & _ & Ht)%H2%tokens_of_elem.
    by eapply token_is_clean. }
  destruct (parse_ai_option_values raw_values) as [|t l] eqn:E; [done |].
  unfold parse_ai_option_values at 1. rewrite parse_loop_clean; try done.
  intros x. by rewrite elem_of_empty, elem_of_nil.
Qed.
End TokenFacts.

Lemma tokens_clean_witness :
  Cli.clean "claude" ∧ Cli._tokenize_ai_value (Some "claude") = ["claude"].
Proof.
  apply (tokens_clean (Some " [Claude, 'copilot'] ") "claude").
  vm_compute. by left.
Defined.

(** ** Labels, the selection of agents, the template repository *)

Section CliFacts.
Import Text Cli.
#[local] Arguments String.append : simpl nomatch.

Lemma member_elem (x : string) (l : list string) : member x l = true ↔ x ∈ l.
Proof.
  unfold member. rewrite existsb_exists. split.
  - intros (y & Hy & ->%String.eqb_eq). by apply list_elem_of_In.
  - intros H. exists x. split; [by apply list_elem_of_In | apply String.eqb_refl].
Qed.

Lemma member_not_elem (x : string) (l : list string) :
  member x l = false ↔ x ∉ l.
Proof. rewrite <- member_elem. by destruct (member x l). Qed.

Lemma contains_empty (s : string) : Str.contains "" s = true.
Proof. by destruct s. Qed.

Lemma removelast_last (l : list string) :
  l ≠ [] → l = removelast l ++ [List.last l ""].
Proof. intros H. by apply app_removelast_last. Qed.

Lemma filter_nonempty_elem (items : list string) (x : string) :
  x ∈ List.filter (λ item, negb (String.eqb item "")) items ↔ x ∈ items ∧ x ≠ "".
Proof.
  rewrite !list_elem_of_In, filter_In, negb_true_iff, String.eqb_neq. done.
Qed.

(** X7: [human_join] names every item it is given, and its answer is the
    empty string only when every item is. *)
Theorem human_join_mentions (items : list string) :
  (∀ x, x ∈ items → Str.contains x (human_join items) = true)
  ∧ (human_join items = "" ↔ Forall (λ item, item = "") items).
Proof.
  unfold human_join.
  pose proof (filter_nonempty_elem items) as Hf.
  destruct (List.filter _ items) as [|a [|b filtered]] eqn:E.
  - split.
    + intros x Hx. destruct (String.eqb_spec x "") as [-> | Hne]; [done |].
      pose proof (proj2 (Hf x) (conj Hx Hne)) as Hin.
      by apply elem_of_nil in Hin.
    + split; [| done]. intros _. apply Forall_forall. intros x Hx.
      destruct (String.eqb_spec x "") as [-> | Hne]; [done |].
      pose proof (proj2 (Hf x) (conj Hx Hne)) as Hin.
      by apply elem_of_nil in Hin.
  - split.
    + intros x Hx. destruct (String.eqb_spec x "") as [-> | Hne].
      { apply contains_empty. }
      pose proof (proj2 (Hf x) (conj Hx Hne)) as ->%list_elem_of_singleton.
      apply contains_refl.
    + assert (a ∈ items ∧ a ≠ "") as [Ha Hne] by (apply Hf; by left).
      split; [done |]. intros Hall. by apply (proj1 (Forall_forall _ _) Hall) in Ha.
  - set (l := a :: b :: filtered) in *.
    assert (l ≠ []) as Hl by done.
    split.
    + intros x Hx. destruct (String.eqb_spec x "") as [-> | Hne].
      { apply contains_empty. }
      assert (x ∈ l) as Hin by (by apply Hf).
      rewrite (removelast_last l Hl) in Hin.
      apply elem_of_app in Hin as [Hin | ->%list_elem_of_singleton].
      * apply contains_app_l, contains_join. by apply list_elem_of_In.
      * apply contains_app_r, contains_app_r, contains_refl.
    + assert (a ∈ items ∧ a ≠ "") as [Ha Hne] by (apply Hf; by left).
      split.
      * intros H%(f_equal String.length). rewrite !app_length in H.
        simpl in H. lia.
      * intros Hall. by apply (proj1 (Forall_forall _ _) Hall) in Ha.
Qed.

(** *** The selection of agents *)

Lemma check_ais_spec (selected_ais : list string) :
  ∀ normalized_ais,
    NoDup normalized_ais →
    match check_ais selected_ais normalized_ais with
    | Some l =>
        NoDup l
        ∧ (∀ k, k ∈ l ↔ k ∈ normalized_ais ∨ k ∈ selected_ais)
        ∧ (∀ k, k ∈ selected_ais → k ∈ keys AI_CHOICES)
    | None => ∃ k, k ∈ selected_ais ∧ k ∉ keys AI_CHOICES
    end.
Proof.
  induction selected_ais as [|ai_key rest IH]; intros normalized_ais Hnd;
    cbn [check_ais].
  - split_and!; [done | |].
    + intros k. rewrite elem_of_nil. tauto.
    + by intros k ?%elem_of_nil.
  - destruct (member ai_key (keys AI_CHOICES)) eqn:Hvalid; cbn [negb].
    + apply member_elem in Hvalid.
      destruct (member ai_key normalized_ais) eqn:Hseen; cbn [negb].
      * apply member_elem in Hseen. specialize (IH normalized_ais Hnd).
        destruct (check_ais rest normalized_ais) as [l |].
        -- destruct IH as (H1 & H2 & H3). split_and!; [done | |].
           ++ intros k. rewrite H2, elem_of_cons. split; [tauto |].
              intros [? | [-> | ?]]; tauto.
           ++ intros k [-> | ?]%elem_of_cons; auto.
        -- destruct IH as (k & Hk & Hbad). exists k. split; [by right | done].
      * apply member_not_elem in Hseen.
        assert (NoDup (normalized_ais ++ [ai_key])) as Hnd'.
        { apply NoDup_app. split_and!; [done | | apply NoDup_singleton].
          by intros x Hx ->%list_elem_of_singleton. }
        specialize (IH _ Hnd').
        destruct (check_ais rest (normalized_ais ++ [ai_key])) as [l |].
        -- destruct IH as (H1 & H2 & H3). split_and!; [done | |].
           ++ intros k. rewrite H2, elem_of_app, list_elem_of_singleton,
                elem_of_cons. tauto.
           ++ intros k [-> | ?]%elem_of_cons; auto.
        -- destruct IH as (k & Hk & Hbad). exists k. split; [by right | done].
    + apply member_not_elem in Hvalid. exists ai_key. split; [by left | done].
Qed.

Lemma check_ais_distinct (selected_ais : list string) :
  ∀ normalized_ais,
    NoDup (normalized_ais ++ selected_ais) →
    (∀ k, k ∈ selected_ais → k ∈ keys AI_CHOICES) →
    check_ais selected_ais normalized_ais = Some (normalized_ais ++ selected_ais).
Proof.
  induction selected_ais as [|ai_key rest IH]; intros normalized_ais Hnd Hvalid;
    cbn [check_ais].
  - by rewrite app_nil_r.
  - assert (member ai_key (keys AI_CHOICES) = true) as ->.
    { apply member_elem, Hvalid. by left. }
    assert (member ai_key normalized_ais = false) as ->.
    { apply member_not_elem. apply NoDup_app in Hnd as (_ & Hdis & _).
      intros Hin. eapply Hdis; [done | by left]. }
    cbn [negb]. rewrite IH.
    + by rewrite <- app_assoc.
    + by rewrite <- app_assoc.
    + intros k Hk. apply Hvalid. by right.
Qed.

(** X8: The selection [init] goes on with is never empty, names no agent
    twice and only agents of [AI_CHOICES]; it holds the keys it was given,
    and it is [["copilot"]] when it was given none.  [init] leaves through
    [typer.Exit(1)] when a key is not in [AI_CHOICES]. *)
Theorem normalize_ais_valid (selected_ais : list string) :
  match normalize_ais selected_ais with
  | Some l =>
      l ≠ [] ∧ NoDup l
      ∧ (∀ k, k ∈ l → k ∈ keys AI_CHOICES)
      ∧ (∀ k, k ∈ selected_ais → k ∈ l)
      ∧ (selected_ais ≠ [] → ∀ k, k ∈ l → k ∈ selected_ais)
      ∧ (selected_ais = [] → l = ["copilot"])
  | None => ∃ k, k ∈ selected_ais ∧ k ∉ keys AI_CHOICES
  end.
Proof.
  assert (selected_ais = [] → normalize_ais selected_ais = Some ["copilot"])
    as Hnone by (by intros ->).
  unfold normalize_ais in *.
  pose proof (check_ais_spec selected_ais [] (NoDup_nil_2)) as H.
  destruct (check_ais selected_ais []) as [[|a l] |].
  - destruct H as (_ & H2 & _).
    split_and!; [done | apply NoDup_singleton | | | | done].
    + intros k ->%list_elem_of_singleton. vm_compute. by left.
    + intros k Hk. exfalso. eapply elem_of_nil, H2. by right.
    + intros Hne. destruct selected_ais as [|x xs]; [done |].
      exfalso. eapply elem_of_nil, H2. right. by left.
  - destruct H as (H1 & H2 & H3). split_and!; [done | done | | | |].
    + intros k [[]%elem_of_nil | Hk]%H2. by apply H3.
    + intros k Hk. apply H2. by right.
    + by intros _ k [[]%elem_of_nil | Hk]%H2.
    + intros Hempty. specialize (Hnone Hempty). by simplify_eq.
  - done.
Qed.

(** X9: The keys read from [--ai], when there are some and all of them are
    agents of [AI_CHOICES], are the selection, as they are and in their
    order. *)
Theorem parsed_selection_kept (raw_values : option (list string)) :
  let parsed := parse_ai_option_values raw_values in
  parsed ≠ [] → (∀ k, k ∈ parsed → k ∈ keys AI_CHOICES) →
  normalize_ais parsed = Some parsed.
Proof.
  intros parsed Hne Hvalid. unfold normalize_ais.
  assert (NoDup parsed) as Hnd.
  { subst parsed. destruct raw_values as [raws |]; [| constructor].
    apply parse_spec. }
  rewrite check_ais_distinct by done. simpl. by destruct parsed.
Qed.

(** *** The template repository *)

Lemma contains_char (c : ascii) (s : string) :
  Str.contains (String c "") s
  = negb (all_chars (λ d, negb (Ascii.eqb d c)) s).
Proof.
  induction s as [|d s IH]; [done |].
  rewrite contains_cons, IH. simpl.
  destruct (ascii_dec c d) as [-> | Hne].
  - rewrite Ascii.eqb_refl. by destruct s.
  - assert (Ascii.eqb d c = false) as -> by (by apply Ascii.eqb_neq).
    done.
Qed.

Lemma split_once_spec (c : ascii) (s : string) :
  match split_once c s with
  | [a] => a = s ∧ Str.contains (String c "") s = false
  | [a; b] => s = a +:+ String c b ∧ Str.contains (String c "") a = false
  | _ => False
  end.
Proof.
  induction s as [|d s IH]; simpl split_once; [done |].
  destruct (Ascii.eqb_spec d c) as [-> | Hne]; [done |].
  assert (Ascii.eqb d c = false) as Hdc by (by apply Ascii.eqb_neq).
  destruct (split_once c s) as [|a [|b [|x xs]]]; [done | | | done].
  - destruct IH as [-> IH]. split; [done |].
    rewrite contains_char in *. simpl. by rewrite Hdc.
  - destruct IH as [-> IH]. split; [done |].
    rewrite contains_char in *. simpl. by rewrite Hdc.
Qed.

(** X10: The template repository is split at its first slash: owner and name,
    put together again with a slash, are the value [init] started from,
    and the owner holds no slash.  A value without a slash ends [init]
    with [typer.Exit(1)]. *)
Theorem split_repo_round_trip (template_repo env_template_repo : option string) :
  let repo_spec :=
    default "" (or_ (or_ template_repo env_template_repo)
                    (Some "Jrakru/spec-kit")) in
  match split_repo template_repo env_template_repo with
  | Some (repo_owner, repo_name) =>
      repo_spec = repo_owner +:+ "/" +:+ repo_name
      ∧ Str.contains "/" repo_owner = false
  | None => Str.contains "/" repo_spec = false
  end.
Proof.
  intros repo_spec. unfold split_repo. fold repo_spec.
  pose proof (split_once_spec "/"%char repo_spec) as H.
  destruct (split_once "/"%char repo_spec) as [|a [|b [|x xs]]]; [done | | | done].
  - by destruct H as [-> H].
  - done.
Qed.
End CliFacts.

Lemma parsed_selection_kept_witness :
  Cli.normalize_ais ["claude"; "copilot"] = Some ["claude"; "copilot"].
Proof.
  apply (parsed_selection_kept (Some ["Claude, copilot"; "CLAUDE"])).
  - vm_compute. discriminate.
  - vm_compute. intros k Hk.
    repeat (apply elem_of_cons in Hk as [-> | Hk]; [set_solver |]).
    by apply elem_of_nil in Hk.
Defined.

(** ** The step tracker *)

Section TrackerFacts.
Import Tracker.

Lemma steps_refresh (t : StepTracker) : steps (_maybe_refresh t) = steps t.
Proof. unfold _maybe_refresh. by destruct (_refresh_cb t). Qed.

Lemma existsb_keys (k : string) (l : list step) :
  existsb (String.eqb k) (map key l) = true ↔ k ∈ map key l.
Proof.
  rewrite existsb_exists. split.
  - intros (y & Hy & ->%String.eqb_eq). by apply list_elem_of_In.
  - intros H. exists k. split; [by apply list_elem_of_In | apply String.eqb_refl].
Qed.

Lemma update_first_keys (k st d : string) (l l' : list step) :
  update_first k st d l = Some l' →
  map (λ s, (key s, label s)) l' = map (λ s, (key s, label s)) l.
Proof.
  revert l'. induction l as [|s rest IH]; intros l'; simpl; [done |].
  destruct (String.eqb (key s) k).
  - by intros [= <-].
  - destruct (update_first k st d rest) as [rest' |]; [| done].
    intros [= <-]. simpl. by rewrite (IH rest').
Qed.

Lemma update_first_none (k st d : string) (l : list step) :
  update_first k st d l = None → k ∉ map key l.
Proof.
  induction l as [|s rest IH]; simpl; [by intros _ ?%elem_of_nil |].
  destruct (String.eqb_spec (key s) k) as [E | E]; [done |].
  destruct (update_first k st d rest); [done |].
  intros _ [-> | H]%elem_of_cons; [done | by apply IH].
Qed.

Lemma map_key_pairs (l l' : list step) :
  map (λ s, (key s, label s)) l' = map (λ s, (key s, label s)) l →
  map key l' = map key l.
Proof.
  intros H. apply (f_equal (map fst)) in H. by rewrite !map_map in H.
Qed.

Lemma perform_cases (c : call) (t : StepTracker) :
  map (λ s, (key s, label s)) (steps (perform c t))
  = map (λ s, (key s, label s)) (steps t)
  ∨ ∃ k l, (k ∉ map key (steps t))
           ∧ map (λ s, (key s, label s)) (steps (perform c t))
             = map (λ s, (key s, label s)) (steps t) ++ [(k, l)].
Proof.
  assert (∀ k st d,
    map (λ s, (key s, label s)) (steps (_update k st d t))
    = map (λ s, (key s, label s)) (steps t)
    ∨ ∃ k' l, (k' ∉ map key (steps t))
              ∧ map (λ s, (key s, label s)) (steps (_update k st d t))
                = map (λ s, (key s, label s)) (steps t) ++ [(k', l)]) as Hupd.
  { intros k st d. unfold _update.
    destruct (update_first k st d (steps t)) as [steps' |] eqn:E;
      rewrite steps_refresh; simpl.
    - left. by eapply update_first_keys.
    - right. exists k, k. split; [by eapply update_first_none |].
      by rewrite map_app. }
  destruct c as [| k l | k d | k d | k d | k d]; simpl;
    [by left | | apply Hupd ..].
  unfold add. destruct (existsb _ _) eqn:E; [by left |].
  right. exists k, l. rewrite steps_refresh. simpl. split; [| by rewrite map_app].
  intros Hin%existsb_keys. congruence.
Qed.

(** X11: Whatever calls a tracker receives, no two of its steps have the same
    key. *)
Theorem tracker_keys_unique (title : string) (calls : list call) :
  NoDup (map key (steps (run calls (__init__ title)))).
Proof.
  unfold run.
  assert (NoDup (map key (steps (__init__ title)))) as H by constructor.
  revert H. generalize (__init__ title).
  induction calls as [|c calls IH]; intros t Hnd; simpl; [done |].
  apply IH. destruct (perform_cases c t) as [E | (k & l & Hk & E)].
  - by rewrite (map_key_pairs _ _ E).
  - apply (f_equal (map fst)) in E. rewrite map_app, !map_map in E.
    simpl in E. change (map (λ s, key s) ?l) with (map key l) in E.
    rewrite E. apply NoDup_app. split_and!; [done | | apply NoDup_singleton].
    by intros x Hx ->%list_elem_of_singleton.
Qed.

(** X12: Steps are never removed, reordered or relabelled: the keys and labels
    a tracker shows before a sequence of calls are the first ones it shows
    after it. *)
Theorem tracker_keeps_order (calls : list call) (t : StepTracker) :
  map (λ s, (key s, label s)) (steps t)
  `prefix_of` map (λ s, (key s, label s)) (steps (run calls t)).
Proof.
  unfold run. revert t. induction calls as [|c calls IH]; intros t; simpl; [done |].
  etrans; [| apply IH].
  destruct (perform_cases c t) as [-> | (k & l & _ & ->)]; [done |].
  by apply prefix_app_r.
Qed.

Lemma find_update_first (k st d : string) (l l' : list step) :
  update_first k st d l = Some l' →
  ∃ s, List.find (λ s, String.eqb (key s) k) l = Some s
       ∧ List.find (λ s, String.eqb (key s) k) l'
         = Some {| key := k; label := label s; status := st;
                   detail := if String.eqb d "" then detail s else d |}
       ∧ ∀ k', k' ≠ k →
           List.find (λ s, String.eqb (key s) k') l'
           = List.find (λ s, String.eqb (key s) k') l.
Proof.
  revert l'. induction l as [|s rest IH]; intros l'; simpl; [done |].
  destruct (String.eqb_spec (key s) k) as [E | E].
  - intros [= <-]. exists s. simpl. rewrite E, String.eqb_refl.
    split_and!; [done | done |]. intros k' Hk'.
    destruct (String.eqb_spec k k'); congruence.
  - destruct (update_first k st d rest) as [rest' |]; [| done].
    intros [= <-]. destruct (IH rest' eq_refl) as (s0 & H1 & H2 & H3).
    exists s0. simpl. apply String.eqb_neq in E. rewrite E.
    split_and!; [done | done |]. intros k' Hk'. by rewrite H3.
Qed.

Lemma find_absent (k : string) (l : list step) :
  k ∉ map key l → List.find (λ s, String.eqb (key s) k) l = None.
Proof.
  induction l as [|s rest IH]; simpl; [done |]. intros H.
  destruct (String.eqb_spec (key s) k) as [E | E].
  - exfalso. apply H. rewrite E. by left.
  - apply IH. intros Hin. apply H. by right.
Qed.

Lemma find_snoc (k' : string) (l : list step) (s : step) :
  List.find (λ s, String.eqb (key s) k') (l ++ [s])
  = match List.find (λ s, String.eqb (key s) k') l with
    | Some s' => Some s'
    | None => if String.eqb (key s) k' then Some s else None
    end.
Proof.
  induction l as [|s0 rest IH]; simpl; [done |].
  by destruct (String.eqb (key s0) k').
Qed.

(** X13: After [_update] the step of the key carries the new status; it keeps
    its label, and its detail too when the new detail is empty; a key
    that had no step gets one, labelled with the key itself.  The steps
    of the other keys are as they were. *)
Theorem update_then_lookup (k st d : string) (t : StepTracker) :
  step_of k (_update k st d t)
  = Some {| key := k;
            label := from_option label k (step_of k t);
            status := st;
            detail := if String.eqb d ""
                      then from_option detail "" (step_of k t) else d |}
  ∧ ∀ k', k' ≠ k → step_of k' (_update k st d t) = step_of k' t.
Proof.
  unfold step_of, _update.
  destruct (update_first k st d (steps t)) as [steps' |] eqn:E;
    rewrite steps_refresh; simpl.
  - destruct (find_update_first _ _ _ _ _ E) as (s & H1 & H2 & H3).
    rewrite H1, H2. done.
  - apply update_first_none in E. apply find_absent in E as E'.
    rewrite E'. split.
    + rewrite find_snoc, E'. simpl. rewrite String.eqb_refl.
      by destruct (String.eqb_spec d "") as [-> | ?].
    + intros k' Hk'. rewrite find_snoc. simpl.
      destruct (List.find (λ s, String.eqb (key s) k') (steps t)); [done |].
      destruct (String.eqb_spec k k'); congruence.
Qed.

(** X14: [add] never resets a step: for a key that has a step the tracker is
    left as it is; for a new key the step is pending, with the label
    given.  The steps of the other keys are as they were. *)
Theorem add_never_resets (k l : string) (t : StepTracker) :
  (is_Some (step_of k t) → add k l t = t)
  ∧ step_of k (add k l t)
    = Some (default {| key := k; label := l; status := "pending"; detail := "" |}
                    (step_of k t))
  ∧ ∀ k', k' ≠ k → step_of k' (add k l t) = step_of k' t.
Proof.
  unfold step_of, add.
  destruct (existsb (String.eqb k) (map key (steps t))) eqn:E.
  - apply existsb_keys in E.
    destruct (List.find _ (steps t)) as [s |] eqn:Hf.
    + done.
    + exfalso. apply list_elem_of_In, in_map_iff in E as (s & <- & Hs).
      eapply find_none in Hf; [| exact Hs]. simpl in Hf.
      by rewrite String.eqb_refl in Hf.
  - assert (k ∉ map key (steps t)) as Hk.
    { intros Hin%existsb_keys. congruence. }
    apply find_absent in Hk as Hf. rewrite steps_refresh. simpl.
    rewrite Hf. split_and!.
    + by intros [? [=]].
    + rewrite find_snoc, Hf. simpl. by rewrite String.eqb_refl.
    + intros k' Hk'. rewrite find_snoc. simpl.
      destruct (List.find (λ s, String.eqb (key s) k') (steps t)); [done |].
      destruct (String.eqb_spec k k'); congruence.
Qed.
End TrackerFacts.

(** ** The interactive choice *)

Section SelectorFacts.
Import Text Cli Selector.
Variables UP DOWN ENTER ESC CTRL_C : string.

Abbreviation loop := (run_selection_loop UP DOWN ENTER ESC CTRL_C).
Abbreviation select := (select_with_arrows UP DOWN ENTER ESC CTRL_C).
Abbreviation pressed_as := (get_key UP DOWN ENTER ESC CTRL_C).

Lemma item_elem (l : list string) (i : Z) (k : string) :
  item l i = Some k → k ∈ l.
Proof.
  unfold item. destruct (_ && _).
  - apply list_elem_of_lookup_2.
  - destruct (_ && _); [apply list_elem_of_lookup_2 | done].
Qed.

Lemma item_in_range (l : list string) (i : Z) :
  0 ≤ i < Z.of_nat (length l) → is_Some (item l i).
Proof.
  intros Hi. unfold item.
  assert ((0 <=? i) && (i <? Z.of_nat (length l)) = true) as ->.
  { apply andb_true_iff. split; [apply Z.leb_le | apply Z.ltb_lt]; lia. }
  apply lookup_lt_is_Some. lia.
Qed.

Lemma index_range (x : string) (l : list string) :
  x ∈ l → 0 ≤ index x l < Z.of_nat (length l).
Proof.
  induction l as [|y l IH]; [by intros ?%elem_of_nil |].
  cbn [index length]. destruct (String.eqb_spec x y) as [-> | Hne].
  - lia.
  - intros [-> | Hin]%elem_of_cons; [done |]. specialize (IH Hin). lia.
Qed.

Lemma item_index (x : string) (l : list string) :
  x ∈ l → item l (index x l) = Some x.
Proof.
  intros Hin. pose proof (index_range x l Hin) as Hr. unfold item.
  assert ((0 <=? index x l) && (index x l <? Z.of_nat (length l)) = true) as ->.
  { apply andb_true_iff. split; [apply Z.leb_le | apply Z.ltb_lt]; lia. }
  clear Hr. induction l as [|y l IH]; [by apply elem_of_nil in Hin |].
  cbn [index]. destruct (String.eqb_spec x y) as [-> | Hne]; [done |].
  apply elem_of_cons in Hin as [-> | Hin]; [done |].
  pose proof (index_range x l Hin).
  replace (Z.to_nat (1 + index x l)) with (S (Z.to_nat (index x l))) by lia.
  simpl. by apply IH.
Qed.

Lemma loop_safe (option_keys : list string) (presses : list string) :
  option_keys ≠ [] →
  ∀ i, 0 ≤ i < Z.of_nat (length option_keys) →
    match (loop option_keys i presses).1 with
    | Selected k => k ∈ option_keys
    | Uncaught => False
    | _ => True
    end.
Proof.
  intros Hne. assert (0 < Z.of_nat (length option_keys)) as Hn.
  { destruct option_keys; [done |]. simpl. lia. }
  induction presses as [|raw rest IH]; intros i Hi; cbn [run_selection_loop];
    [done |].
  destruct (get_key _ _ _ _ _ raw) as [k |]; [| done].
  assert ((Z.of_nat (length option_keys) =? 0) = false) as -> by lia.
  destruct (String.eqb k "up").
  { apply IH. by apply Z.mod_pos_bound. }
  destruct (String.eqb k "down").
  { apply IH. by apply Z.mod_pos_bound. }
  destruct (String.eqb k "enter").
  { destruct (item_in_range option_keys i Hi) as [key Hkey]. rewrite Hkey.
    simpl. by eapply item_elem. }
  destruct (String.eqb k "escape"); [done |]. by apply IH.
Qed.

Lemma start_index (options : list (string * string)) (default_key : option string) :
  options ≠ [] →
  0 ≤ (if truthy default_key && member (default "" default_key) (keys options)
       then index (default "" default_key) (keys options) else 0)
    < Z.of_nat (length (keys options)).
Proof.
  intros Hne. destruct (truthy default_key && _) eqn:E.
  - apply andb_true_iff in E as [_ E]. by apply index_range, member_elem.
  - destruct options; [done |]. simpl. lia.
Qed.

Lemma select_safe (options : list (string * string))
    (default_key : option string) (presses : list string) :
  options ≠ [] →
  match (select options default_key presses).1 with
  | Selected k => k ∈ keys options
  | Uncaught => False
  | _ => True
  end.
Proof.
  intros Hne. unfold select_with_arrows. apply loop_safe.
  - by destruct options.
  - by apply start_index.
Qed.

(** X15: With at least one option, [select_with_arrows] ends with one of the
    option keys, with [typer.Exit], or it is still waiting for a key
    press; whatever is typed, no exception escapes it. *)
Theorem selection_in_options (options : list (string * string))
    (default_key : option string) (presses : list string) :
  options ≠ [] →
  match (select_with_arrows UP DOWN ENTER ESC CTRL_C
           options default_key presses).1 with
  | Selected k => k ∈ keys options
  | Exit code => code = 1
  | Uncaught => False
  | Waiting => True
  end.
Proof.
  intros Hne. pose proof (select_safe options default_key presses Hne) as H.
  destruct (select options default_key presses).1 as [k | code | |] eqn:E;
    [done | | done | done].
  clear H. unfold select_with_arrows in E. revert E.
  generalize (if truthy default_key && member (default "" default_key) (keys options)
              then index (default "" default_key) (keys options) else 0).
  induction presses as [|raw rest IH]; intros i; cbn [run_selection_loop]; [done |].
  destruct (get_key _ _ _ _ _ raw) as [k |]; [| by intros [= <-]].
  destruct (_ =? 0).
  - repeat (destruct (String.eqb k _); [try done; try apply IH |]);
      try (destruct (item _ _); done); try by intros [= <-].
    apply IH.
  - repeat (destruct (String.eqb k _); [try done; try apply IH |]);
      try (destruct (item _ _); done); try by intros [= <-].
    apply IH.
Qed.

(** X16: Enter, pressed first, confirms the default key when it is one of the
    options, and the first option otherwise. *)
Theorem enter_confirms_default (options : list (string * string))
    (default_key : option string) (raw : string) (rest : list string) :
  get_key UP DOWN ENTER ESC CTRL_C raw = Key "enter" → options ≠ [] →
  select_with_arrows UP DOWN ENTER ESC CTRL_C options default_key
    (raw :: rest)
  = (Selected (if truthy default_key
                  && member (default "" default_key) (keys options)
               then default "" default_key
               else default "" (head (keys options))),
     rest).
Proof.
  intros Hraw Hne. unfold select_with_arrows. cbn [run_selection_loop].
  rewrite Hraw. simpl String.eqb. cbv iota.
  destruct (truthy default_key && _) eqn:E.
  - apply andb_true_iff in E as [_ E%member_elem]. by rewrite item_index.
  - destruct options as [|[k v] options]; [done |]. done.
Qed.

(** X17: Down and up undo each other, in either order, wherever the selection
    stands: the index moves around the options and back. *)
Theorem down_up_cancel (option_keys : list string) (i : Z)
    (down up : string) (rest : list string) :
  get_key UP DOWN ENTER ESC CTRL_C down = Key "down" →
  get_key UP DOWN ENTER ESC CTRL_C up = Key "up" →
  0 ≤ i < Z.of_nat (length option_keys) →
  run_selection_loop UP DOWN ENTER ESC CTRL_C option_keys i
    (down :: up :: rest)
  = run_selection_loop UP DOWN ENTER ESC CTRL_C option_keys i rest
  ∧ run_selection_loop UP DOWN ENTER ESC CTRL_C option_keys i
      (up :: down :: rest)
    = run_selection_loop UP DOWN ENTER ESC CTRL_C option_keys i rest.
Proof.
  intros Hdown Hup Hi. cbn [run_selection_loop]. rewrite Hdown, Hup.
  simpl String.eqb. cbv iota.
  assert ((Z.of_nat (length option_keys) =? 0) = false) as -> by lia.
  rewrite Zminus_mod_idemp_l, Zplus_mod_idemp_l.
  replace (i + 1 - 1) with i by lia. replace (i - 1 + 1) with i by lia.
  by rewrite Z.mod_small by lia.
Qed.

(** *** Choosing the agents at the terminal *)

Lemma remaining_elem (selected_ais : list string) (k : string) :
  k ∈ remaining_of selected_ais ↔ k ∈ keys AI_CHOICES ∧ k ∉ selected_ais.
Proof.
  unfold remaining_of.
  rewrite !list_elem_of_In, filter_In, negb_true_iff, member_not_elem.
  by rewrite list_elem_of_In.
Qed.

Lemma choices_keys (remaining : list string) (k : string) :
  k ∈ keys (choices_of remaining) → k ∈ remaining.
Proof.
  unfold keys, choices_of.
  intros ([k' v] & <- & [_ H]%filter_In)%list_elem_of_In%in_map_iff.
  by apply member_elem.
Qed.

Lemma add_more_valid (answers : list bool) :
  ∀ selected_ais presses l,
    add_more UP DOWN ENTER ESC CTRL_C selected_ais answers presses = Selected l →
    selected_ais ≠ [] → NoDup selected_ais →
    (∀ k, k ∈ selected_ais → k ∈ keys AI_CHOICES) →
    l ≠ [] ∧ NoDup l ∧ ∀ k, k ∈ l → k ∈ keys AI_CHOICES.
Proof.
  induction answers as [|answer answers IH]; intros selected_ais presses l;
    cbn [add_more].
  - destruct (remaining_of selected_ais); [| done]. by intros [= <-].
  - destruct (remaining_of selected_ais) as [|first remaining'] eqn:E.
    { by intros [= <-]. }
    destruct answer; [| by intros [= <-]].
    pose proof (select_safe (choices_of (first :: remaining')) (Some first) presses)
      as Hsafe.
    destruct (select _ _ presses) as [[next | | |] presses']; try done.
    intros Hl Hne Hnd Hvalid.
    assert (choices_of (first :: remaining') ≠ []) as Hc.
    { assert (first ∈ remaining_of selected_ais) as Hf by (rewrite E; by left).
      apply remaining_elem in Hf as [Hf _]. unfold keys in Hf.
      apply list_elem_of_In, in_map_iff in Hf as ([k v] & Hk & Hin).
      simpl in Hk. subst k. unfold choices_of. intros Hnil.
      assert (In (first, v) (List.filter
                (λ '(key, _), member key (first :: remaining')) AI_CHOICES)) as H.
      { apply filter_In. split; [done |]. apply member_elem. by left. }
      by rewrite Hnil in H. }
    specialize (Hsafe Hc). simpl in Hsafe. apply choices_keys in Hsafe.
    rewrite <- E in Hsafe. apply remaining_elem in Hsafe as [Hin Hnew].
    eapply IH; [exact Hl | by destruct selected_ais | |].
    + apply NoDup_app. split_and!; [done | | apply NoDup_singleton].
      by intros x Hx ->%list_elem_of_singleton.
    + intros k [Hk | ->%list_elem_of_singleton]%elem_of_app; auto.
Qed.

(** X18: When [--ai] names no agent, the agents chosen at the terminal (or the
    default, away from one) are at least one, all different, all of
    [AI_CHOICES]; the check that follows keeps them as they are. *)
Theorem interactive_choice_valid (ai_assistants : option (list string))
    (isatty : bool) (answers : list bool) (presses : list string)
    (l : list string) :
  parse_ai_option_values ai_assistants = [] →
  choose_ais UP DOWN ENTER ESC CTRL_C ai_assistants isatty answers presses
  = Selected l →
  l ≠ [] ∧ NoDup l ∧ (∀ k, k ∈ l → k ∈ keys AI_CHOICES)
  ∧ normalize_ais l = Some l.
Proof.
  intros Hparse. unfold choose_ais. rewrite Hparse.
  assert (∀ l, l ≠ [] → NoDup l → (∀ k, k ∈ l → k ∈ keys AI_CHOICES) →
               l ≠ [] ∧ NoDup l ∧ (∀ k, k ∈ l → k ∈ keys AI_CHOICES)
               ∧ normalize_ais l = Some l) as Hfin.
  { intros l' Hne Hnd Hvalid. split_and!; [done | done | done |].
    unfold normalize_ais. rewrite check_ais_distinct by done.
    simpl. by destruct l'. }
  destruct isatty.
  - pose proof (select_safe AI_CHOICES (Some "copilot") presses) as Hsafe.
    destruct (select _ _ presses) as [[primary | | |] presses']; try done.
    specialize (Hsafe ltac:(done)). simpl in Hsafe.
    intros (H1 & H2 & H3)%add_more_valid.
    + by apply Hfin.
    + done.
    + apply NoDup_singleton.
    + by intros k ->%list_elem_of_singleton.
  - intros [= <-]. apply Hfin; [done | apply NoDup_singleton |].
    intros k ->%list_elem_of_singleton. vm_compute. by left.
Qed.
End SelectorFacts.

Lemma selection_in_options_witness :
  "ps" ∈ Cli.keys [("sh", "POSIX Shell"); ("ps", "PowerShell")].
Proof.
  exact (selection_in_options "U" "D" "E" "X" "C"
           [("sh", "POSIX Shell"); ("ps", "PowerShell")] (Some "sh")
           ["D"; "E"] ltac:(discriminate)).
Defined.

Lemma enter_confirms_default_witness :
  Selector.select_with_arrows "U" "D" "E" "X" "C" Cli.AI_CHOICES
    (Some "copilot") ["E"; "D"]
  = (Selector.Selected "copilot", ["D"]).
Proof.
  exact (enter_confirms_default "U" "D" "E" "X" "C" Cli.AI_CHOICES
           (Some "copilot") "E" ["D"] eq_refl ltac:(discriminate)).
Defined.

Lemma down_up_cancel_witness :
  Selector.run_selection_loop "U" "D" "E" "X" "C" ["a"; "b"; "c"] 2
    ["D"; "U"; "E"]
  = (Selector.Selected "c", []).
Proof.
  exact (proj1 (down_up_cancel "U" "D" "E" "X" "C" ["a"; "b"; "c"] 2
                  "D" "U" ["E"] eq_refl eq_refl ltac:(simpl; lia))).
Defined.

Lemma interactive_choice_valid_witness :
  Cli.normalize_ais ["claude"; "roo"] = Some ["claude"; "roo"].
Proof.
  exact (proj2 (proj2 (proj2
    (interactive_choice_valid "U" "D" "E" "X" "C" None true [true; false]
       ["D"; "E"; "U"; "E"] ["claude"; "roo"] eq_refl eq_refl)))).
Defined.

(** ** The order of the slash commands *)

Section CommandFacts.
Import Cli Commands.

Section Sort.
Context {A K : Type}.
Variable sort_key : A → K.
Variable le : K → K → bool.
Hypothesis le_total : ∀ a b, le a b = true ∨ le b a = true.
Hypothesis le_trans : ∀ a b c, le a b = true → le b c = true → le a c = true.

Let ordered (a b : A) : Prop := le (sort_key a) (sort_key b) = true.

Lemma insert_by_perm (x : A) (l : list A) :
  insert_by sort_key le x l ≡ₚ x :: l.
Proof.
  induction l as [|y l IH]; simpl; [done |].
  destruct (le _ _); [done |]. rewrite IH. apply Permutation_swap.
Qed.

Lemma sort_by_perm (l : list A) : sort_by sort_key le l ≡ₚ l.
Proof.
  induction l as [|x l IH]; simpl; [done |].
  by rewrite insert_by_perm, IH.
Qed.

Lemma insert_by_sorted (x : A) (l : list A) :
  StronglySorted ordered l →
  StronglySorted ordered (insert_by sort_key le x l).
Proof.
  induction 1 as [|z l Hl IH Hz]; simpl; [by repeat constructor |].
  destruct (le (sort_key x) (sort_key z)) eqn:Hxz.
  - constructor; [by constructor |]. constructor; [done |].
    eapply Forall_impl; [exact Hz |]. intros w Hw. by eapply le_trans.
  - constructor; [done |].
    rewrite insert_by_perm. constructor; [| done].
    destruct (le_total (sort_key x) (sort_key z)); [congruence | done].
Qed.

Lemma sort_by_sorted (l : list A) :
  StronglySorted ordered (sort_by sort_key le l).
Proof.
  induction l as [|x l IH]; simpl; [constructor |]. by apply insert_by_sorted.
Qed.
End Sort.

Lemma StronglySorted_impl_strong {A} (R R' : A → A → Prop) (l : list A) :
  (∀ a b, a ∈ l → b ∈ l → R a b → R' a b) →
  StronglySorted R l → StronglySorted R' l.
Proof.
  intros Himp Hs. induction Hs as [|x l Hl IH Hx]; constructor.
  - apply IH. intros a b Ha Hb. apply Himp; by right.
  - apply Forall_forall. intros y Hy. apply Himp; [by left | by right |].
    rewrite Forall_forall in Hx. by apply Hx.
Qed.

Lemma filter_split {A} (p : A → bool) (l : list A) :
  List.filter p l ++ List.filter (λ x, negb (p x)) l ≡ₚ l.
Proof.
  induction l as [|x l IH]; simpl; [done |].
  destruct (p x); simpl.
  - by rewrite IH.
  - by rewrite <- Permutation_middle, IH.
Qed.

(** X19: The commands are listed without loss or repetition: the ordered list
    is a permutation of the discovered one. *)
Theorem order_commands_permutation (commands : list command) :
  order_commands commands ≡ₚ commands.
Proof.
  unfold order_commands. rewrite !sort_by_perm. apply filter_split.
Qed.

Lemma index_bound (x : string) (l : list string) :
  member x l = true → (index x l < length l)%nat.
Proof.
  induction l as [|y l IH]; simpl; [done |].
  destruct (String.eqb x y); simpl; [lia |]. intros H. specialize (IH H). lia.
Qed.

Lemma leb_string_total (a b : string) :
  String.leb a b = true ∨ String.leb b a = true.
Proof.
  destruct (total String.le a b) as [H | H]; apply Is_true_true in H; auto.
Qed.

Lemma leb_string_trans (a b c : string) :
  String.leb a b = true → String.leb b c = true → String.leb a c = true.
Proof.
  intros H1%Is_true_true H2%Is_true_true. apply Is_true_true.
  change (String.le a c). by transitivity b.
Qed.

(** X20: In the ordered list the core commands come first, in the order of
    [core_order], and the others follow, by name: of any two entries the
    earlier one stands before the later one. *)
Theorem order_commands_sorted (commands : list command) :
  StronglySorted before (order_commands commands).
Proof.
  unfold order_commands.
  set (core := List.filter (λ c : command, member c.1 core_order) commands).
  set (extra := List.filter (λ c : command, negb (member c.1 core_order)) commands).
  assert (∀ c, c ∈ sort_by (λ c : command, index c.1 core_order) Nat.leb core →
               member c.1 core_order = true) as Hcore.
  { intros c. rewrite sort_by_perm. subst core.
    by intros [_ ?]%list_elem_of_In%filter_In. }
  assert (∀ c, c ∈ sort_by (λ c : command, c.1) String.leb extra →
               member c.1 core_order = false) as Hextra.
  { intros c. rewrite sort_by_perm. subst extra.
    by intros [_ ?%negb_true_iff]%list_elem_of_In%filter_In. }
  apply StronglySorted_app. split_and!.
  - intros a b Ha Hb. unfold before, rank.
    rewrite (Hcore a Ha), (Hextra b Hb). left. by apply index_bound, Hcore.
  - apply (StronglySorted_impl_strong
             (λ a b : command,
                Nat.leb (index a.1 core_order) (index b.1 core_order) = true));
      [| apply (sort_by_sorted (λ c : command, index c.1 core_order) Nat.leb)].
    + intros a b Ha Hb Hab. unfold before, rank.
      rewrite (Hcore a Ha), (Hcore b Hb). apply Nat.leb_le in Hab.
      destruct (decide (index a.1 core_order = index b.1 core_order)); [| left; lia].
      right. split; [done | by left].
    + intros a b. destruct (Nat.leb_spec a b); [by left | right].
      apply Nat.leb_le. lia.
    + intros a b c ?%Nat.leb_le ?%Nat.leb_le. apply Nat.leb_le. lia.
  - apply (StronglySorted_impl_strong
             (λ a b : command, String.leb a.1 b.1 = true));
      [| apply (sort_by_sorted (λ c : command, c.1) String.leb)].
    + intros a b Ha Hb Hab. unfold before, rank.
      rewrite (Hextra a Ha), (Hextra b Hb). right. split; [done | right].
      by apply Is_true_true.
    + apply leb_string_total.
    + apply leb_string_trans.
Qed.
End CommandFacts.

(** ** The permission normalizer, beyond single scripts *)

Section PermShapeFacts.
Import FS Paths Perm Shape.

Lemma content_dir (es : dirents) : content (Dir es) = Dir (content_entries es).
Proof.
  simpl. f_equal. induction es as [|[name c] es IH]; simpl; [done |].
  by rewrite IH.
Qed.

Lemma dir_get_content (k : string) (es : dirents) :
  dir_get k (content_entries es) = content <$> dir_get k es.
Proof.
  induction es as [|[k' v] es IH]; simpl; [done |].
  by destruct (String.eqb k k').
Qed.

Lemma dir_put_content (k : string) (v : node) (es : dirents) :
  content_entries (dir_put k v es) = dir_put k (content v) (content_entries es).
Proof.
  induction es as [|[k' v'] es IH]; simpl; [done |].
  destruct (String.eqb k k'); simpl; [done | by rewrite IH].
Qed.

Lemma dir_put_same_content (k : string) (v c : node) (es : dirents) :
  dir_get k es = Some c → content v = content c →
  content_entries (dir_put k v es) = content_entries es.
Proof.
  intros Hc Hv. rewrite dir_put_content, Hv. apply dir_put_same.
  by rewrite dir_get_content, Hc.
Qed.

Lemma find_content (q : path) :
  ∀ t : node, find q (content t) = content <$> find q t.
Proof.
  induction q as [|k q IH]; intros t; [done |].
  destruct t as [perm data | es]; [done |].
  rewrite content_dir, !find_cons, dir_get_content.
  destruct (dir_get k es) as [c |]; simpl; [apply IH | done].
Qed.

Lemma update_content (f : option node → option node) (q : path) :
  (∀ o, content <$> f o = content <$> o) →
  ∀ t : node, content (update q f t) = content t.
Proof.
  intros Hf. induction q as [|k q IH]; intros t; [done |].
  destruct t as [perm data | es]; [by rewrite update_file |].
  destruct q as [|k' q].
  - rewrite update_single. specialize (Hf (dir_get k es)).
    destruct (f (dir_get k es)) as [v |], (dir_get k es) as [c |] eqn:Hc;
      try done.
    + rewrite !content_dir. f_equal. injection Hf as Hf.
      by eapply dir_put_same_content.
    + by rewrite dir_del_absent.
  - rewrite update_cons2. destruct (dir_get k es) as [c |] eqn:Hc; [| done].
    rewrite !content_dir. f_equal. by eapply dir_put_same_content.
Qed.

Lemma chmod_content (q : path) (mode : Z) (t : node) :
  content (chmod q mode t) = content t.
Proof.
  unfold chmod. apply update_content.
  by intros [[perm data | es] |].
Qed.

Lemma same_content_file (t t' : node) (q : path) (perm : Z) (data : string) :
  content t = content t' → find q t = Some (File perm data) →
  ∃ perm', find q t' = Some (File perm' data).
Proof.
  intros Hc Hf. pose proof (find_content q t) as H.
  rewrite Hc, find_content, Hf in H.
  destruct (find q t') as [[perm' data' | es] |]; [| done | done].
  injection H as ->. by exists perm'.
Qed.

Lemma same_content_dir (t t' : node) (q : path) (es : dirents) :
  content t = content t' → find q t = Some (Dir es) →
  ∃ es', find q t' = Some (Dir es').
Proof.
  intros Hc Hf. pose proof (find_content q t) as H.
  rewrite Hc, find_content, Hf in H.
  destruct (find q t') as [[perm' data' | es'] |]; [done | | done].
  by exists es'.
Qed.

Section Normalizer.
Variable is_symlink : path → bool.
Variable can_open : path → bool.
Variable chmod_raises : path → bool.

Abbreviation step := (normalize_script is_symlink can_open chmod_raises).

Lemma normalize_content (script : path) (s : state) :
  content (fs (step script s)) = content (fs s).
Proof.
  unfold normalize_script.
  destruct (is_symlink script); [done |].
  destruct (find script (fs s)) as [[perm data | es] |]; [| done | done].
  destruct (negb (can_open script)); [done |].
  destruct (negb _); [done |].
  destruct (truthy _); [done |].
  destruct (chmod_raises script); [done |]. simpl. apply chmod_content.
Qed.

Lemma loop_content (scripts : list path) :
  ∀ s : state,
    content (fs (foldl (λ s script, step script s) s scripts)) = content (fs s).
Proof.
  induction scripts as [|script scripts IH]; intros s; [done |].
  simpl. by rewrite IH, normalize_content.
Qed.

(** X21: [ensure_executable_scripts] changes permission bits and nothing else:
    the project tree, its permission bits left aside, is after the call
    what it was before, names, listing order and file contents
    included. *)
Theorem only_modes_change (posix : bool) (project : node) :
  content (fs (ensure_executable_scripts posix is_symlink can_open
                 chmod_raises project))
  = content project.
Proof.
  unfold ensure_executable_scripts. destruct posix; [| done]. simpl negb.
  cbv iota.
  destruct (find specify_scripts_dir project) as [[perm data | es] |];
    [done | | done].
  by rewrite loop_content.
Qed.

Lemma settled_step (script : path) (s : state) :
  settled_script is_symlink can_open chmod_raises script (fs s) →
  fs (step script s) = fs s ∧ updated (step script s) = updated s.
Proof.
  unfold settled_script, normalize_script.
  destruct (is_symlink script); [done |].
  destruct (find script (fs s)) as [[perm data | es] |]; [| done | done].
  rewrite st_mode_exec.
  destruct (can_open script); simpl; [| done].
  destruct (String.eqb_spec (String.substring 0 2 data) "#!") as [E | E];
    simpl; [| done].
  unfold truthy. destruct (Z.eqb_spec (Z.land perm o111) 0) as [Hx | Hx];
    simpl; [| done].
  destruct (chmod_raises script); [done |].
  intros [[=] | [[=] | [[=] | [? | ?]]]]; done.
Qed.

Lemma settled_loop (t : node) (scripts : list path) :
  Forall (λ script, settled_script is_symlink can_open chmod_raises script t) scripts →
  ∀ s : state,
    fs s = t →
    fs (foldl (λ s script, step script s) s scripts) = t
    ∧ updated (foldl (λ s script, step script s) s scripts) = updated s.
Proof.
  induction scripts as [|script scripts IH]; intros Hall s Hs; [done |].
  apply Forall_cons in Hall as [Hone Hall]. simpl.
  rewrite <- Hs in Hone. destruct (settled_step script s Hone) as [Hfs Hupd].
  destruct (IH Hall (step script s)) as [H1 H2]; [congruence |].
  split; [done | congruence].
Qed.

(** X22: [ensure_executable_scripts] is idempotent: run again on the tree it
    left, it changes no mode and counts no update. *)
Theorem ensure_executable_idempotent (posix : bool) (project : node) :
  let first :=
    ensure_executable_scripts posix is_symlink can_open chmod_raises project in
  let second :=
    ensure_executable_scripts posix is_symlink can_open chmod_raises
      (fs first) in
  fs second = fs first ∧ updated second = 0%nat.
Proof.
  intros first second. subst first second. unfold ensure_executable_scripts.
  destruct posix; [| done]. simpl negb. cbv iota.
  destruct (find specify_scripts_dir project) as [[perm data | es] |] eqn:Hroot.
  - cbn [fs]. by rewrite Hroot.
  - set (scripts := map (app specify_scripts_dir) (rglob is_sh (Dir es))).
    set (start := {| fs := project; updated := 0; failures := [] |}).
    set (first := foldl (λ s script, step script s) start scripts).
    pose proof (loop_content scripts start) as Hcontent. fold first in Hcontent.
    simpl in Hcontent.
    destruct (same_content_dir project (fs first) specify_scripts_dir es)
      as [es' Hroot']; [done | done |].
    rewrite Hroot'.
    apply (settled_loop (fs first)); [| done].
    apply Forall_forall. intros script Hin.
    apply list_elem_of_In, in_map_iff in Hin as (p & <- & Hp).
    destruct (rglob_sound _ _ _ Hp) as (name & Hlast & Hsh).
    unfold settled_script.
    destruct (is_symlink (specify_scripts_dir ++ p)) eqn:Hsym; [by left |].
    destruct (chmod_raises (specify_scripts_dir ++ p)) eqn:Hchmod;
      [right; by left |].
    right; right.
    destruct (find (specify_scripts_dir ++ p) (fs first))
      as [[perm data | es''] |] eqn:Hf; [| done | done].
    destruct (can_open (specify_scripts_dir ++ p)) eqn:Hopen; [| by left].
    destruct (String.eqb_spec (String.substring 0 2 data) "#!") as [Hbang | Hbang];
      [| right; by left].
    right; right.
    destruct (same_content_file (fs first) project (specify_scripts_dir ++ p)
                perm data) as [perm0 Hf0]; [done | done |].
    assert (In (specify_scripts_dir ++ p) scripts) as Hin.
    { apply in_map. eapply rglob_complete; [exact Hlast | exact Hsh |].
      rewrite find_app, Hroot in Hf0. cbn [mbind option_bind] in Hf0.
      by rewrite Hf0. }
    assert (specify_scripts_dir ++ p ≠ []) as Hne by done.
    destruct (decide (Z.land perm0 o111 = 0)) as [Hx | Hx].
    + pose proof (loop_pending is_symlink can_open chmod_raises
                    (specify_scripts_dir ++ p) perm0 data scripts
                    Hne Hsym Hopen Hchmod Hbang Hx start Hin Hf0) as Hfin.
      fold first in Hfin. rewrite Hfin in Hf. injection Hf as <-.
      apply applied_mode_exec.
    + pose proof (loop_executable is_symlink can_open chmod_raises
                    (specify_scripts_dir ++ p) perm0 data scripts Hx start Hf0)
        as Hfin.
      fold first in Hfin. rewrite Hfin in Hf. by injection Hf as <-.
  - cbn [fs]. by rewrite Hroot.
Qed.
End Normalizer.
End PermShapeFacts.

(** ** The relocator, whatever way a run ends *)

Section RelocatorRunFacts.
Import FS Paths Relocator.

Lemma migrate_item_grows (i : string) (s : state) :
  is_dir get_specify_root (fs s) = true →
  grows (fs s) (fs (state_of (migrate_item i s))).
Proof.
  intros Hc. destruct (migrate_item i s) as [s' | s'] eqn:E.
  { by apply (migrate_item_ok i s s'). }
  revert E. unfold migrate_item.
  destruct (exists_ (get_specify_root ++ [i]) (fs s)) eqn:Hd.
  - destruct (is_dir (legacy_root ++ [i]) (fs s)) eqn:Hs; [| done].
    destruct (exists_kind _ _ Hd) as [Hdir | Hfile].
    + rewrite makedirs_present, with_fs_same by done.
      destruct (iterdir (legacy_root ++ [i]) (fs s)) as [children |] eqn:Hit.
      * pose proof (children_loop (legacy_root ++ [i]) (get_specify_root ++ [i])
                      ltac:(done) (legacy_outside [i]) (prefix_app _ _)
                      children s Hdir) as (Hg & _ & _).
        destruct (for_each _ children s) as [s1 | s1]; simpl; [done |].
        by intros [= <-].
      * intros [= <-]. apply grows_refl.
    + rewrite makedirs_file by done. intros [= <-]. apply grows_refl.
  - rewrite move_rename;
      [| done | by rewrite parent_snoc
       | apply outside_not_prefix; [apply legacy_outside | apply prefix_app]].
    destruct (find (legacy_root ++ [i]) (fs s)) as [n |]; simpl; [done |].
    intros [= <-]. apply grows_refl.
Qed.

Lemma for_each_grows (body : string → state → outcome) (items : list string) :
  (∀ i s, is_dir get_specify_root (fs s) = true →
          grows (fs s) (fs (state_of (body i s)))) →
  ∀ s, is_dir get_specify_root (fs s) = true →
       grows (fs s) (fs (state_of (for_each body items s))).
Proof.
  intros Hbody. induction items as [|i items IH]; intros s Hc.
  - apply grows_refl.
  - cbn [for_each]. pose proof (Hbody i s Hc) as Hg.
    destruct (body i s) as [s1 | s1]; cbn [bind state_of] in *.
    2: done.
    eapply grows_trans; [exact Hg |]. apply IH. by eapply canon_grows.
Qed.

Lemma migrate_legacy_grows (s : state) :
  is_dir get_specify_root (fs s) = true →
  grows (fs s) (fs (state_of (migrate_legacy s))).
Proof.
  intros Hc. unfold migrate_legacy.
  destruct (is_dir legacy_root (fs s)); [| apply grows_refl].
  destruct (iterdir legacy_root (fs s)) as [items |]; [| apply grows_refl].
  pose proof (for_each_grows migrate_item items migrate_item_grows s Hc) as Hg.
  destruct (for_each migrate_item items s) as [s1 | s1]; simpl in *; [| done].
  eapply grows_trans; [exact Hg |].
  apply (rmdir_grows legacy_root (fs s1) ltac:(done) (legacy_outside [])).
Qed.

(** X23: With the canonical root [.specs/.specify] in place, a run of the
    relocator, whether it returns or raises, removes and replaces nothing
    under that root and creates nothing outside of it: what exists under
    the root stays, file or directory as it was, and every path that exists
    elsewhere afterwards existed before. *)
Theorem relocation_only_grows (project : node) :
  is_dir get_specify_root project = true →
  grows project (tree (relocate_non_agent_directories project)).
Proof.
  intros Hc. unfold relocate_non_agent_directories.
  pose proof (migrate_legacy_grows (fresh project) Hc) as Hg1.
  destruct (migrate_legacy (fresh project)) as [s1 | s1]; simpl in Hg1;
    [| done].
  pose proof (canon_grows _ _ Hg1 Hc) as Hc1.
  destruct (top_level_succeeds non_agent_dirs non_agent_dirs_plain
              (fresh (fs s1)) Hc1) as [s2 H2].
  rewrite H2.
  destruct (top_level_ok (fresh (fs s1)) s2 Hc1 H2) as [Hg2 _].
  pose proof (canon_grows _ _ Hg2 Hc1) as Hc2. simpl in Hg2, Hc2.
  destruct (consolidate_nested_ok (fresh (fs s2)) Hc2) as (s3 & -> & Hg3 & _).
  simpl. simpl in Hg3.
  eapply grows_trans; [exact Hg1 |]. by eapply grows_trans.
Qed.

(** X24: With the canonical root in place and no legacy [.specify] directory
    at the top of the project, the relocator cannot fail, and what it
    leaves is settled: nothing is left for another run to move. *)
Theorem relocation_returns (project : node) :
  is_dir get_specify_root project = true →
  is_dir legacy_root project = false →
  let run := relocate_non_agent_directories project in
  raised run = false ∧ legacy_moves run = [] ∧ migrated run = 0%nat
  ∧ settled (tree run).
Proof.
  intros Hc Hl run.
  assert (raised run = false ∧ legacy_moves run = [] ∧ migrated run = 0%nat)
    as (Hr & Hm & Hn).
  { subst run. unfold relocate_non_agent_directories, migrate_legacy.
    cbn [fs fresh]. rewrite Hl.
    destruct (top_level_succeeds non_agent_dirs non_agent_dirs_plain
                (fresh project) Hc) as [s2 H2].
    cbn [fs fresh] in *. rewrite H2.
    destruct (top_level_ok (fresh project) s2 Hc H2) as [Hg2 _].
    pose proof (canon_grows _ _ Hg2 Hc) as Hc2. simpl in Hc2.
    by destruct (consolidate_nested_ok (fresh (fs s2)) Hc2) as (s3 & -> & _). }
  split_and!; [done | done | done |]. by apply relocate_settles.
Qed.

(** X25: In a project that has no [.specs] directory, no legacy [.specify]
    directory and none of the legacy top-level directories, the relocator
    raises, when it goes to list the specs root, and leaves the tree as it
    found it. *)
Theorem relocation_needs_specs_root (project : node) :
  is_dir get_specs_root project = false →
  is_dir legacy_root project = false →
  (∀ name, name ∈ non_agent_dirs → exists_ [name] project = false) →
  let run := relocate_non_agent_directories project in
  raised run = true ∧ tree run = project
  ∧ legacy_moves run = [] ∧ top_level_moves run = [] ∧ nested_moves run = [].
Proof.
  intros Hs Hl Hnone run. subst run.
  unfold relocate_non_agent_directories, migrate_legacy.
  cbn [fs fresh]. rewrite Hl.
  assert (∀ dirs s, (∀ name, name ∈ dirs → exists_ [name] (fs s) = false) →
                    for_each move_top_level dirs s = Ok s) as Hquiet.
  { induction dirs as [|name dirs IH]; intros s Hall; [done |].
    cbn [for_each]. unfold move_top_level at 1.
    rewrite (Hall name) by (by left). simpl. apply IH.
    intros x Hx. apply Hall. by right. }
  rewrite Hquiet by done. unfold consolidate_nested. cbn [fs fresh].
  unfold is_dir, iterdir in *.
  by destruct (find get_specs_root project) as [[perm data | es] |].
Qed.

Lemma move_counts (src dst : path) (s : state) :
  counter s = length (performed s) →
  let s' := state_of (bind (move src dst s) (λ s', Ok (bump s'))) in
  counter s' = length (performed s').
Proof.
  intros H. unfold move. destruct (shutil_move src dst (fs s)); simpl; [| done].
  rewrite length_app. simpl. lia.
Qed.

Lemma for_each_invariant (P : state → Prop)
    (body : string → state → outcome) (items : list string) :
  (∀ i s, P s → P (state_of (body i s))) →
  ∀ s, P s → P (state_of (for_each body items s)).
Proof.
  intros Hbody. induction items as [|i items IH]; intros s Hs; [done |].
  cbn [for_each]. pose proof (Hbody i s Hs) as H.
  destruct (body i s) as [s1 | s1]; cbn [bind state_of] in *;
    [by apply IH | done].
Qed.

Lemma move_child_counts (from dest : path) (c : string) (s : state) :
  (counter s ≤ length (performed s))%nat →
  let s' := state_of (move_child from dest c s) in
  (counter s' ≤ length (performed s'))%nat.
Proof.
  intros H. unfold move_child, move.
  destruct (exists_ _ (fs s)); [done |].
  destruct (shutil_move _ _ (fs s)); simpl; [| done].
  rewrite length_app. simpl. lia.
Qed.

Lemma consolidate_item_counts (i : string) (s : state) :
  (counter s ≤ length (performed s))%nat →
  let s' := state_of (consolidate_item i s) in
  (counter s' ≤ length (performed s'))%nat.
Proof.
  intros H. unfold consolidate_item.
  destruct (String.eqb i ".specify"); [done |].
  destruct (exists_ (get_specify_root ++ [i]) (fs s)).
  - destruct (_ && _); [| done].
    destruct (iterdir (get_specs_root ++ [i]) (fs s)) as [children |]; [| done].
    pose proof (for_each_invariant
                  (λ s, (counter s ≤ length (performed s))%nat)
                  (move_child (get_specs_root ++ [i]) (get_specify_root ++ [i]))
                  children
                  (λ c s, move_child_counts _ _ c s) s H) as Hloop.
    destruct (for_each _ children s) as [s1 | s1]; simpl in *; [| done].
    by destruct (rmdir _ (fs s1)).
  - unfold move. destruct (shutil_move _ _ (fs s)); simpl; [| done].
    rewrite length_app. simpl. lia.
Qed.

(** X26: The counter [moved] the tracker reports is exactly the number of
    top-level directories [shutil.move] relocated, while [nested_moved]
    can fall short of the moves of the third phase: children moved into a
    directory that exists are not counted. *)
Theorem moved_counts_moves (project : node) :
  let run := relocate_non_agent_directories project in
  moved run = length (top_level_moves run)
  ∧ (nested_moved run ≤ length (nested_moves run))%nat.
Proof.
  intros run. subst run. unfold relocate_non_agent_directories.
  destruct (migrate_legacy (fresh project)) as [s1 | s1]; [| simpl; lia].
  pose proof (for_each_invariant (λ s, counter s = length (performed s))
                move_top_level non_agent_dirs) as H2.
  specialize (H2 ltac:(intros name s Hs; unfold move_top_level;
    destruct (negb _); [done |]; destruct (exists_ _ (fs s)); [done |];
    by apply move_counts) (fresh (fs s1)) eq_refl).
  destruct (for_each move_top_level non_agent_dirs (fresh (fs s1)))
    as [s2 | s2]; simpl in H2; [| simpl; lia].
  pose proof (for_each_invariant
                (λ s, (counter s ≤ length (performed s))%nat)) as H3.
  unfold consolidate_nested. cbn [fs fresh].
  destruct (iterdir get_specs_root (fs s2)) as [items |]; [| simpl; lia].
  specialize (H3 consolidate_item items consolidate_item_counts
                (fresh (fs s2)) ltac:(simpl; lia)).
  by destruct (for_each consolidate_item items (fresh (fs s2))).
Qed.
End RelocatorRunFacts.

Lemma relocation_only_grows_witness :
  let project :=
    FS.Dir [("docs", FS.Dir [("guide.md", FS.File 420 "g")]);
            (".specs",
             FS.Dir [(".specify", FS.Dir [("memory", FS.Dir [])]);
                     ("a.txt", FS.File 420 "x")])] in
  Relocator.grows project
    (Relocator.tree (Relocator.relocate_non_agent_directories project)).
Proof.
  intros project. exact (relocation_only_grows project eq_refl).
Defined.

Lemma relocation_returns_witness :
  let project :=
    FS.Dir [("docs", FS.Dir [("guide.md", FS.File 420 "g")]);
            (".specs", FS.Dir [(".specify", FS.Dir []);
                               ("a.txt", FS.File 420 "x")])] in
  Relocator.raised (Relocator.relocate_non_agent_directories project) = false.
Proof.
  intros project.
  exact (proj1 (relocation_returns project eq_refl eq_refl)).
Defined.

Lemma relocation_needs_specs_root_witness :
  let project := FS.Dir [("README.md", FS.File 420 "readme")] in
  Relocator.raised (Relocator.relocate_non_agent_directories project) = true.
Proof.
  intros project.
  refine (proj1 (relocation_needs_specs_root project eq_refl eq_refl _)).
  intros name Hname. vm_compute in Hname.
  repeat (apply elem_of_cons in Hname as [-> | Hname]; [reflexivity |]).
  by apply elem_of_nil in Hname.
Defined.

(** ** The merge engine: what arrives in the project *)

Section InstallFacts.
Import FS Extractor Shape.

Lemma distinct_dir (es : dirents) :
  distinct (Dir es) = true
  ↔ NoDup (names es) ∧ Forall (λ e, distinct e.2 = true) es.
Proof.
  simpl. rewrite andb_true_iff, bool_decide_eq_true.
  apply and_iff_compat_l.
  induction es as [|[k c] es IH]; simpl.
  - split; [constructor | done].
  - rewrite andb_true_iff, IH, Forall_cons. done.
Qed.

Lemma fits_over_dir (ses : dirents) (dst : option node) :
  fits_over (Dir ses) dst = true
  ↔ Forall (λ e, fits_over e.2
                   (match dst with
                    | Some (Dir des) => dir_get e.1 des
                    | _ => None
                    end) = true) ses.
Proof.
  simpl. induction ses as [|[k c] ses IH]; simpl.
  - split; [constructor | done].
  - rewrite andb_true_iff, IH, Forall_cons. done.
Qed.

Lemma dir_get_absent (k : string) (es : dirents) :
  k ∉ names es → dir_get k es = None.
Proof.
  induction es as [|[k' v] es IH]; simpl; [done |]. intros H.
  destruct (String.eqb_spec k k') as [-> | Hne].
  - exfalso. apply H. by left.
  - apply IH. intros Hin. apply H. by right.
Qed.

Lemma dir_put_absent (k : string) (v : node) (es : dirents) :
  k ∉ names es → dir_put k v es = es ++ [(k, v)].
Proof.
  induction es as [|[k' v'] es IH]; simpl; [done |]. intros H.
  destruct (String.eqb_spec k k') as [-> | Hne].
  - exfalso. apply H. by left.
  - rewrite IH; [done |]. intros Hin. apply H. by right.
Qed.

(** *** Into a place where nothing is *)

Lemma copy_entries_fresh (rec : node → option node → option node * bool)
    (ses : dirents) :
  Forall (λ e, match e.2 with
               | Dir _ => rec e.2 None = (Some e.2, false)
               | File _ _ => True
               end) ses →
  ∀ acc : dirents,
    NoDup (names acc ++ names ses) →
    copy_entries rec ses acc false = (acc ++ ses, false).
Proof.
  induction ses as [|[name child] ses IH]; intros Hrec acc Hnd; simpl.
  - by rewrite app_nil_r.
  - apply Forall_cons in Hrec as [Hchild Hrec]. simpl in Hchild.
    assert (name ∉ names acc) as Hnew.
    { apply NoDup_app in Hnd as (_ & Hdis & _). intros Hin.
      eapply Hdis; [done | by left]. }
    rewrite (dir_get_absent name acc Hnew).
    assert ((match child with
             | Dir _ => rec child None
             | File _ _ => copy2 name child None
             end) = (Some child, false)) as ->.
    { by destruct child. }
    simpl. rewrite dir_put_absent by done.
    rewrite IH; [by rewrite <- app_assoc | done |].
    unfold names in *. rewrite map_app. simpl. by rewrite <- app_assoc.
Qed.

Lemma copytree_fresh (dirs_exist_ok : bool) (src : node) :
  distinct src = true →
  match src with
  | Dir _ => copytree dirs_exist_ok src None = (Some src, false)
  | File _ _ => True
  end.
Proof.
  induction src as [perm data | ses IH] using node_rect'; [done |].
  intros [Hnd Hall]%distinct_dir. cbn [copytree].
  rewrite copy_entries_fresh; [done | | done].
  apply Forall_forall. intros [name child] Hin.
  rewrite Forall_forall in IH, Hall.
  apply (IH _ Hin), (Hall _ Hin).
Qed.

Lemma merge_fresh (preserve_existing_specs : bool) (payload_root : dirents) :
  Forall (λ e, distinct e.2 = true) payload_root →
  ∀ project : dirents,
    NoDup (names project ++ names payload_root) →
    merge_into_project None preserve_existing_specs (λ _, false)
      payload_root project
    = (project ++ payload_root, false).
Proof.
  induction payload_root as [|[name item] rest IH]; intros Hall project Hnd;
    cbn [merge_into_project].
  - by rewrite app_nil_r.
  - apply Forall_cons in Hall as [Hitem Hall]. simpl in Hitem.
    assert (name ∉ names project) as Hnew.
    { apply NoDup_app in Hnd as (_ & Hdis & _). intros Hin.
      eapply Hdis; [done | by left]. }
    unfold merge_item, filtered_out. cbv iota.
    rewrite (dir_get_absent name project Hnew).
    assert (bool_decide (is_Some (@None node)) = false) as ->.
    { apply bool_decide_eq_false. by intros [? [=]]. }
    rewrite andb_false_r.
    assert ((match item with
             | Dir _ =>
                 let '(d, e) := copytree true item None in
                 (put_opt name d project, e)
             | File _ _ =>
                 let '(d, e) := copy2 name item None in
                 (put_opt name d project, e)
             end) = (project ++ [(name, item)], false)) as ->.
    { pose proof (copytree_fresh true item Hitem) as Hc.
      destruct item as [perm data | es].
      - simpl. by rewrite dir_put_absent.
      - rewrite Hc. simpl. by rewrite dir_put_absent. }
    rewrite IH; [by rewrite <- app_assoc | done |].
    unfold names in *. rewrite map_app. simpl. by rewrite <- app_assoc.
Qed.

(** X27: Merged into a project that has nothing yet, a payload arrives as it
    is and the merge does not raise: afterwards the project has a regular
    file under a path exactly when the payload has it there, with the same
    mode and content, and a directory under a path exactly when the payload
    has one there.  Nothing is said of the order in which a directory lists
    its entries. *)
Theorem merge_into_empty_project (preserve_existing_specs : bool)
    (payload_root : dirents) :
  distinct (Dir payload_root) = true →
  let merged :=
    merge_into_project None preserve_existing_specs (λ _, false)
      payload_root [] in
  merged.2 = false
  ∧ (∀ (p : path) (perm : Z) (data : string),
       find p (Dir merged.1) = Some (File perm data)
       ↔ find p (Dir payload_root) = Some (File perm data))
  ∧ (∀ p : path, is_dir p (Dir merged.1) = is_dir p (Dir payload_root)).
Proof.
  intros [Hnd Hall]%distinct_dir merged. subst merged.
  by rewrite merge_fresh.
Qed.

(** *** Over what is there *)

Lemma dir_get_unique (k : string) (c : node) (es : dirents) :
  NoDup (names es) → In (k, c) es → dir_get k es = Some c.
Proof.
  induction es as [|[k' v] es IH]; simpl; [done |].
  intros [Hk Hnd]%NoDup_cons [[= -> ->] | Hin].
  - by rewrite String.eqb_refl.
  - destruct (String.eqb_spec k k') as [-> | Hne]; [| by apply IH].
    exfalso. apply Hk. apply list_elem_of_In, in_map_iff. by exists (k', c).
Qed.

Lemma extends_entries (ses es : dirents) :
  (∀ k c, dir_get k ses = Some c → extends (Some c) (dir_get k es)) →
  extends (Some (Dir ses)) (Some (Dir es)).
Proof.
  intros H [|k p]; [simpl; eauto |].
  cbn [mbind option_bind]. rewrite !find_cons.
  destruct (dir_get k ses) as [c |] eqn:Hc; [| done].
  apply (H k c Hc p).
Qed.

Lemma copy2_lands (name : string) (child : node) (dst d : option node) :
  match dst with Some (Dir _) => False | _ => True end →
  copy2 name child dst = (d, false) → d = Some child.
Proof.
  destruct dst as [[perm data | ds] |]; simpl; intros ? H; [| done |];
    congruence.
Qed.

Lemma copy_entries_land (des : dirents) (ses : dirents) :
  Forall (λ e, lands e.2) ses →
  Forall (λ e, distinct e.2 = true) ses →
  NoDup (names ses) →
  Forall (λ e, fits_over e.2 (dir_get e.1 des) = true) ses →
  ∀ (acc : dirents) (errors : bool) (es : dirents),
    (∀ k, k ∈ names ses → dir_get k acc = dir_get k des) →
    copy_entries (copytree true) ses acc errors = (es, false) →
    (∀ k c, In (k, c) ses → extends (Some c) (dir_get k es))
    ∧ (∀ k, k ∉ names ses → dir_get k es = dir_get k acc).
Proof.
  induction ses as [|[name child] ses IH];
    intros Hland Hdist Hnd Hfit acc errors es Hacc; simpl.
  - intros [= <- _]. split; [done | done].
  - apply Forall_cons in Hland as [Hl Hland].
    apply Forall_cons in Hdist as [Hd Hdist].
    apply NoDup_cons in Hnd as [Hname Hnd].
    apply Forall_cons in Hfit as [Hf Hfit]. simpl in Hl, Hd, Hf.
    rewrite (Hacc name) by (by left).
    destruct (match child with
              | Dir _ => copytree true child (dir_get name des)
              | File _ _ => copy2 name child (dir_get name des)
              end) as [c' e] eqn:Hstep.
    intros Hloop.
    destruct (IH Hland Hdist Hnd Hfit (put_opt name c' acc) (errors || e) es)
      as [Hrest Hother]; [| done |].
    { intros k Hk. rewrite dir_get_put_opt_ne; [apply Hacc; by right |].
      by intros ->. }
    assert (e = false) as ->.
    { clear -Hloop. revert Hloop. generalize (put_opt name c' acc).
      assert (∀ l a b r, copy_entries (copytree true) l a b = (r, false) →
                         b = false) as Hmono.
      { induction l as [|[n c] l IHl]; intros a b r; simpl; [by intros [= _ ->] |].
        destruct (match c with
                  | Dir _ => copytree true c (dir_get n a)
                  | File _ _ => copy2 n c (dir_get n a)
                  end) as [x y].
        intros H%IHl. by apply orb_false_iff in H as [? _]. }
      intros a H%Hmono. by apply orb_false_iff in H as [_ ?]. }
    assert (extends (Some child) c') as Hext.
    { destruct child as [perm data | ces].
      - apply copy2_lands in Hstep as ->; [apply extends_refl |].
        by destruct (dir_get name des) as [[? ? | ?] |].
      - by apply Hl in Hstep. }
    assert (dir_get name es = c') as Hhere.
    { rewrite Hother by done.
      pose proof (Hext []) as H0. simpl in H0.
      destruct c' as [v |]; simpl; [apply dir_get_put_eq |].
      by destruct child as [? ? | ?]; [| destruct H0]. }
    split.
    + intros k c [[= -> ->] | Hin]; [by rewrite Hhere | by apply Hrest].
    + intros k Hk. rewrite Hother by (intros Hin; apply Hk; by right).
      apply dir_get_put_opt_ne. intros ->. apply Hk. by left.
Qed.

Lemma copytree_lands (src : node) : lands src.
Proof.
  induction src as [perm data | ses IH] using node_rect'; intros dst d.
  - done.
  - intros [Hnd Hall]%distinct_dir Hfit%fits_over_dir. cbn [copytree].
    set (des := match dst with Some (Dir des) => des | _ => [] end).
    assert (Forall (λ e, fits_over e.2 (dir_get e.1 des) = true) ses) as Hfit'.
    { eapply Forall_impl; [exact Hfit |]. intros [k c]. simpl. subst des.
      by destruct dst as [[? ? | ?] |]. }
    destruct dst as [[perm data | des0] |]; [done | |].
    + destruct (copy_entries (copytree true) ses des0 false) as [es e] eqn:Hloop.
      intros [= <- ->].
      destruct (copy_entries_land des ses IH Hall Hnd Hfit' des0 false es
                  ltac:(done) Hloop) as [Hin _].
      apply extends_entries. intros k c Hc. apply Hin. by apply dir_get_elem.
    + destruct (copy_entries (copytree true) ses [] false) as [es e] eqn:Hloop.
      intros [= <- ->].
      destruct (copy_entries_land des ses IH Hall Hnd Hfit' [] false es
                  ltac:(done) Hloop) as [Hin _].
      apply extends_entries. intros k c Hc. apply Hin. by apply dir_get_elem.
Qed.

Lemma merge_lands (project0 : dirents) (payload_root : dirents) :
  Forall (λ e, distinct e.2 = true) payload_root →
  NoDup (names payload_root) →
  Forall (λ e, fits_over e.2 (dir_get e.1 project0) = true) payload_root →
  ∀ (project after : dirents),
    (∀ k, k ∈ names payload_root → dir_get k project = dir_get k project0) →
    merge_into_project None false (λ _, false) payload_root project
    = (after, false) →
    (∀ k c, In (k, c) payload_root → extends (Some c) (dir_get k after))
    ∧ (∀ k, k ∉ names payload_root → dir_get k after = dir_get k project).
Proof.
  induction payload_root as [|[name item] rest IH];
    intros Hdist Hnd Hfit project after Hacc; cbn [merge_into_project].
  - intros [= <-]. split; [done | done].
  - apply Forall_cons in Hdist as [Hd Hdist].
    apply NoDup_cons in Hnd as [Hname Hnd].
    apply Forall_cons in Hfit as [Hf Hfit]. simpl in Hd, Hf.
    unfold merge_item, filtered_out. simpl andb. cbv iota.
    rewrite (Hacc name) by (by left).
    destruct (match item with
              | Dir _ => copytree true item (dir_get name project0)
              | File _ _ => copy2 name item (dir_get name project0)
              end) as [c' e] eqn:Hstep.
    assert ((match item with
             | Dir _ =>
                 let '(d, e) := copytree true item (dir_get name project0) in
                 (put_opt name d project, e)
             | File _ _ =>
                 let '(d, e) := copy2 name item (dir_get name project0) in
                 (put_opt name d project, e)
             end) = (put_opt name c' project, e)) as ->.
    { destruct item; by rewrite Hstep. }
    destruct e; [done |]. intros Hloop.
    destruct (IH Hdist Hnd Hfit (put_opt name c' project) after)
      as [Hrest Hother]; [| done |].
    { intros k Hk. rewrite dir_get_put_opt_ne; [apply Hacc; by right |].
      by intros ->. }
    assert (extends (Some item) c') as Hext.
    { destruct item as [perm data | ces].
      - apply copy2_lands in Hstep as ->; [apply extends_refl |].
        by destruct (dir_get name project0) as [[? ? | ?] |].
      - by apply copytree_lands in Hstep. }
    assert (dir_get name after = c') as Hhere.
    { rewrite Hother by done.
      pose proof (Hext []) as H0. simpl in H0.
      destruct c' as [v |]; simpl; [apply dir_get_put_eq |].
      by destruct item as [? ? | ?]; [| destruct H0]. }
    split.
    + intros k c [[= -> ->] | Hin]; [by rewrite Hhere | by apply Hrest].
    + intros k Hk. rewrite Hother by (intros Hin; apply Hk; by right).
      apply dir_get_put_opt_ne. intros ->. apply Hk. by left.
Qed.

(** X28: A merge without filter and without the preserve flag that does not
    raise installs the payload: every file of the payload is in the
    project afterwards, at the same path, with its mode and its bytes, and
    every directory of the payload is a directory there, provided no file
    of the payload meets a directory of the project at its path (such a
    file would be copied into that directory). *)
Theorem merge_installs_payload (payload_root project after : dirents) :
  distinct (Dir payload_root) = true →
  fits_over (Dir payload_root) (Some (Dir project)) = true →
  merge_into_project None false (λ _, false) payload_root project
  = (after, false) →
  extends (Some (Dir payload_root)) (Some (Dir after)).
Proof.
  intros [Hnd Hall]%distinct_dir Hfit%fits_over_dir Hm.
  destruct (merge_lands project payload_root Hall Hnd Hfit project after
              ltac:(done) Hm) as [Hin _].
  apply extends_entries. intros k c Hc. apply Hin. by apply dir_get_elem.
Qed.

(** X29: Provisioning a project directory that does not exist yet, without a
    filter, leaves there exactly the payload: the extracted listing, or
    the content of its only directory when the flatten rule applies; the
    call does not raise. *)
Theorem fresh_project_is_payload (extracted_items : dirents)
    (preserve_existing_specs : bool) :
  distinct (Dir (flatten extracted_items).1) = true →
  download_and_extract_template None false (Some extracted_items)
    (λ _, false) None preserve_existing_specs
  = (Some (flatten extracted_items).1, false).
Proof.
  intros [Hnd Hall]%distinct_dir. unfold download_and_extract_template.
  destruct (flatten extracted_items) as [payload_root applied]. simpl in *.
  by rewrite merge_fresh.
Qed.
End InstallFacts.

Lemma merge_into_empty_project_witness :
  let merged :=
    Extractor.merge_into_project None true (λ _, false)
      [(".specs", FS.Dir [("spec.md", FS.File 420 "s")]);
       ("README.md", FS.File 420 "r")] [] in
  merged.2 = false
  ∧ FS.find [".specs"; "spec.md"] (FS.Dir merged.1) = Some (FS.File 420 "s")
  ∧ FS.is_dir [".specs"] (FS.Dir merged.1) = true.
Proof.
  intros merged.
  destruct (merge_into_empty_project true
              [(".specs", FS.Dir [("spec.md", FS.File 420 "s")]);
               ("README.md", FS.File 420 "r")] eq_refl)
    as (Hquiet & Hfiles & Hdirs).
  split; [exact Hquiet |].
  split; [apply Hfiles; reflexivity | rewrite Hdirs; reflexivity].
Defined.

Lemma merge_installs_payload_witness :
  Extractor.extends
    (Some (FS.Dir [("docs", FS.Dir [("a.md", FS.File 420 "new")])]))
    (Some (FS.Dir [("docs", FS.Dir [("a.md", FS.File 420 "new");
                                    ("b.md", FS.File 420 "kept")])])).
Proof.
  exact (merge_installs_payload
           [("docs", FS.Dir [("a.md", FS.File 420 "new")])]
           [("docs", FS.Dir [("a.md", FS.File 384 "old");
                             ("b.md", FS.File 420 "kept")])]
           _ eq_refl eq_refl eq_refl).
Defined.

Lemma fresh_project_is_payload_witness :
  Extractor.download_and_extract_template None false
    (Some [("spec-kit", FS.Dir [(".specs", FS.Dir [("spec.md", FS.File 420 "s")]);
                                (".claude", FS.Dir [])])])
    (λ _, false) None false
  = (Some [(".specs", FS.Dir [("spec.md", FS.File 420 "s")]);
           (".claude", FS.Dir [])], false).
Proof.
  exact (fresh_project_is_payload
           [("spec-kit", FS.Dir [(".specs", FS.Dir [("spec.md", FS.File 420 "s")]);
                                 (".claude", FS.Dir [])])]
           false eq_refl).
Defined.

(** ** The agent loop, to its end *)

Section AgentLoopFacts.
Import FS Extractor Init.
Variable here : bool.
Variable extracted_for : string → option dirents.
Variable same_location_for : string → string → bool.




End AgentLoopFacts.
